(** * Hierarchical utterance classifier: masked loss, accuracy and decoding

    A shallow embedding of [src/model/hierarchical_model.py], of the
    hyper-parameter handling and entry point of [main.py], and of
    [evaluation.py].

    Tensors are nested lists in row-major order: a [batch, position] tensor
    is a list of rows, a [batch, position, class] tensor a list of rows of
    class-score vectors.  Integer tensors (labels, lengths) are [Z].

    Scores are real numbers.  The softmax that the decoding reads is
    computed as the float32 kernel computes it, every operation rounded
    to the nearest float32 number, because rounding decides which class
    the arg-max returns.  The cross-entropy and the scores of the linear
    chain are in exact arithmetic: what is stated about the losses is
    which positions enter them and when they raise.  The mean of an empty
    tensor (0/0) is [NaN].

    Kernels that reject their input raise as they do on the CPU: a label
    outside the class range, an index outside a gathered tensor. *)

From Stdlib Require Import String Reals Lra Lia ZArith Bool Arith List.
From Stdlib Require Import Zfloor.
From Stdlib Require Ascii.
Import ListNotations.

Open Scope R_scope.

Definition Tensor2 (A : Type) := list (list A).
Definition Tensor3 (A : Type) := list (list (list A)).

(** A scalar fetched from the graph: a real value, or the NaN that a
    division of zero by a zero count produces. *)
Inductive Scalar :=
| Val (r : R)
| NaN.

(** Exceptions the modelled code can raise. *)
Inductive Error :=
| AttributeError
| ValueError
| TypeError
| InvalidArgumentError.

Inductive result (A : Type) :=
| Ok (a : A)
| Raise (e : Error).
Arguments Ok {A} _.
Arguments Raise {A} _.

Definition bind {A B : Type} (r : result A) (k : A -> result B) : result B :=
  match r with
  | Ok a => k a
  | Raise e => Raise e
  end.

Notation "x <- r ;; k" := (bind r (fun x => k))
  (at level 61, r at next level, right associativity).

(** A function that can raise, applied to every entry of a list: the
    list of results, or the first exception. *)
Fixpoint mapM {A B : Type} (f : A -> result B) (l : list A)
  : result (list B) :=
  match l with
  | [] => Ok []
  | a :: l' => b <- f a ;; bs <- mapM f l' ;; Ok (b :: bs)
  end.

(** ** Rounding to float32

    The arithmetic of the softmax kernel is binary32 with rounding to the
    nearest number, ties to even. A score is a real number; [round] is
    the float32 number that a real result is stored as. Overflow to an
    infinity is not modelled: no operation of the softmax kernel can
    overflow on finite scores. *)

Module Float32.

(** Rounding of a real to the nearest integer, ties to the even one. *)
Definition rne (x : R) : Z :=
  let f := Zfloor x in
  if Rlt_dec (x - IZR f) (1 / 2) then f
  else if Rlt_dec (1 / 2) (x - IZR f) then (f + 1)%Z
  else if Z.even f then f else (f + 1)%Z.

(** The exponent of the binade of [x]: the integer part of [log2 |x|],
    and -126 for the subnormal numbers. *)
Definition exponent (x : R) : Z :=
  Z.max (Zfloor (ln (Rabs x) / ln 2)) (-126).

(** The distance between the float32 numbers around [x]: a mantissa of
    24 bits. *)
Definition ulp (x : R) : R := powerRZ 2 (exponent x - 23).

Definition round (x : R) : R := IZR (rne (x / ulp x)) * ulp x.

End Float32.

(** ** TensorFlow primitives used by the model *)

Module TF.

Definition reduce_sum (l : list R) : R := fold_right Rplus 0 l.

(** [tf.reduce_mean] of a rank-1 tensor; the mean of the empty tensor is
    0/0, which the kernel reports as NaN without raising. *)
Definition reduce_mean (l : list R) : Scalar :=
  match l with
  | [] => NaN
  | _ :: _ => Val (reduce_sum l / INR (length l))
  end.

(** [tf.sequence_mask(lengths, maxlen)]: entry (i, j) holds iff
    [j < lengths[i]]. *)
Definition sequence_mask_row (maxlen : nat) (n : Z) : list bool :=
  map (fun j => (Z.of_nat j <? n)%Z) (seq 0 maxlen).

Definition sequence_mask (lengths : list Z) (maxlen : nat) : Tensor2 bool :=
  map (sequence_mask_row maxlen) lengths.

(** [tf.cast(_, float)] of a boolean, and the truth value that
    [tf.boolean_mask] gives to a numeric mask entry (nonzero is true). *)
Definition cast_float (b : bool) : R := if b then 1 else 0.

Definition truth (x : R) : bool := if Req_dec_T x 0 then false else true.

Fixpoint mask_row {A : Type} (row : list A) (m : list bool) : list A :=
  match row, m with
  | x :: row', b :: m' =>
      if b then x :: mask_row row' m' else mask_row row' m'
  | _, _ => []
  end.

(** [tf.boolean_mask] of a rank-2 tensor by a rank-2 mask: the selected
    entries, in row-major order. *)
Fixpoint boolean_mask {A : Type} (t : Tensor2 A) (mask : Tensor2 bool)
  : list A :=
  match t, mask with
  | r :: t', m :: mask' => mask_row r m ++ boolean_mask t' mask'
  | _, _ => []
  end.

Fixpoint map2 {A B C : Type} (f : A -> B -> C) (l : list A) (l' : list B)
  : list C :=
  match l, l' with
  | a :: l, b :: l' => f a b :: map2 f l l'
  | _, _ => []
  end.

(** [tf.equal] on integer tensors of rank 2. *)
Definition equal (x y : Tensor2 Z) : Tensor2 bool := map2 (map2 Z.eqb) x y.

(** [tf.reduce_max] of a vector. *)
Definition reduce_max (l : list R) : R :=
  match l with
  | [] => 0
  | x :: l' => fold_left Rmax l' x
  end.

(** [tf.nn.softmax] over the last axis, as the float32 kernel computes
    it: the scores are shifted by their maximum, exponentiated, and
    multiplied by the inverse of their sum, every result rounded to
    float32. The exponential is taken as correctly rounded and the sum
    as accumulated from left to right. *)
Definition softmax_row (row : list R) : list R :=
  let shifted_logits :=
    map (fun x => Float32.round (x - reduce_max row)) row in
  let softmax := map (fun x => Float32.round (exp x)) shifted_logits in
  let sum := fold_left (fun s x => Float32.round (s + x)) softmax 0 in
  let inverse := Float32.round (1 / sum) in
  map (fun x => Float32.round (x * inverse)) softmax.

Definition softmax (logits : Tensor3 R) : Tensor3 R :=
  map (map softmax_row) logits.

(** [tf.gather] of one entry of a rank-1 tensor by an integer index. The
    CPU kernel raises on an index outside the tensor. *)
Definition gather (params : list R) (indices : Z) : result R :=
  if (0 <=? indices)%Z && (indices <? Z.of_nat (length params))%Z
  then Ok (nth (Z.to_nat indices) params 0)
  else Raise InvalidArgumentError.

(** [tf.reduce_logsumexp] of a vector. *)
Definition reduce_logsumexp (l : list R) : R := ln (reduce_sum (map exp l)).

(** Cross-entropy of one position: minus the log of the softmax
    probability of the label, in exact arithmetic. The CPU kernel raises
    on a label outside [0, num_classes). *)
Definition crossent_row (label : Z) (row : list R) : result R :=
  x <- gather row label ;; Ok (reduce_logsumexp row - x).

(** The cross-entropy of every position of the grid, padding included. *)
Definition sparse_softmax_cross_entropy_with_logits
  (labels : Tensor2 Z) (logits : Tensor3 R) : result (Tensor2 R) :=
  mapM (fun p => mapM (fun q => crossent_row (fst q) (snd q))
                      (combine (fst p) (snd p)))
       (combine labels logits).

(** [tf.argmax] over a vector: the first index holding the maximum. *)
Fixpoint argmax_from (best : nat) (bv : R) (i : nat) (l : list R) : nat :=
  match l with
  | [] => best
  | x :: l' =>
      if Rlt_dec bv x then argmax_from i x (S i) l'
      else argmax_from best bv (S i) l'
  end.

Definition argmax (l : list R) : nat :=
  match l with
  | [] => 0%nat
  | x :: l' => argmax_from 0%nat x 1%nat l'
  end.

(** Static dimension 1 of a rank-2 tensor. *)
Definition shape1 {A : Type} (t : Tensor2 A) : nat :=
  match t with
  | [] => 0%nat
  | r :: _ => length r
  end.

End TF.

(** ** Reshaping *)

Module Reshape.

(** All entries of a rank-3 tensor in row-major order. *)
Definition flatten3 {A : Type} (t : Tensor3 A) : list A := concat (concat t).

(** The first [r] rows of width [d] cut from a flat buffer. *)
Definition rows {A : Type} (d : nat) (flat : list A) (r : nat) : Tensor2 A :=
  map (fun i => firstn d (skipn (i * d) flat)) (seq 0 r).

(** [tf.reshape(flat, [-1, d])]. *)
Definition reshape2 {A : Type} (d : nat) (flat : list A)
  : result (Tensor2 A) :=
  if (d =? 0)%nat || negb (length flat mod d =? 0)%nat
  then Raise InvalidArgumentError
  else Ok (rows d flat (length flat / d)).

(** [tf.reshape(flat, [b, m, d])]. *)
Definition reshape3 {A : Type} (b m d : nat) (flat : list A)
  : result (Tensor3 A) :=
  if (length flat =? b * m * d)%nat
  then Ok (map (fun i => rows d (firstn (m * d) (skipn (i * (m * d)) flat)) m)
               (seq 0 b))
  else Raise InvalidArgumentError.

(** Static size of the last axis of a rank-3 tensor. *)
Definition last_dim3 {A : Type} (t : Tensor3 A) : nat :=
  match t with
  | (r :: _) :: _ => length r
  | _ => 0%nat
  end.

(** [tf.concat([x, y], axis=-1)] on rank-3 tensors. *)
Definition concat_last {A : Type} (x y : Tensor3 A) : Tensor3 A :=
  TF.map2 (TF.map2 (@app A)) x y.

End Reshape.

(** ** The linear-chain CRF of [tf.contrib.crf]

    Modelled from the library, as of its last release: a sequence of
    length 0 or less has score 0 and log-normaliser 0. The recurrences
    and the decoding are written for one batch entry at a time; the
    scores of the tag sequences are computed for the whole batch, because
    the tags are gathered from flattened tensors. *)

Module CRF.

(** [rnn.dynamic_rnn] for one batch entry: the cell runs on the first
    [sequence_length] inputs; past them the state is copied through and the
    output is zero. *)
Fixpoint dynamic_rnn {X S Y : Type} (cell : X -> S -> Y * S) (zero : Y)
  (inputs : list X) (sequence_length : nat) (state : S) : list Y * S :=
  match inputs with
  | [] => ([], state)
  | x :: inputs' =>
      match sequence_length with
      | O =>
          let '(ys, s) := dynamic_rnn cell zero inputs' O state in
          (zero :: ys, s)
      | S n =>
          let '(y, s1) := cell x state in
          let '(ys, s) := dynamic_rnn cell zero inputs' n s1 in
          (y :: ys, s)
      end
  end.

(** [reverse_sequence]: the first [n] entries reversed, the rest kept. *)
Definition reverse_sequence {A : Type} (l : list A) (n : nat) : list A :=
  rev (firstn n l) ++ skipn n l.

(** [state + transition_params], column [k]: for every tag [j], the score
    of being in [j] and moving to [k]. *)
Definition transition_scores (transition_params : Tensor2 R)
  (state : list R) (k : nat) : list R :=
  map (fun j => nth j state 0 + nth k (nth j transition_params []) 0)
      (seq 0 (length state)).

Definition CrfForwardRnnCell (transition_params : Tensor2 R)
  (inputs state : list R) : list R * list R :=
  let new_alphas :=
    TF.map2 Rplus inputs
      (map (fun k =>
              TF.reduce_logsumexp (transition_scores transition_params state k))
           (seq 0 (length state))) in
  (new_alphas, new_alphas).

(** [tf.gather] of a flat tensor at every index of a rank-2 tensor of
    indices. *)
Definition gather_all (params : list R) (indices : Tensor2 Z)
  : result (Tensor2 R) :=
  mapM (mapM (TF.gather params)) indices.

(** The unary score of every batch entry: the tags index the flattened
    inputs at [offset + tag], the offset of position (i, j) being
    [i * max_seq_len * num_tags + j * num_tags]; the scores of the
    positions from [sequence_length] on are masked out after the
    gather. *)
Definition crf_unary_score (tag_indices : Tensor2 Z)
  (sequence_lengths : list Z) (inputs : Tensor3 R) : result (list R) :=
  let batch_size := length inputs in
  let max_seq_len := TF.shape1 inputs in
  let num_tags := Reshape.last_dim3 inputs in
  let flattened_inputs := Reshape.flatten3 inputs in
  let offsets :=
    map (fun i =>
           map (fun j =>
                  Z.of_nat (i * max_seq_len * num_tags + j * num_tags))
               (seq 0 max_seq_len))
        (seq 0 batch_size) in
  let flattened_tag_indices := TF.map2 (TF.map2 Z.add) offsets tag_indices in
  unary_scores <- gather_all flattened_inputs flattened_tag_indices ;;
  let masks :=
    map (map TF.cast_float)
        (TF.sequence_mask sequence_lengths (TF.shape1 tag_indices)) in
  Ok (map TF.reduce_sum (TF.map2 (TF.map2 Rmult) unary_scores masks)).

(** The binary score of every batch entry: consecutive tags index the
    flattened transition matrix at [start * num_tags + end]. *)
Definition crf_binary_score (tag_indices : Tensor2 Z)
  (sequence_lengths : list Z) (transition_params : Tensor2 R)
  : result (list R) :=
  let num_tags := Z.of_nat (length transition_params) in
  let num_transitions := (TF.shape1 tag_indices - 1)%nat in
  let start_tag_indices := map (firstn num_transitions) tag_indices in
  let end_tag_indices :=
    map (fun tags => firstn num_transitions (skipn 1 tags)) tag_indices in
  let flattened_transition_indices :=
    TF.map2 (TF.map2 (fun s e => (s * num_tags + e)%Z))
            start_tag_indices end_tag_indices in
  let flattened_transition_params := concat transition_params in
  binary_scores <-
    gather_all flattened_transition_params flattened_transition_indices ;;
  let masks :=
    map (map TF.cast_float)
        (TF.sequence_mask sequence_lengths (TF.shape1 tag_indices)) in
  let truncated_masks := map (skipn 1) masks in
  Ok (map TF.reduce_sum
          (TF.map2 (TF.map2 Rmult) binary_scores truncated_masks)).

(** The score of the tag sequence of every batch entry. For a maximal
    length of 1 the library gathers the unary score of the single tag of
    each entry, 0 for a length of 0 or less. *)
Definition crf_sequence_score (inputs : Tensor3 R) (tag_indices : Tensor2 Z)
  (sequence_lengths : list Z) (transition_params : Tensor2 R)
  : result (list R) :=
  if (TF.shape1 inputs =? 1)%nat
  then
    sequence_scores <-
      mapM (fun p => TF.gather (hd [] (fst p)) (hd 0%Z (snd p)))
           (combine inputs tag_indices) ;;
    Ok (TF.map2 (fun n score => if (n <=? 0)%Z then 0 else score)
                sequence_lengths sequence_scores)
  else
    unary_scores <- crf_unary_score tag_indices sequence_lengths inputs ;;
    binary_scores <-
      crf_binary_score tag_indices sequence_lengths transition_params ;;
    Ok (TF.map2 Rplus unary_scores binary_scores).

(** The log of the partition function of one batch entry, by the forward
    algorithm; 0 for a sequence of length 0 or less. *)
Definition crf_log_norm (inputs : Tensor2 R) (sequence_length : Z)
  (transition_params : Tensor2 R) : R :=
  match inputs with
  | [] => 0
  | first_input :: rest_of_input =>
      let sequence_lengths_less_one :=
        Z.to_nat (Z.max 0 (sequence_length - 1)) in
      let '(_, alphas) :=
        dynamic_rnn (CrfForwardRnnCell transition_params)
          (repeat 0 (length first_input))
          rest_of_input sequence_lengths_less_one first_input in
      let log_norm := TF.reduce_logsumexp alphas in
      if (sequence_length <=? 0)%Z then 0 else log_norm
  end.

(** [crf_log_likelihood]: one log-likelihood per batch entry. *)
Definition crf_log_likelihood (inputs : Tensor3 R) (tag_indices : Tensor2 Z)
  (sequence_lengths : list Z) (transition_params : Tensor2 R)
  : result (list R) :=
  sequence_scores <-
    crf_sequence_score inputs tag_indices sequence_lengths
                       transition_params ;;
  let log_norm :=
    TF.map2 (fun x n => crf_log_norm x n transition_params)
            inputs sequence_lengths in
  Ok (TF.map2 Rminus sequence_scores log_norm).

Definition CrfDecodeForwardRnnCell (transition_params : Tensor2 R)
  (inputs state : list R) : list nat * list R :=
  let new_state :=
    TF.map2 Rplus inputs
      (map (fun k => TF.reduce_max (transition_scores transition_params state k))
           (seq 0 (length state))) in
  let backpointers :=
    map (fun k => TF.argmax (transition_scores transition_params state k))
        (seq 0 (length state)) in
  (backpointers, new_state).

Definition CrfDecodeBackwardRnnCell (inputs : list nat) (state : nat)
  : nat * nat :=
  let new_tags := nth state inputs 0%nat in
  (new_tags, new_tags).

(** [crf_decode] for one batch entry: the tags of the whole padded row. *)
Definition crf_decode_row (transition_params : Tensor2 R)
  (potentials : Tensor2 R) (sequence_length : Z) : list Z :=
  match potentials with
  | [] => []
  | initial_state :: inputs =>
      let num_tags := length initial_state in
      let sequence_length_less_one :=
        Z.to_nat (Z.max 0 (sequence_length - 1)) in
      let '(backpointers, last_score) :=
        dynamic_rnn (CrfDecodeForwardRnnCell transition_params)
          (repeat 0%nat num_tags)
          inputs sequence_length_less_one initial_state in
      let backpointers :=
        reverse_sequence backpointers sequence_length_less_one in
      let initial_state := TF.argmax last_score in
      let '(decode_tags, _) :=
        dynamic_rnn CrfDecodeBackwardRnnCell 0%nat
          backpointers sequence_length_less_one initial_state in
      let decode_tags := initial_state :: decode_tags in
      map Z.of_nat (reverse_sequence decode_tags (Z.to_nat sequence_length))
  end.

(** [crf_decode]: the decoded tags of every batch entry. *)
Definition crf_decode (potentials : Tensor3 R) (transition_params : Tensor2 R)
  (sequence_length : list Z) : Tensor2 Z :=
  TF.map2 (crf_decode_row transition_params) potentials sequence_length.

End CRF.

(** ** The model object *)

Inductive ModeKeys := TRAIN | EVAL | INFER.

Definition ModeKeys_eqb (a b : ModeKeys) : bool :=
  match a, b with
  | TRAIN, TRAIN | EVAL, EVAL | INFER, INFER => true
  | _, _ => false
  end.

(** The batch the iterator yields. [Tok] is the type of the entries of
    [input]: token ids for the sequential utterance encoders, features for
    the feed-forward one. *)
Record BatchedInput (Tok : Type) := {
  input : Tensor3 Tok;
  input_sess_length : list Z;
  input_uttr_length : Tensor2 Z;
  target : Tensor2 Z
}.
Arguments input {Tok} _.
Arguments input_sess_length {Tok} _.
Arguments input_uttr_length {Tok} _.
Arguments target {Tok} _.

(** The four concrete classes of the hierarchy below [HModel]. *)
Inductive ModelClass := H_RNN_FFN | H_RNN_RNN | H_RNN_CNN | H_RNN_RNN_CRF.

(** The attributes of a model object that the methods read or assign.
    [attr_logits] and [attr_transition_params] are [self.logits] and
    [self.transition_params]: [None] while the attribute is not set.
    [transitions] is the value of the graph variable that
    [crf_log_likelihood] creates for the transition scores. The
    constructor of the base class, which calls [build_network] and stores
    its results, is outside this file of the source; [set_logits] is the
    assignment of [self.logits] that [compute_labels] of the
    chain-structured class relies on. The attributes that the utterance
    encoders assign while the network is built ([vocab_size],
    [input_embedding], [input_emb_init], [input_emb_placeholder],
    [attn_alphas]) are read by no modelled method and are not part of
    the record: nothing is stated about them. *)
Record Self (Tok : Type) := {
  cls : ModelClass;
  mode : ModeKeys;
  iterator : BatchedInput Tok;
  batch_size : nat;
  transitions : Tensor2 R;
  attr_logits : option (Tensor3 R);
  attr_transition_params : option (Tensor2 R)
}.
Arguments cls {Tok} _.
Arguments mode {Tok} _.
Arguments iterator {Tok} _.
Arguments batch_size {Tok} _.
Arguments transitions {Tok} _.
Arguments attr_logits {Tok} _.
Arguments attr_transition_params {Tok} _.

Definition set_transition_params {Tok : Type} (self : Self Tok)
  (p : Tensor2 R) : Self Tok :=
  {| cls := cls self; mode := mode self; iterator := iterator self;
     batch_size := batch_size self; transitions := transitions self;
     attr_logits := attr_logits self;
     attr_transition_params := Some p |}.

Definition set_logits {Tok : Type} (self : Self Tok)
  (l : Tensor3 R) : Self Tok :=
  {| cls := cls self; mode := mode self; iterator := iterator self;
     batch_size := batch_size self; transitions := transitions self;
     attr_logits := Some l;
     attr_transition_params := attr_transition_params self |}.

(** What fetching the result of [compute_probabilities] yields: a tensor
    of class distributions, or nothing for a [tf.no_op()]. *)
Inductive Fetch :=
| Probabilities (p : Tensor3 R)
| NoOp.

(** ** Methods of [HModel] *)

Module HModel.

Definition compute_loss {Tok : Type} (self : Self Tok) (logits : Tensor3 R)
  : result Scalar :=
  let target_output := target (iterator self) in
  crossent <-
    TF.sparse_softmax_cross_entropy_with_logits target_output logits ;;
  let mask :=
    map (map TF.cast_float)
        (TF.sequence_mask (input_sess_length (iterator self))
                          (TF.shape1 target_output)) in
  let crossent_masked := TF.boolean_mask crossent (map (map TF.truth) mask) in
  let loss := TF.reduce_mean crossent_masked in
  Ok loss.

Definition compute_accuracy {Tok : Type} (self : Self Tok)
  (labels : Tensor2 Z) : Scalar :=
  let target_output := target (iterator self) in
  let correct_pred := TF.equal labels target_output in
  let correct_pred := map (map TF.cast_float) correct_pred in
  let mask :=
    TF.sequence_mask (input_sess_length (iterator self))
                     (TF.shape1 target_output) in
  let correct_pred_masked := TF.boolean_mask correct_pred mask in
  let accuracy := TF.reduce_mean correct_pred_masked in
  accuracy.

Definition compute_probabilities (logits : Tensor3 R) : Tensor3 R :=
  TF.softmax logits.

(** The arg-max is taken over the last axis of what
    [compute_probabilities] returns. *)
Definition compute_labels (logits : Tensor3 R) : Tensor2 Z :=
  map (map (fun row => Z.of_nat (TF.argmax row)))
      (compute_probabilities logits).

End HModel.

(** ** Methods overridden by [H_RNN_RNN_CRF] *)

Module H_RNN_RNN_CRF.

(** Returns the loss and the object with [self.transition_params] bound to
    the transition variable. *)
Definition compute_loss {Tok : Type} (self : Self Tok) (logits : Tensor3 R)
  : result (Scalar * Self Tok) :=
  let target_output := target (iterator self) in
  let transition_params := transitions self in
  log_likelihood <-
    CRF.crf_log_likelihood logits target_output
      (input_sess_length (iterator self)) transition_params ;;
  Ok (TF.reduce_mean (map Ropp log_likelihood),
      set_transition_params self transition_params).

Definition compute_probabilities (logits : Tensor3 R) : Fetch := NoOp.

(** Reads [self.logits] and [self.transition_params]; the argument is not
    used. *)
Definition compute_labels {Tok : Type} (self : Self Tok) (logits : Tensor3 R)
  : result (Tensor2 Z) :=
  match attr_logits self, attr_transition_params self with
  | Some self_logits, Some transition_params =>
      let viterbi_sequence :=
        CRF.crf_decode self_logits transition_params
                       (input_sess_length (iterator self)) in
      let predictions := viterbi_sequence in
      Ok predictions
  | _, _ => Raise AttributeError
  end.

(** [_get_trans_params]: the attribute, which must have been bound. *)
Definition _get_trans_params {Tok : Type} (self : Self Tok)
  : result (Tensor2 R) :=
  match attr_transition_params self with
  | Some transition_params => Ok transition_params
  | None => Raise AttributeError
  end.

End H_RNN_RNN_CRF.

(** ** Method resolution over the class of the object *)

Definition compute_loss {Tok : Type} (self : Self Tok) (logits : Tensor3 R)
  : result (Scalar * Self Tok) :=
  match cls self with
  | H_RNN_RNN_CRF => H_RNN_RNN_CRF.compute_loss self logits
  | _ => loss <- HModel.compute_loss self logits ;; Ok (loss, self)
  end.

Definition compute_probabilities {Tok : Type} (self : Self Tok)
  (logits : Tensor3 R) : Fetch :=
  match cls self with
  | H_RNN_RNN_CRF => H_RNN_RNN_CRF.compute_probabilities logits
  | _ => Probabilities (HModel.compute_probabilities logits)
  end.

Definition compute_labels {Tok : Type} (self : Self Tok) (logits : Tensor3 R)
  : result (Tensor2 Z) :=
  match cls self with
  | H_RNN_RNN_CRF => H_RNN_RNN_CRF.compute_labels self logits
  | _ => Ok (HModel.compute_labels logits)
  end.

(** ** Building the network *)

(** The hyper-parameters the modelled code reads. *)
Record HParams := {
  model_architecture : string;
  vocab_path : option string;
  connect_inp_to_out : bool
}.

(** The layers whose bodies are built from helpers outside this file of
    the source: the two hooks of [HModel] and the output projection. The
    utterance encoder of a class receives what the hook reads: the
    hyper-parameters, [self.iterator.input] (read by the feed-forward
    encoder), [self.iterator.input_uttr_length] (read by the sequential
    encoders) and the reshaped input. *)
Record Layers (Tok : Type) := {
  utterance_encoder :
    ModelClass -> HParams -> Tensor3 Tok -> Tensor2 Z -> Tensor2 Tok ->
    Tensor2 R;
  session_encoder : HParams -> list Z -> Tensor3 R -> Tensor3 R;
  output_layer : HParams -> Tensor3 R -> Tensor3 R
}.
Arguments utterance_encoder {Tok} _.
Arguments session_encoder {Tok} _.
Arguments output_layer {Tok} _.

(** [HModel.build_network]: the logits, the loss ([None] when it is not
    computed) and the object as the call leaves it. *)
Definition build_network {Tok : Type} (layers : Layers Tok)
  (hparams : HParams) (self : Self Tok)
  : result ((Tensor3 R * option Scalar) * Self Tok) :=
  let it := iterator self in
  reshape_input <-
    Reshape.reshape2 (Reshape.last_dim3 (input it))
                     (Reshape.flatten3 (input it)) ;;
  let utterances_embs :=
    utterance_encoder layers (cls self) hparams (input it)
                      (input_uttr_length it) reshape_input in
  reshape_utterances_embs <-
    Reshape.reshape3 (batch_size self) (TF.shape1 (input it))
                     (TF.shape1 utterances_embs) (concat utterances_embs) ;;
  let session_rnn_outputs :=
    session_encoder layers hparams (input_sess_length it)
                    reshape_utterances_embs in
  let session_rnn_outputs :=
    if connect_inp_to_out hparams
    then Reshape.concat_last reshape_utterances_embs session_rnn_outputs
    else session_rnn_outputs in
  let logits := output_layer layers hparams session_rnn_outputs in
  if ModeKeys_eqb (mode self) INFER
  then Ok ((logits, None), self)
  else
    r <- compute_loss self logits ;;
    Ok ((logits, Some (fst r)), snd r).

(** ** Checking the hyper-parameters ([main.py]) *)

Definition check_hparams (hparams : HParams) : result unit :=
  if (model_architecture hparams =? "h-rnn-rnn")%string
     || (model_architecture hparams =? "h-cnn-rnn")%string
  then
    match vocab_path hparams with
    | None => Raise ValueError
    | Some _ => Ok tt
    end
  else Ok tt.

(** ** Vocabulary of the statements *)

(** Position [j] of session [i] is valid iff [j < session_lengths[i]]. *)
Definition valid (session_lengths : list Z) (i j : nat) : bool :=
  (Z.of_nat j <? nth i session_lengths 0%Z)%Z.

(** The valid positions of a padded [b] x [m] grid, in row-major order. *)
Definition valid_positions (session_lengths : list Z) (b m : nat)
  : list (nat * nat) :=
  filter (fun p => valid session_lengths (fst p) (snd p))
         (list_prod (seq 0 b) (seq 0 m)).

(** Entry (i, j) of a rank-2 tensor. *)
Definition at2 {A : Type} (d : A) (t : Tensor2 A) (p : nat * nat) : A :=
  nth (snd p) (nth (fst p) t []) d.

(** Entry [i] of a vector of scores, 0 outside the vector. *)
Definition entry (l : list R) (i : Z) : R :=
  if (i <? 0)%Z then 0 else nth (Z.to_nat i) l 0.

(** Entry (i, j) of a matrix of scores. *)
Definition entry2 (t : Tensor2 R) (i j : Z) : R :=
  if (i <? 0)%Z then 0 else entry (nth (Z.to_nat i) t []) j.

(** The cross-entropy of a vector of scores against a class: the log of
    the sum of the exponentials minus the score of the class. *)
Definition crossent (label : Z) (row : list R) : R :=
  TF.reduce_logsumexp row - entry row label.

(** The cross-entropy of position [p]: its logits against its target. *)
Definition crossent_at (logits : Tensor3 R) (target_output : Tensor2 Z)
  (p : nat * nat) : R :=
  crossent (at2 0%Z target_output p) (at2 [] logits p).

(** The cross-entropy of every position of a grid. *)
Definition crossents (labels : Tensor2 Z) (logits : Tensor3 R) : Tensor2 R :=
  TF.map2 (TF.map2 crossent) labels logits.

(** A label is a class of a vector of scores. *)
Definition is_class (row : list R) (label : Z) : bool :=
  (0 <=? label)%Z && (label <? Z.of_nat (length row))%Z.

(** Every label of the grid, padding included, is a class of the scores
    of its position. *)
Definition labels_in_range (labels : Tensor2 Z) (logits : Tensor3 R)
  : bool :=
  forallb (fun p => forallb (fun q => is_class (snd q) (fst q))
                            (combine (fst p) (snd p)))
          (combine labels logits).

(** A rank-2 tensor (or the two leading axes of a rank-3 one) has [b] rows
    of [m] entries. *)
Definition has_shape {A : Type} (b m : nat) (t : Tensor2 A) : Prop :=
  length t = b /\ Forall (fun r => length r = m) t.

(** ** Example batches *)

(** Two sessions padded to three positions, of lengths 2 and 3, with four
    classes. *)
Definition scenario_A_batch : BatchedInput Z :=
  {| input := [[[1; 2]; [3; 4]; [0; 0]]; [[5; 6]; [7; 8]; [9; 1]]]%Z;
     input_sess_length := [2; 3]%Z;
     input_uttr_length := [[2; 2; 0]; [2; 2; 2]]%Z;
     target := [[0; 1; 0]; [2; 3; 1]]%Z |}.

Definition scenario_A_logits : Tensor3 R :=
  [[[1; 0; 0; 0]; [0; 1; 0; 0]; [0; 0; 0; 0]];
   [[0; 0; 1; 0]; [0; 0; 0; 1]; [0; 1; 0; 0]]].

Definition scenario_A (c : ModelClass) (md : ModeKeys) : Self Z :=
  {| cls := c; mode := md; iterator := scenario_A_batch; batch_size := 2;
     transitions := [[0; 0; 0; 0]; [0; 0; 0; 0]; [0; 0; 0; 0]; [0; 0; 0; 0]];
     attr_logits := None; attr_transition_params := None |}.

(** ** Vocabulary of the statements, continued *)

(** The predicted label of position [p] equals its target. *)
Definition correct_at (labels target_output : Tensor2 Z) (p : nat * nat)
  : bool :=
  (at2 0%Z labels p =? at2 0%Z target_output p)%Z.

(** The quotient [n / d] of two counts; NaN when [d] is 0. *)
Definition fraction (n d : nat) : Scalar :=
  match d with
  | O => NaN
  | S _ => Val (INR n / INR d)
  end.

(** Two tensors over the same padded [b] x [m] grid hold the same entries
    at every valid position; they may differ anywhere in the padding. *)
Definition agree_on_valid {A : Type} (d : A) (session_lengths : list Z)
  (b m : nat) (t t' : Tensor2 A) : Prop :=
  forall i j, (i < b)%nat -> (j < m)%nat ->
              valid session_lengths i j = true ->
              at2 d t (i, j) = at2 d t' (i, j).

(** Predictions for scenario A (wrong at position (1, 1)) and a second
    batch and predictions that differ from the first only at the padding
    position (0, 2). *)
Definition scenario_A_labels : Tensor2 Z := [[0; 1; 3]; [2; 0; 1]]%Z.

Definition scenario_A_labels' : Tensor2 Z := [[0; 1; 2]; [2; 0; 1]]%Z.

Definition scenario_A_batch' : BatchedInput Z :=
  {| input := [[[1; 2]; [3; 4]; [7; 7]]; [[5; 6]; [7; 8]; [9; 1]]]%Z;
     input_sess_length := [2; 3]%Z;
     input_uttr_length := [[2; 2; 0]; [2; 2; 2]]%Z;
     target := [[0; 1; 2]; [2; 3; 1]]%Z |}.

Definition scenario_A' (c : ModelClass) (md : ModeKeys) : Self Z :=
  {| cls := c; mode := md; iterator := scenario_A_batch'; batch_size := 2;
     transitions := [[0; 0; 0; 0]; [0; 0; 0; 0]; [0; 0; 0; 0]; [0; 0; 0; 0]];
     attr_logits := None; attr_transition_params := None |}.

(** An object with another batch. *)
Definition with_batch {Tok : Type} (self : Self Tok)
  (batch : BatchedInput Tok) : Self Tok :=
  {| cls := cls self; mode := mode self; iterator := batch;
     batch_size := batch_size self; transitions := transitions self;
     attr_logits := attr_logits self;
     attr_transition_params := attr_transition_params self |}.


(** Two score vectors order their classes in the same way. *)
Definition same_order (r r' : list R) : Prop :=
  length r = length r'
  /\ forall a b, (a < length r)%nat -> (b < length r)%nat ->
                 (nth a r 0 < nth b r 0 <-> nth a r' 0 < nth b r' 0).

(** A rank-3 tensor has [b] rows of [m] vectors of [d] entries. *)
Definition has_shape3 {A : Type} (b m d : nat) (t : Tensor3 A) : Prop :=
  has_shape b m t /\ Forall (Forall (fun r => length r = d)) t.

(** Stand-in layers for the examples: every utterance is embedded as one
    zero, the session encoder is the identity, and the output layer gives
    every position four zero scores. *)
Definition example_layers : Layers Z :=
  {| utterance_encoder := fun _ _ _ _ rows => map (fun _ => [0]) rows;
     session_encoder := fun _ _ t => t;
     output_layer := fun _ t => map (map (fun _ => [0; 0; 0; 0])) t |}.

Definition example_hparams : HParams :=
  {| model_architecture := "h-rnn-rnn-crf";
     vocab_path := Some "vocab.txt"%string;
     connect_inp_to_out := false |}.

(** ** The contract of the layers *)




(** ** Auxiliary notions for the chain-structured variant *)

(** The score of a tag path over a sequence of score vectors: the unary
    scores of the tags plus the transition scores of consecutive tags.
    Both lists are read up to the shorter one. *)
Definition path_score (transition_params : Tensor2 R) (inputs : Tensor2 R)
  (tags : list Z) : R :=
  TF.reduce_sum (TF.map2 entry inputs tags)
  + TF.reduce_sum (TF.map2 (entry2 transition_params) tags (tl tags)).

(** The scores of one batch entry whose tags are classes, as the chain
    defines them: the unary scores of the first [sequence_length] tags,
    the transition scores between them, their sum, and the
    log-likelihood, which is that sum minus the log-normaliser. *)
Definition unary_score (tag_indices : list Z) (sequence_length : Z)
  (inputs : Tensor2 R) : R :=
  let unary_scores := TF.map2 entry inputs tag_indices in
  let masks :=
    map TF.cast_float
        (TF.sequence_mask_row (length tag_indices) sequence_length) in
  TF.reduce_sum (TF.map2 Rmult unary_scores masks).

Definition binary_score (tag_indices : list Z) (sequence_length : Z)
  (transition_params : Tensor2 R) : R :=
  let num_transitions := (length tag_indices - 1)%nat in
  let start_tag_indices := firstn num_transitions tag_indices in
  let end_tag_indices := firstn num_transitions (skipn 1 tag_indices) in
  let binary_scores :=
    TF.map2 (entry2 transition_params) start_tag_indices end_tag_indices in
  let masks :=
    map TF.cast_float
        (TF.sequence_mask_row (length tag_indices) sequence_length) in
  let truncated_masks := skipn 1 masks in
  TF.reduce_sum (TF.map2 Rmult binary_scores truncated_masks).

Definition sequence_score (inputs : Tensor2 R) (tag_indices : list Z)
  (sequence_length : Z) (transition_params : Tensor2 R) : R :=
  unary_score tag_indices sequence_length inputs
  + binary_score tag_indices sequence_length transition_params.

Definition log_likelihood (transition_params : Tensor2 R)
  (inputs : Tensor2 R) (tag_indices : list Z) (sequence_length : Z) : R :=
  sequence_score inputs tag_indices sequence_length transition_params
  - CRF.crf_log_norm inputs sequence_length transition_params.

(** The log-likelihood of every batch entry. *)
Definition log_likelihoods (inputs : Tensor3 R) (tag_indices : Tensor2 Z)
  (sequence_lengths : list Z) (transition_params : Tensor2 R) : list R :=
  TF.map2 (fun it n => log_likelihood transition_params (fst it) (snd it) n)
          (combine inputs tag_indices) sequence_lengths.

(** Every tag of the grid, padding included, is one of [o] classes. *)
Definition tags_in_range (o : nat) (tag_indices : Tensor2 Z) : Prop :=
  Forall (Forall (fun t => (0 <= t < Z.of_nat o)%Z)) tag_indices.

(** Removing entry [k] of a list. *)
Definition remove_nth {A : Type} (k : nat) (l : list A) : list A :=
  firstn k l ++ skipn (S k) l.

(** The batch, and the object, without session [k]. *)
Definition drop_session_batch {Tok : Type} (k : nat) (it : BatchedInput Tok)
  : BatchedInput Tok :=
  {| input := remove_nth k (input it);
     input_sess_length := remove_nth k (input_sess_length it);
     input_uttr_length := remove_nth k (input_uttr_length it);
     target := remove_nth k (target it) |}.

Definition drop_session {Tok : Type} (k : nat) (self : Self Tok) : Self Tok :=
  {| cls := cls self; mode := mode self;
     iterator := drop_session_batch k (iterator self);
     batch_size := (batch_size self - 1)%nat;
     transitions := transitions self;
     attr_logits := attr_logits self;
     attr_transition_params := attr_transition_params self |}.

(** A cell run over a whole list of inputs: the outputs and the final
    state. *)
Fixpoint scan {X S Y : Type} (cell : X -> S -> Y * S) (inputs : list X)
  (state : S) : list Y * S :=
  match inputs with
  | [] => ([], state)
  | x :: inputs' =>
      let '(y, s1) := cell x state in
      let '(ys, s) := scan cell inputs' s1 in
      (y :: ys, s)
  end.

(** A chain-structured model on a batch of two sessions padded to one
    position, the second of length 0, with two classes. *)
Definition empty_session_batch : BatchedInput Z :=
  {| input := [[[1]]; [[0]]]%Z;
     input_sess_length := [1; 0]%Z;
     input_uttr_length := [[1]; [0]]%Z;
     target := [[0]; [0]]%Z |}.

Definition empty_session_logits : Tensor3 R := [[[0; 0]]; [[0; 0]]].

Definition empty_session_model (c : ModelClass) : Self Z :=
  {| cls := c; mode := TRAIN; iterator := empty_session_batch;
     batch_size := 2; transitions := [[0; 0]; [0; 0]];
     attr_logits := None; attr_transition_params := None |}.




(** ** Python built-ins used by [main.py] and [evaluation.py] *)

Module Py.

Import Ascii.

Definition comma : ascii := ","%char.
Definition dot : ascii := "."%char.
Definition slash : ascii := "/"%char.

(** [s.split(sep)] for a separator of one character. *)
Fixpoint split (sep : ascii) (s : string) : list string :=
  match s with
  | EmptyString => [EmptyString]
  | String c s' =>
      if Ascii.eqb c sep then EmptyString :: split sep s'
      else match split sep s' with
           | h :: t => String c h :: t
           | [] => [String c EmptyString]
           end
  end.

(** [sep.join(l)]. *)
Fixpoint join (sep : ascii) (l : list string) : string :=
  match l with
  | [] => EmptyString
  | s :: l' =>
      match l' with
      | [] => s
      | _ :: _ => (s ++ String sep (join sep l'))%string
      end
  end.

(** The number of occurrences of a character. *)
Fixpoint count (c : ascii) (s : string) : nat :=
  match s with
  | EmptyString => 0%nat
  | String c' s' => ((if Ascii.eqb c' c then 1 else 0) + count c s')%nat
  end.

(** [c in s]. *)
Fixpoint contains (c : ascii) (s : string) : bool :=
  match s with
  | EmptyString => false
  | String c' s' => Ascii.eqb c' c || contains c s'
  end.

(** The truth value of an optional string in a condition: [None] and
    the empty string are false. *)
Definition truthy (s : option string) : bool :=
  match s with
  | Some (String _ _) => true
  | _ => false
  end.

Fixpoint endswith (c : ascii) (s : string) : bool :=
  match s with
  | EmptyString => false
  | String c' EmptyString => Ascii.eqb c' c
  | String _ s' => endswith c s'
  end.

Definition startswith (c : ascii) (s : string) : bool :=
  match s with
  | String c' _ => Ascii.eqb c' c
  | EmptyString => false
  end.

(** [os.path.join(a, b)] of [posixpath]. *)
Definition path_join (a b : string) : string :=
  if startswith slash b then b
  else if (a =? "")%string || endswith slash a then (a ++ b)%string
  else (a ++ String slash b)%string.

End Py.

(** ** Hyper-parameters and the entry point ([main.py]) *)

(** The view of the hyper-parameters that [check_hparams] reads: the
    architecture name and the vocabulary path. *)
Definition checked_view (arch : string) (path : option string) : HParams :=
  {| model_architecture := arch; vocab_path := path;
     connect_inp_to_out := false |}.

Module Main.

(** The hyper-parameters that [create_hparams] copies from the flags,
    restricted to those that the modelled functions read. A flag that was
    not given and has no default is [None]. Lists are still
    comma-separated strings. *)
Record Default := {
  input_emb_file : option string;
  out_dir : option string;
  hparams_path : option string;
  vocab_path : option string;
  unk : string;
  pad : string;
  model_architecture : string;
  input_emb_size : Z;
  filter_sizes : string;
  uttr_units : string;
  sess_units : string;
  uttr_hid_to_out_dropout : string;
  sess_hid_to_out_dropout : string;
  uttr_activation : string;
  sess_activation : string;
  val_target_path : option string;
  eval_output_folder : option string;
  ckpt : option string;
  eval_input_path : option string;
  eval_target_path : option string;
  predictions_filename : string;
  gpu : Z
}.

(** The hyper-parameters after [extend_hparams]: [raw] keeps the fields
    that are not assigned, the others are the assigned ones. *)
Record Extended := {
  raw : Default;
  ext_input_emb_weights : option (Tensor2 R);
  ext_input_emb_size : Z;
  ext_input_emb_pretrain : bool;
  ext_vocab_size : option Z;
  ext_vocab_path : option string;
  ext_uttr_units : list Z;
  ext_sess_units : list Z;
  ext_uttr_hid_to_out_dropout : list R;
  ext_sess_hid_to_out_dropout : list R;
  ext_uttr_activation : list string;
  ext_sess_activation : list string;
  ext_filter_sizes : list Z
}.

(** The functions of other modules and of the libraries that the entry
    point calls: [np.loadtxt], [vocab_utils.check_vocab], the built-ins
    [int], [float] and [str], [utils.maybe_parse_standard_hparams],
    [tf.gfile.Exists] on a path and [tf.train.latest_checkpoint]. *)
Record Env := {
  loadtxt : string -> result (Tensor2 R);
  check_vocab :
    string -> option string -> string -> string -> result (Z * string);
  int : string -> result Z;
  float : string -> result R;
  str : Z -> string;
  maybe_parse_standard_hparams : Default -> option string -> result Default;
  Exists : string -> bool;
  latest_checkpoint : string -> option string
}.

(** What the entry point does to the outside, in order. The last two
    events are the calls of the functions that [run_main] receives. *)
Inductive Event :=
| MakeDirs (dir : string)
| save_hparams (dir : option string) (hparams : Extended)
| print_hparams (hparams : Extended)
| SetEnviron (name value : string)
| call_train_fn (hparams : Extended)
| call_evaluation_fn (hparams : Extended) (checkpoint : option string).

Definition extend_hparams (env : Env) (hparams : Default)
  : result Extended :=
  input_emb_weights <-
    (if Py.truthy (input_emb_file hparams)
     then match input_emb_file hparams with
          | Some file => w <- loadtxt env file ;; Ok (Some w)
          | None => Ok None
          end
     else Ok None) ;;
  let input_emb_size' :=
    match input_emb_weights with
    | Some w => Z.of_nat (TF.shape1 w)
    | None => input_emb_size hparams
    end in
  let input_emb_pretrain :=
    match input_emb_file hparams with
    | Some _ => true
    | None => false
    end in
  vocab <-
    match vocab_path hparams with
    | Some path =>
        r <- check_vocab env path (out_dir hparams) (unk hparams)
                         (pad hparams) ;;
        Ok (Some (fst r), Some (snd r))
    | None => Ok (None, None)
    end ;;
  uttr_units' <- mapM (int env) (Py.split Py.comma (uttr_units hparams)) ;;
  sess_units' <- mapM (int env) (Py.split Py.comma (sess_units hparams)) ;;
  uttr_dropout <-
    mapM (float env)
         (Py.split Py.comma (uttr_hid_to_out_dropout hparams)) ;;
  sess_dropout <-
    mapM (float env)
         (Py.split Py.comma (sess_hid_to_out_dropout hparams)) ;;
  let uttr_activation' := Py.split Py.comma (uttr_activation hparams) in
  let sess_activation' := Py.split Py.comma (sess_activation hparams) in
  filter_sizes' <-
    mapM (int env) (Py.split Py.comma (filter_sizes hparams)) ;;
  Ok {| raw := hparams;
        ext_input_emb_weights := input_emb_weights;
        ext_input_emb_size := input_emb_size';
        ext_input_emb_pretrain := input_emb_pretrain;
        ext_vocab_size := fst vocab;
        ext_vocab_path := snd vocab;
        ext_uttr_units := uttr_units';
        ext_sess_units := sess_units';
        ext_uttr_hid_to_out_dropout := uttr_dropout;
        ext_sess_hid_to_out_dropout := sess_dropout;
        ext_uttr_activation := uttr_activation';
        ext_sess_activation := sess_activation';
        ext_filter_sizes := filter_sizes' |}.

(** [check_hparams] on the extended hyper-parameters. *)
Definition check_extended (hparams : Extended) : result unit :=
  check_hparams
    (checked_view (model_architecture (raw hparams)) (ext_vocab_path hparams)).

(** The result and the events of [process_or_load_hparams]. *)
Definition process_or_load_hparams (env : Env) (out_dir : option string)
  (default_hparams : Default) (hparams_path : option string)
  : result Extended * list Event :=
  let hparams := default_hparams in
  match
    (hparams <- maybe_parse_standard_hparams env hparams hparams_path ;;
     hparams <- extend_hparams env hparams ;;
     _ <- check_extended hparams ;;
     Ok hparams)
  with
  | Ok hparams =>
      (Ok hparams, [save_hparams out_dir hparams; print_hparams hparams])
  | Raise e => (Raise e, [])
  end.

(** The result and the events of [run_main]. [tf.gfile.Exists] raises
    [TypeError] on [None], the default of the flag [out_dir]. An
    exception of [train_fn] or of [evaluation_fn] is the exception of
    [run_main]. *)
Definition run_main (env : Env) (default_hparams : Default)
  (train_fn : Extended -> result unit)
  (evaluation_fn : Extended -> option string -> result unit)
  : result unit * list Event :=
  match out_dir default_hparams with
  | None => (Raise TypeError, [])
  | Some out_dir =>
      let made := if Exists env out_dir then [] else [MakeDirs out_dir] in
      match process_or_load_hparams env (Some out_dir) default_hparams
                                    (hparams_path default_hparams) with
      | (Raise e, events) => (Raise e, made ++ events)
      | (Ok hparams, events) =>
          let environ :=
            [SetEnviron "CUDA_VISIBLE_DEVICES"
                        (str env (gpu (raw hparams)))] in
          if Py.truthy (eval_output_folder (raw hparams))
          then
            let ckpt := ckpt (raw hparams) in
            let ckpt :=
              if negb (Py.truthy ckpt) then latest_checkpoint env out_dir
              else ckpt in
            (evaluation_fn hparams ckpt,
             made ++ events ++ environ ++ [call_evaluation_fn hparams ckpt])
          else
            (train_fn hparams,
             made ++ events ++ environ ++ [call_train_fn hparams])
      end
  end.

End Main.

(** ** Evaluation of a saved model ([evaluation.py]) *)

Module Evaluation.

Inductive Placeholder :=
| input_file_placeholder
| output_file_placeholder.

Definition FeedDict := list (Placeholder * option string).

(** The functions of [model_helper], of the session and of the libraries
    that [evaluate] calls; each of them can raise. A model is named by
    its mode. What [evaluate] reads of the predictions that a batch run
    returns is their number of dimensions. *)
Record Env := {
  get_model_creator : string -> result ModelClass;
  create_infer_model : ModelClass -> Main.Extended -> result unit;
  create_eval_model : ModelClass -> Main.Extended -> result unit;
  Session : ModeKeys -> result unit;
  load_model : ModeKeys -> string -> option string -> result unit;
  run_initializer : ModeKeys -> FeedDict -> result unit;
  run_batch_evaluation : ModeKeys -> result unit;
  run_batch_evaluation_and_prediction : ModeKeys -> result nat;
  run_batch_prediction : ModeKeys -> result nat;
  savetxt : string -> result unit;
  pickle_dump : string -> result unit
}.

(** The calls that [evaluate] makes, in order; a call is recorded whether
    it returns or raises. *)
Inductive Event :=
| CreateInferModel (model_creator : ModelClass)
| CreateEvalModel (model_creator : ModelClass)
| NewSession (model : ModeKeys)
| LoadModel (model : ModeKeys) (name : string) (ckpt : option string)
| RunInitializer (model : ModeKeys) (feed_dict : FeedDict)
| RunBatchEvaluation (model : ModeKeys)
| RunBatchEvaluationAndPrediction (model : ModeKeys)
| RunBatchPrediction (model : ModeKeys)
| SaveTxt (path : string)
| PickleDump (path : string).

(** A computation that calls the outside: its result and the calls it
    made; an exception ends it. *)
Definition Run (A : Type) : Type := result A * list Event.

Definition call {A : Type} (event : Event) (r : result A) : Run A :=
  (r, [event]).

Definition pure {A : Type} (r : result A) : Run A := (r, []).

Definition and_then {A B : Type} (m : Run A) (k : A -> Run B) : Run B :=
  match fst m with
  | Ok a => (fst (k a), snd m ++ snd (k a))
  | Raise e => (Raise e, snd m)
  end.

Notation "x <~ m ;; k" := (and_then m (fun x => k))
  (at level 61, m at next level, right associativity).

Definition eval (env : Env) (model : ModeKeys)
  (iterator_feed_dict : FeedDict) : Run unit :=
  _ <~ call (RunInitializer model iterator_feed_dict)
            (run_initializer env model iterator_feed_dict) ;;
  call (RunBatchEvaluation model) (run_batch_evaluation env model).

Definition eval_and_precit (env : Env) (model : ModeKeys)
  (iterator_feed_dict : FeedDict) : Run nat :=
  _ <~ call (RunInitializer model iterator_feed_dict)
            (run_initializer env model iterator_feed_dict) ;;
  call (RunBatchEvaluationAndPrediction model)
       (run_batch_evaluation_and_prediction env model).

Definition predict (env : Env) (model : ModeKeys)
  (iterator_feed_dict : FeedDict) : Run nat :=
  _ <~ call (RunInitializer model iterator_feed_dict)
            (run_initializer env model iterator_feed_dict) ;;
  call (RunBatchPrediction model) (run_batch_prediction env model).

(** [os.path.join(a, b)] where [a] can be [None]: [posixpath] of
    Python 2 returns an absolute [b] as it is and reads [a.endswith]
    otherwise. *)
Definition path_join (a : option string) (b : string) : result string :=
  match a with
  | Some a => Ok (Py.path_join a b)
  | None => if Py.startswith Py.slash b then Ok b else Raise AttributeError
  end.

(** The name of the pickle file:
    [predictions_filename.split(".")[0] + ".pickle"]. *)
Definition pickle_name (predictions_filename : string) : string :=
  (hd EmptyString (Py.split Py.dot predictions_filename) ++ ".pickle")%string.

(** The result and the calls of [evaluate]. *)
Definition evaluate (env : Env) (hparams : Main.Extended)
  (ckpt : option string) : Run unit :=
  let h := Main.raw hparams in
  model_creator <~ pure (get_model_creator env (Main.model_architecture h)) ;;
  predictions_ndim <~
    (if negb (Py.truthy (Main.val_target_path h))
        && negb (Main.model_architecture h =? "h-ffn-rnn")%string
        && negb (Main.model_architecture h =? "ffn")%string
     then
       _ <~ call (CreateInferModel model_creator)
                 (create_infer_model env model_creator hparams) ;;
       _ <~ call (NewSession INFER) (Session env INFER) ;;
       _ <~ call (LoadModel INFER "prediction" ckpt)
                 (load_model env INFER "prediction" ckpt) ;;
       predict env INFER
         [(input_file_placeholder, Main.eval_input_path h)]
     else
       _ <~ call (CreateEvalModel model_creator)
                 (create_eval_model env model_creator hparams) ;;
       _ <~ call (NewSession EVAL) (Session env EVAL) ;;
       _ <~ call (LoadModel EVAL "evaluation" ckpt)
                 (load_model env EVAL "evaluation" ckpt) ;;
       eval_and_precit env EVAL
         (if Py.truthy (Main.val_target_path h)
          then [(input_file_placeholder, Main.eval_input_path h);
                (output_file_placeholder, Main.eval_target_path h)]
          else [(input_file_placeholder, Main.eval_input_path h)])) ;;
  _ <~
    (if (predictions_ndim <=? 2)%nat
     then
       path <~ pure (path_join (Main.eval_output_folder h)
                               (Main.predictions_filename h)) ;;
       call (SaveTxt path) (savetxt env path)
     else pure (Ok tt)) ;;
  path <~ pure (path_join (Main.eval_output_folder h)
                          (pickle_name (Main.predictions_filename h))) ;;
  call (PickleDump path) (pickle_dump env path).

(** The placeholders that the runs of a trace feed. *)
Fixpoint fed (events : list Event) : FeedDict :=
  match events with
  | [] => []
  | RunInitializer _ feed_dict :: events' => feed_dict ++ fed events'
  | _ :: events' => fed events'
  end.

(** The modes of the models that a trace creates. *)
Fixpoint created (events : list Event) : list ModeKeys :=
  match events with
  | [] => []
  | CreateInferModel _ :: events' => INFER :: created events'
  | CreateEvalModel _ :: events' => EVAL :: created events'
  | _ :: events' => created events'
  end.

(** The files that a trace writes. *)
Fixpoint written (events : list Event) : list string :=
  match events with
  | [] => []
  | SaveTxt path :: events' => path :: written events'
  | PickleDump path :: events' => path :: written events'
  | _ :: events' => written events'
  end.

End Evaluation.

(** ** Example hyper-parameters *)

Definition example_default_at (input_emb_file vocab_path : option string)
  (model_architecture uttr_units : string)
  (val_target_path eval_output_folder ckpt : option string)
  : Main.Default :=
  {| Main.input_emb_file := input_emb_file;
     Main.out_dir := Some "out"%string;
     Main.hparams_path := None;
     Main.vocab_path := vocab_path;
     Main.unk := "<unk>";
     Main.pad := "<pad>";
     Main.model_architecture := model_architecture;
     Main.input_emb_size := 32;
     Main.filter_sizes := "3";
     Main.uttr_units := uttr_units;
     Main.sess_units := "32";
     Main.uttr_hid_to_out_dropout := "0.0";
     Main.sess_hid_to_out_dropout := "0.0";
     Main.uttr_activation := "relu,tanh";
     Main.sess_activation := "relu";
     Main.val_target_path := val_target_path;
     Main.eval_output_folder := eval_output_folder;
     Main.ckpt := ckpt;
     Main.eval_input_path := Some "eval.txt"%string;
     Main.eval_target_path := Some "eval_labels.txt"%string;
     Main.predictions_filename := "predictions.v2.txt";
     Main.gpu := 0 |}.

Definition example_default : Main.Default :=
  example_default_at None (Some "vocab.txt"%string) "h-rnn-rnn" "32,64"
                     None (Some "results"%string) None.

(** An environment in which every file can be read, every number string
    of the example is parsed, and an empty string is no number. *)
Definition example_env : Main.Env :=
  {| Main.loadtxt := fun _ => Ok [[0; 0]; [0; 0]];
     Main.check_vocab := fun path _ _ _ => Ok (100%Z, path);
     Main.int := fun s =>
       if (s =? "")%string then Raise ValueError
       else if (s =? "3")%string then Ok 3%Z
       else if (s =? "32")%string then Ok 32%Z
       else Ok 64%Z;
     Main.float := fun s =>
       if (s =? "")%string then Raise ValueError else Ok 0;
     Main.str := fun _ => "0"%string;
     Main.maybe_parse_standard_hparams := fun hparams _ => Ok hparams;
     Main.Exists := fun _ => false;
     Main.latest_checkpoint := fun dir => Some (dir ++ "/model.ckpt")%string |}.

(** An environment in which every call of [evaluate] returns, with
    predictions of two dimensions. *)
Definition example_eval_env : Evaluation.Env :=
  {| Evaluation.get_model_creator := fun _ => Ok H_RNN_RNN;
     Evaluation.create_infer_model := fun _ _ => Ok tt;
     Evaluation.create_eval_model := fun _ _ => Ok tt;
     Evaluation.Session := fun _ => Ok tt;
     Evaluation.load_model := fun _ _ _ => Ok tt;
     Evaluation.run_initializer := fun _ _ => Ok tt;
     Evaluation.run_batch_evaluation := fun _ => Ok tt;
     Evaluation.run_batch_evaluation_and_prediction := fun _ => Ok 2%nat;
     Evaluation.run_batch_prediction := fun _ => Ok 2%nat;
     Evaluation.savetxt := fun _ => Ok tt;
     Evaluation.pickle_dump := fun _ => Ok tt |}.



(** Extended hyper-parameters over given ones, with one layer of 32
    units at each level. *)
Definition example_extended (hparams : Main.Default) : Main.Extended :=
  {| Main.raw := hparams;
     Main.ext_input_emb_weights := None;
     Main.ext_input_emb_size := 32;
     Main.ext_input_emb_pretrain := false;
     Main.ext_vocab_size := Some 100%Z;
     Main.ext_vocab_path := Main.vocab_path hparams;
     Main.ext_uttr_units := [32%Z];
     Main.ext_sess_units := [32%Z];
     Main.ext_uttr_hid_to_out_dropout := [0];
     Main.ext_sess_hid_to_out_dropout := [0];
     Main.ext_uttr_activation := ["relu"%string];
     Main.ext_sess_activation := ["relu"%string];
     Main.ext_filter_sizes := [3%Z] |}.

(** * Properties *)

(** ** Masking *)

Lemma truth_cast_float (b : bool) : TF.truth (TF.cast_float b) = b.
Proof.
  unfold TF.truth, TF.cast_float.
  destruct b; destruct (Req_dec_T _ 0); try reflexivity; lra.
Qed.

Lemma truth_cast_mask (mask : Tensor2 bool) :
  map (map TF.truth) (map (map TF.cast_float) mask) = mask.
Proof.
  induction mask as [|r mask IH]; simpl; [reflexivity|].
  rewrite IH; f_equal.
  induction r as [|b r IHr]; simpl; [reflexivity|].
  rewrite truth_cast_float, IHr; reflexivity.
Qed.

Lemma flat_map_ext_in {A B : Type} (f g : A -> list B) (l : list A) :
  (forall a, In a l -> f a = g a) -> flat_map f l = flat_map g l.
Proof.
  induction l as [|a l IH]; intros H; simpl; [reflexivity|].
  rewrite (H a (or_introl eq_refl)), IH; [reflexivity|].
  intros b Hb; apply H; right; exact Hb.
Qed.

Lemma mask_row_seq {A : Type} (d : A) (f : nat -> bool) (row : list A) (s : nat) :
  TF.mask_row row (map f (seq s (length row)))
  = map (fun j => nth (j - s) row d) (filter f (seq s (length row))).
Proof.
  revert s; induction row as [|x row IH]; intros s; simpl; [reflexivity|].
  rewrite (IH (S s)).
  assert (E : map (fun j => nth (j - S s) row d) (filter f (seq (S s) (length row)))
              = map (fun j => nth (j - s) (x :: row) d)
                    (filter f (seq (S s) (length row)))).
  { apply map_ext_in; intros j Hj.
    apply filter_In in Hj; destruct Hj as [Hj _].
    apply in_seq in Hj.
    replace (j - s)%nat with (S (j - S s)) by lia; reflexivity. }
  rewrite E.
  destruct (f s); simpl; [rewrite Nat.sub_diag|]; reflexivity.
Qed.

Lemma mask_row_sequence_mask {A : Type} (d : A) (row : list A) (n : Z) :
  TF.mask_row row (TF.sequence_mask_row (length row) n)
  = map (fun j => nth j row d)
        (filter (fun j => (Z.of_nat j <? n)%Z) (seq 0 (length row))).
Proof.
  unfold TF.sequence_mask_row.
  rewrite (mask_row_seq d).
  apply map_ext; intros j; rewrite Nat.sub_0_r; reflexivity.
Qed.

Lemma filter_map_comm {A B : Type} (p : B -> bool) (f : A -> B) (l : list A) :
  filter p (map f l) = map f (filter (fun a => p (f a)) l).
Proof.
  induction l as [|a l IH]; simpl; [reflexivity|].
  destruct (p (f a)); simpl; rewrite IH; reflexivity.
Qed.

Lemma valid_positions_rows (lens : list Z) (b m : nat) :
  valid_positions lens b m
  = flat_map (fun i => map (pair i) (filter (valid lens i) (seq 0 m))) (seq 0 b).
Proof.
  unfold valid_positions.
  induction (seq 0 b) as [|i l IH]; simpl; [reflexivity|].
  rewrite filter_app, IH, filter_map_comm; reflexivity.
Qed.

Lemma boolean_mask_shift {A : Type} (d : A) (m : nat) (t : Tensor2 A)
  (lens : list Z) (s : nat) :
  Forall (fun r => length r = m) t ->
  length lens = length t ->
  TF.boolean_mask t (TF.sequence_mask lens m)
  = flat_map (fun i => map (fun j => nth j (nth (i - s) t []) d)
                           (filter (fun j => (Z.of_nat j <? nth (i - s) lens 0%Z)%Z)
                                   (seq 0 m)))
             (seq s (length t)).
Proof.
  intros Hm; revert lens s.
  induction Hm as [|r t Hr Hm IH]; intros lens s Hl.
  - destruct lens; reflexivity.
  - destruct lens as [|n lens]; [discriminate|].
    simpl in Hl; injection Hl as Hl.
    simpl. rewrite Nat.sub_diag. simpl.
    rewrite <- Hr at 1. rewrite (mask_row_sequence_mask d), Hr.
    f_equal.
    rewrite (IH lens (S s) Hl).
    apply flat_map_ext_in; intros i Hi.
    apply in_seq in Hi.
    replace (i - s)%nat with (S (i - S s)) by lia; reflexivity.
Qed.

(** The entries that [tf.boolean_mask] keeps under a [tf.sequence_mask]
    are those at the valid positions, in the same order. *)
Lemma boolean_mask_valid {A : Type} (d : A) (b m : nat) (t : Tensor2 A)
  (lens : list Z) :
  has_shape b m t ->
  length lens = b ->
  TF.boolean_mask t (TF.sequence_mask lens m)
  = map (at2 d t) (valid_positions lens b m).
Proof.
  intros [Hb Hm] Hl.
  rewrite (boolean_mask_shift d m t lens 0 Hm) by congruence.
  rewrite valid_positions_rows, Hb.
  induction (seq 0 b) as [|i l IH]; simpl; [reflexivity|].
  rewrite map_app, IH, map_map, Nat.sub_0_r; reflexivity.
Qed.

Lemma map2_length {A B C : Type} (f : A -> B -> C) (l : list A) (l' : list B) :
  length (TF.map2 f l l') = Nat.min (length l) (length l').
Proof.
  revert l'; induction l as [|a l IH]; intros [|b l']; simpl; auto.
Qed.

Lemma map2_nth {A B C : Type} (f : A -> B -> C) (da : A) (db : B) (dc : C)
  (l : list A) (l' : list B) (i : nat) :
  (i < length l)%nat -> (i < length l')%nat ->
  nth i (TF.map2 f l l') dc = f (nth i l da) (nth i l' db).
Proof.
  revert l l'; induction i as [|i IH]; intros [|a l] [|b l'] Hl Hl';
    simpl in *; try lia; [reflexivity|].
  apply IH; lia.
Qed.

Lemma has_shape_nth {A : Type} (b m : nat) (t : Tensor2 A) (i : nat) :
  has_shape b m t -> (i < b)%nat -> length (nth i t []) = m.
Proof.
  intros [Hb Hm] Hi.
  rewrite Forall_forall in Hm; apply Hm, nth_In; lia.
Qed.

Lemma has_shape_map2 {A B C : Type} (f : A -> B -> C) (b m : nat)
  (t : Tensor2 A) (t' : Tensor2 B) :
  has_shape b m t -> has_shape b m t' ->
  has_shape b m (TF.map2 (TF.map2 f) t t').
Proof.
  intros [Hb Hm] [Hb' Hm']; split.
  - rewrite map2_length; lia.
  - clear Hb Hb'; revert t' Hm'.
    induction Hm as [|r t Hr Hm IH]; intros t' Hm'; [constructor|].
    destruct Hm' as [|r' t' Hr' Hm']; constructor.
    + rewrite map2_length; lia.
    + apply IH, Hm'.
Qed.

Lemma at2_map2 {A B C : Type} (f : A -> B -> C) (da : A) (db : B) (dc : C)
  (b m : nat) (t : Tensor2 A) (t' : Tensor2 B) (i j : nat) :
  has_shape b m t -> has_shape b m t' -> (i < b)%nat -> (j < m)%nat ->
  at2 dc (TF.map2 (TF.map2 f) t t') (i, j)
  = f (at2 da t (i, j)) (at2 db t' (i, j)).
Proof.
  intros Ht Ht' Hi Hj; unfold at2; simpl.
  rewrite (map2_nth (TF.map2 f) [] [] []) by (destruct Ht, Ht'; lia).
  apply map2_nth.
  - rewrite (has_shape_nth b m t i Ht Hi); exact Hj.
  - rewrite (has_shape_nth b m t' i Ht' Hi); exact Hj.
Qed.

Lemma map_map_nth {A B : Type} (f : A -> B) (da : A) (db : B) (b m : nat)
  (t : Tensor2 A) (i j : nat) :
  has_shape b m t -> (i < b)%nat -> (j < m)%nat ->
  at2 db (map (map f) t) (i, j) = f (at2 da t (i, j)).
Proof.
  intros Ht Hi Hj; unfold at2; simpl.
  assert (Hr : length (nth i t []) = m) by (apply (has_shape_nth b m); auto).
  change (@nil B) with (map f []).
  rewrite map_nth.
  rewrite (nth_indep _ db (f da)) by (rewrite length_map; lia).
  apply map_nth.
Qed.

Lemma has_shape_map_map {A B : Type} (f : A -> B) (b m : nat)
  (t : Tensor2 A) :
  has_shape b m t -> has_shape b m (map (map f) t).
Proof.
  intros [Hb Hm]; split; [rewrite length_map; exact Hb|].
  rewrite Forall_map; eapply Forall_impl; [|exact Hm].
  simpl; intros r Hr; rewrite length_map; exact Hr.
Qed.

Lemma valid_positions_In (lens : list Z) (b m i j : nat) :
  In (i, j) (valid_positions lens b m)
  <-> (i < b)%nat /\ (j < m)%nat /\ valid lens i j = true.
Proof.
  unfold valid_positions.
  rewrite filter_In, in_prod_iff, !in_seq; simpl; intuition lia.
Qed.

Lemma shape1_has_shape {A : Type} (b m : nat) (t : Tensor2 A) :
  has_shape b m t ->
  forall lens, length lens = b ->
  TF.sequence_mask lens (TF.shape1 t) = TF.sequence_mask lens m.
Proof.
  intros [Hb Hm] lens Hl.
  destruct t as [|r t]; simpl in *.
  - subst b; destruct lens; [reflexivity|discriminate].
  - inversion Hm; subst; reflexivity.
Qed.

(** The masked cross-entropies of [HModel.compute_loss] are the
    cross-entropies of the valid positions. *)
Lemma crossent_masked_valid (logits : Tensor3 R) (target_output : Tensor2 Z)
  (lens : list Z) (b m : nat) :
  has_shape b m target_output -> has_shape b m logits -> length lens = b ->
  TF.boolean_mask
    (crossents target_output logits)
    (TF.sequence_mask lens m)
  = map (crossent_at logits target_output) (valid_positions lens b m).
Proof.
  intros Ht Hl Hlen.
  unfold crossents.
  rewrite (boolean_mask_valid 0 b m) by (auto using has_shape_map2).
  apply map_ext_in; intros [i j] Hp.
  apply valid_positions_In in Hp; destruct Hp as (Hi & Hj & _).
  apply (at2_map2 crossent 0%Z [] 0 b m); assumption.
Qed.

Lemma mapM_if {A B : Type} (f : A -> result B) (p : A -> bool) (g : A -> B)
  (e : Error) (l : list A) :
  (forall a, f a = if p a then Ok (g a) else Raise e) ->
  mapM f l = if forallb p l then Ok (map g l) else Raise e.
Proof.
  intros H; induction l as [|a l IH]; [reflexivity|].
  simpl; rewrite H.
  destruct (p a); simpl; [|reflexivity].
  rewrite IH; destruct (forallb p l); reflexivity.
Qed.

Lemma map_combine_map2 {A B C : Type} (f : A -> B -> C) (l : list A)
  (l' : list B) :
  map (fun q => f (fst q) (snd q)) (combine l l') = TF.map2 f l l'.
Proof.
  revert l'; induction l as [|a l IH]; intros [|b l']; simpl;
    try reflexivity.
  rewrite IH; reflexivity.
Qed.

Lemma gather_entry (row : list R) (label : Z) :
  TF.gather row label
  = if is_class row label then Ok (entry row label)
    else Raise InvalidArgumentError.
Proof.
  unfold TF.gather, is_class, entry.
  destruct (Z.leb_spec 0 label); simpl; [|reflexivity].
  destruct (Z.ltb_spec label 0); [lia|reflexivity].
Qed.

Lemma crossent_row_spec (label : Z) (row : list R) :
  TF.crossent_row label row
  = if is_class row label then Ok (crossent label row)
    else Raise InvalidArgumentError.
Proof.
  unfold TF.crossent_row; rewrite gather_entry.
  destruct (is_class row label); reflexivity.
Qed.

(** The cross-entropy kernel returns the cross-entropy of every position
    when every label of the grid is a class, and raises otherwise. *)
Lemma sparse_softmax_cross_entropy_spec (labels : Tensor2 Z)
  (logits : Tensor3 R) :
  TF.sparse_softmax_cross_entropy_with_logits labels logits
  = if labels_in_range labels logits then Ok (crossents labels logits)
    else Raise InvalidArgumentError.
Proof.
  unfold TF.sparse_softmax_cross_entropy_with_logits, labels_in_range,
    crossents.
  rewrite <- (map_combine_map2 (TF.map2 crossent)).
  apply mapM_if; intros [ls rows]; cbn [fst snd].
  rewrite <- (map_combine_map2 crossent).
  apply mapM_if; intros [l r]; cbn [fst snd].
  apply crossent_row_spec.
Qed.

(** ** C1: the independent-softmax loss is a mean over the valid positions *)

Lemma compute_loss_reduce_mean {Tok : Type} (self : Self Tok)
  (logits : Tensor3 R) (b m : nat) :
  has_shape b m (target (iterator self)) ->
  has_shape b m logits ->
  length (input_sess_length (iterator self)) = b ->
  HModel.compute_loss self logits
  = if labels_in_range (target (iterator self)) logits
    then Ok (TF.reduce_mean
               (map (crossent_at logits (target (iterator self)))
                    (valid_positions (input_sess_length (iterator self))
                                     b m)))
    else Raise InvalidArgumentError.
Proof.
  intros Ht Hl Hlen.
  unfold HModel.compute_loss.
  rewrite sparse_softmax_cross_entropy_spec.
  destruct (labels_in_range _ _); [|reflexivity].
  cbn [bind].
  rewrite truth_cast_mask, (shape1_has_shape b m) by assumption.
  rewrite (crossent_masked_valid logits _ _ b m) by assumption.
  reflexivity.
Qed.

Lemma reduce_mean_nonempty {A : Type} (f : A -> R) (ps : list A) :
  ps <> [] ->
  TF.reduce_mean (map f ps) = Val (TF.reduce_sum (map f ps) / INR (length ps)).
Proof.
  destruct ps as [|p ps]; [contradiction|]; intros _.
  simpl; rewrite length_map; reflexivity.
Qed.

(** C1. On a batch of [b] sessions padded to [m] positions whose labels
    are all classes, the loss of [HModel.compute_loss] is the arithmetic
    mean of the per-position cross-entropies taken over exactly the valid
    positions (those with [j < session_lengths[i]]): the sum over them
    divided by their number, not by the size [b * m] of the padded grid.
    When some label of the grid, in the padding or not, is no class, the
    loss raises. *)
Theorem compute_loss_mean_over_valid {Tok : Type} (self : Self Tok)
  (logits : Tensor3 R) (b m : nat) :
  has_shape b m (target (iterator self)) ->
  has_shape b m logits ->
  length (input_sess_length (iterator self)) = b ->
  let ps := valid_positions (input_sess_length (iterator self)) b m in
  let xs := map (crossent_at logits (target (iterator self))) ps in
  (labels_in_range (target (iterator self)) logits = true ->
   HModel.compute_loss self logits = Ok (TF.reduce_mean xs)
   /\ (ps <> [] ->
       HModel.compute_loss self logits
       = Ok (Val (TF.reduce_sum xs / INR (length ps)))))
  /\ (labels_in_range (target (iterator self)) logits = false ->
      HModel.compute_loss self logits = Raise InvalidArgumentError).
Proof.
  intros Ht Hl Hlen ps xs.
  rewrite (compute_loss_reduce_mean self logits b m Ht Hl Hlen).
  fold ps; fold xs.
  split; intros ->; [|reflexivity].
  split; [reflexivity|].
  intros Hne; unfold xs; rewrite reduce_mean_nonempty by exact Hne.
  reflexivity.
Qed.

Ltac tlia := unfold Tensor3, Tensor2 in *; lia.

Ltac shape_tac :=
  repeat match goal with
         | |- has_shape3 _ _ _ _ => split
         | |- has_shape _ _ _ => split
         | |- Forall _ _ => constructor
         | |- _ /\ _ => split
         | |- _ => reflexivity
         end.

Lemma compute_loss_mean_over_valid_scenario_A :
  let self := scenario_A H_RNN_FFN TRAIN in
  let x := crossent_at scenario_A_logits (target (iterator self)) in
  (has_shape 2 3 (target (iterator self))
   /\ has_shape 2 3 scenario_A_logits
   /\ length (input_sess_length (iterator self)) = 2%nat
   /\ labels_in_range (target (iterator self)) scenario_A_logits = true)
  /\ HModel.compute_loss self scenario_A_logits
     = Ok (Val ((x (0, 0)%nat + x (0, 1)%nat + x (1, 0)%nat + x (1, 1)%nat
                 + x (1, 2)%nat) / 5)).
Proof.
  intros self x.
  assert (H : has_shape 2 3 (target (iterator self))
              /\ has_shape 2 3 scenario_A_logits
              /\ length (input_sess_length (iterator self)) = 2%nat
              /\ labels_in_range (target (iterator self)) scenario_A_logits
                 = true)
    by shape_tac.
  split; [exact H|].
  destruct H as (Ht & Hl & Hn & Hr).
  destruct (compute_loss_mean_over_valid self scenario_A_logits 2 3 Ht Hl Hn)
    as [E _].
  destruct (E Hr) as [_ E'].
  rewrite E' by discriminate.
  change (valid_positions (input_sess_length (iterator self)) 2 3)
    with [(0, 0); (0, 1); (1, 0); (1, 1); (1, 2)]%nat.
  fold x.
  cbv [map TF.reduce_sum fold_right length].
  do 2 f_equal.
  replace (INR 5) with 5 by (simpl; lra).
  lra.
Defined.

(** ** C10: accuracy is the fraction of correct valid positions *)

Lemma map_map_map2 {A B C D : Type} (g : C -> D) (f : A -> B -> C)
  (t : Tensor2 A) (t' : Tensor2 B) :
  map (map g) (TF.map2 (TF.map2 f) t t')
  = TF.map2 (TF.map2 (fun a b => g (f a b))) t t'.
Proof.
  revert t'; induction t as [|r t IH]; intros [|r' t']; simpl; try reflexivity.
  rewrite IH; f_equal.
  revert r'; induction r as [|a r IHr]; intros [|a' r']; simpl; try reflexivity.
  rewrite IHr; reflexivity.
Qed.

Lemma reduce_sum_indicator {A : Type} (f : A -> bool) (l : list A) :
  TF.reduce_sum (map (fun a => TF.cast_float (f a)) l)
  = INR (length (filter f l)).
Proof.
  induction l as [|a l IH]; simpl; [reflexivity|].
  rewrite IH; destruct (f a); simpl length; [rewrite S_INR|];
    unfold TF.cast_float; lra.
Qed.

Lemma reduce_mean_indicator {A : Type} (f : A -> bool) (l : list A) :
  TF.reduce_mean (map (fun a => TF.cast_float (f a)) l)
  = fraction (length (filter f l)) (length l).
Proof.
  destruct l as [|a l]; [reflexivity|].
  unfold TF.reduce_mean, fraction.
  rewrite reduce_sum_indicator, length_map; reflexivity.
Qed.

Lemma compute_accuracy_fraction {Tok : Type} (self : Self Tok)
  (labels : Tensor2 Z) (b m : nat) :
  has_shape b m (target (iterator self)) ->
  has_shape b m labels ->
  length (input_sess_length (iterator self)) = b ->
  let ps := valid_positions (input_sess_length (iterator self)) b m in
  HModel.compute_accuracy self labels
  = fraction (length (filter (correct_at labels (target (iterator self))) ps))
             (length ps).
Proof.
  intros Ht Hl Hlen ps.
  unfold HModel.compute_accuracy, TF.equal.
  rewrite (shape1_has_shape b m) by assumption.
  rewrite map_map_map2.
  rewrite (boolean_mask_valid 0 b m) by (auto using has_shape_map2).
  fold ps.
  rewrite <- reduce_mean_indicator; f_equal.
  apply map_ext_in; intros [i j] Hp.
  apply valid_positions_In in Hp; destruct Hp as (Hi & Hj & _).
  apply (at2_map2 (fun a b => TF.cast_float (a =? b)%Z) 0%Z 0%Z 0 b m);
    assumption.
Qed.

(** C10. [compute_accuracy] returns the number of valid positions whose
    predicted label equals the target, divided by the number of valid
    positions (valid: [j < session_lengths[i]]); and it takes the same
    value on any other predictions and targets that agree with these at
    the valid positions, whatever they hold in the padding. *)
Theorem compute_accuracy_valid_fraction {Tok : Type} (self : Self Tok)
  (labels : Tensor2 Z) (b m : nat) :
  has_shape b m (target (iterator self)) ->
  has_shape b m labels ->
  length (input_sess_length (iterator self)) = b ->
  let lens := input_sess_length (iterator self) in
  let ps := valid_positions lens b m in
  HModel.compute_accuracy self labels
  = fraction (length (filter (correct_at labels (target (iterator self))) ps))
             (length ps)
  /\ forall (self' : Self Tok) (labels' : Tensor2 Z),
      input_sess_length (iterator self') = lens ->
      has_shape b m (target (iterator self')) ->
      has_shape b m labels' ->
      agree_on_valid 0%Z lens b m labels labels' ->
      agree_on_valid 0%Z lens b m
                     (target (iterator self)) (target (iterator self')) ->
      HModel.compute_accuracy self' labels'
      = HModel.compute_accuracy self labels.
Proof.
  intros Ht Hl Hlen lens ps.
  split; [apply compute_accuracy_fraction; assumption|].
  intros self' labels' Hlens Ht' Hl' Al At.
  rewrite (compute_accuracy_fraction self labels b m) by assumption.
  rewrite (compute_accuracy_fraction self' labels' b m)
    by (try assumption; rewrite Hlens; exact Hlen).
  rewrite Hlens; fold lens; fold ps.
  f_equal; f_equal.
  apply filter_ext_in; intros [i j] Hp.
  apply valid_positions_In in Hp; destruct Hp as (Hi & Hj & Hv).
  unfold correct_at.
  rewrite (Al i j Hi Hj Hv), (At i j Hi Hj Hv); reflexivity.
Qed.

Ltac agree_tac :=
  let i := fresh "i" in
  let j := fresh "j" in
  intros i j ? ? ?;
  destruct i as [|[|i]]; try lia;
  destruct j as [|[|[|j]]]; try lia;
  (reflexivity || discriminate).

Lemma compute_accuracy_valid_fraction_scenario_A :
  let self := scenario_A H_RNN_FFN EVAL in
  let self' := scenario_A' H_RNN_FFN EVAL in
  HModel.compute_accuracy self scenario_A_labels = fraction 4 5
  /\ HModel.compute_accuracy self' scenario_A_labels'
     = HModel.compute_accuracy self scenario_A_labels.
Proof.
  intros self self'.
  assert (Ht : has_shape 2 3 (target (iterator self))) by shape_tac.
  assert (Hl : has_shape 2 3 scenario_A_labels) by shape_tac.
  assert (Hn : length (input_sess_length (iterator self)) = 2%nat)
    by reflexivity.
  destruct (compute_accuracy_valid_fraction self scenario_A_labels 2 3 Ht Hl Hn)
    as [E I].
  split.
  - rewrite E; reflexivity.
  - apply I.
    + reflexivity.
    + shape_tac.
    + shape_tac.
    + agree_tac.
    + agree_tac.
Defined.

(** ** Sums of exponentials; the arg-max reads comparisons only *)

Lemma reduce_sum_exp_nonneg (l : list R) : 0 <= TF.reduce_sum (map exp l).
Proof.
  induction l as [|x l IH]; simpl; [lra|].
  pose proof (exp_pos x); lra.
Qed.

Lemma same_order_tail (x y x' y' : R) (l l' : list R) :
  same_order (x :: y :: l) (x' :: y' :: l') ->
  same_order (y :: l) (y' :: l') /\ same_order (x :: l) (x' :: l').
Proof.
  intros [Hlen H]; simpl in Hlen; split; split; simpl; try lia.
  - intros a b Ha Hb; apply (H (S a) (S b)); simpl; lia.
  - intros a b Ha Hb.
    destruct a as [|a], b as [|b].
    + apply (H 0%nat 0%nat); simpl; lia.
    + apply (H 0%nat (S (S b))); simpl in *; lia.
    + apply (H (S (S a)) 0%nat); simpl in *; lia.
    + apply (H (S (S a)) (S (S b))); simpl in *; lia.
Qed.

Lemma argmax_from_same_order (l l' : list R) :
  forall bv bv' best i,
    same_order (bv :: l) (bv' :: l') ->
    TF.argmax_from best bv i l = TF.argmax_from best bv' i l'.
Proof.
  revert l'; induction l as [|x l IH]; intros [|x' l'] bv bv' best i Hso;
    try (destruct Hso as [Hlen _]; simpl in Hlen; lia); [reflexivity|].
  destruct (same_order_tail _ _ _ _ _ _ Hso) as [Hx Hbv].
  destruct Hso as [_ H].
  specialize (H 0%nat 1%nat); simpl in H.
  assert (Hc : bv < x <-> bv' < x') by (apply H; lia).
  simpl.
  destruct (Rlt_dec bv x) as [C|C], (Rlt_dec bv' x') as [C'|C'];
    try tauto; apply IH; assumption.
Qed.

Lemma argmax_same_order (r r' : list R) :
  same_order r r' -> TF.argmax r = TF.argmax r'.
Proof.
  destruct r as [|x r], r' as [|x' r']; intros Hso;
    try (destruct Hso as [Hlen _]; simpl in Hlen; lia); try reflexivity.
  apply argmax_from_same_order, Hso.
Qed.

(** ** C7: the chain-structured variant yields no probabilities *)

(** C7. For an object of class [H_RNN_RNN_CRF], [compute_probabilities]
    is a no-op whatever the logits: what it returns is never a tensor of
    class distributions. *)
Theorem crf_compute_probabilities_no_op {Tok : Type} (self : Self Tok)
  (logits : Tensor3 R) :
  H_RNN_RNN_CRF.compute_probabilities logits = NoOp
  /\ (cls self = H_RNN_RNN_CRF ->
      compute_probabilities self logits = NoOp
      /\ forall p, compute_probabilities self logits <> Probabilities p).
Proof.
  split; [reflexivity|].
  intros Hc; unfold compute_probabilities; rewrite Hc.
  split; [reflexivity|discriminate].
Qed.

Lemma crf_compute_probabilities_no_op_scenario_A :
  compute_probabilities (scenario_A H_RNN_RNN_CRF INFER) scenario_A_logits
  = NoOp.
Proof.
  exact (proj1 (proj2 (crf_compute_probabilities_no_op
                         (scenario_A H_RNN_RNN_CRF INFER) scenario_A_logits)
                      eq_refl)).
Defined.

(** ** C5: the vocabulary check of [check_hparams] *)

Lemma check_hparams_raises_iff (hparams : HParams) :
  check_hparams hparams = Raise ValueError
  <-> vocab_path hparams = None
      /\ (model_architecture hparams = "h-rnn-rnn"%string
          \/ model_architecture hparams = "h-cnn-rnn"%string).
Proof.
  unfold check_hparams.
  destruct (String.eqb_spec (model_architecture hparams) "h-rnn-rnn") as [E|E],
           (String.eqb_spec (model_architecture hparams) "h-cnn-rnn") as [E'|E'],
           (vocab_path hparams) as [v|]; simpl;
    split; intros H; try discriminate; try tauto;
    destruct H as [H _]; discriminate.
Qed.

(** C5. With no vocabulary, [check_hparams] raises for the architecture
    name "h-rnn-rnn", but it returns normally for "h-rnn-cnn", the name
    under which the command line selects the CNN utterance encoder: the
    name it compares with is "h-cnn-rnn". *)
Theorem check_hparams_misses_h_rnn_cnn (connect : bool) :
  check_hparams {| model_architecture := "h-rnn-rnn"; vocab_path := None;
                   connect_inp_to_out := connect |} = Raise ValueError
  /\ check_hparams {| model_architecture := "h-rnn-cnn"; vocab_path := None;
                      connect_inp_to_out := connect |} = Ok tt
  /\ check_hparams {| model_architecture := "h-cnn-rnn"; vocab_path := None;
                      connect_inp_to_out := connect |} = Raise ValueError.
Proof.
  repeat split.
Qed.

(** ** C8: the reshapes of [build_network] keep the row-major order *)

Section Uniform.

Context {A : Type} (d : nat).

Let uniform (t : list (list A)) : Prop := Forall (fun r => length r = d) t.

Lemma length_concat_uniform (t : list (list A)) :
  uniform t -> length (concat t) = (length t * d)%nat.
Proof.
  induction 1 as [|r t Hr Ht IH]; simpl; [reflexivity|].
  rewrite length_app, IH, Hr; reflexivity.
Qed.

Lemma skipn_concat_uniform (t : list (list A)) (k : nat) :
  uniform t -> skipn (k * d) (concat t) = concat (skipn k t).
Proof.
  intros Ht; revert k; induction Ht as [|r t Hr Ht IH]; intros k.
  - simpl; rewrite !skipn_nil; reflexivity.
  - destruct k as [|k]; [reflexivity|].
    simpl concat; rewrite skipn_app, Hr.
    replace (S k * d - d)%nat with (k * d)%nat by lia.
    rewrite skipn_all2 by lia.
    simpl; apply IH.
Qed.

Lemma firstn_concat_uniform (t : list (list A)) (k : nat) :
  uniform t -> firstn (k * d) (concat t) = concat (firstn k t).
Proof.
  intros Ht; revert k; induction Ht as [|r t Hr Ht IH]; intros k.
  - simpl; rewrite !firstn_nil; reflexivity.
  - destruct k as [|k]; [reflexivity|].
    simpl concat; rewrite firstn_app, Hr.
    replace (S k * d - d)%nat with (k * d)%nat by lia.
    rewrite firstn_all2 by lia.
    simpl; rewrite IH; reflexivity.
Qed.

Lemma rows_concat_uniform (t : list (list A)) :
  uniform t -> Reshape.rows d (concat t) (length t) = t.
Proof.
  unfold Reshape.rows.
  induction 1 as [|r t Hr Ht IH]; [reflexivity|].
  simpl length; simpl seq; simpl map.
  rewrite firstn_app, Hr, Nat.sub_diag, firstn_O, app_nil_r.
  rewrite firstn_all2 by lia; f_equal.
  rewrite <- seq_shift, map_map.
  rewrite <- IH at 2.
  apply map_ext; intros i.
  simpl concat.
  rewrite skipn_app, Hr.
  replace (S i * d - d)%nat with (i * d)%nat by lia.
  rewrite skipn_all2 by lia; reflexivity.
Qed.

Lemma uniform_firstn_skipn (t : list (list A)) (k n : nat) :
  uniform t -> uniform (firstn n (skipn k t)).
Proof.
  unfold uniform; intros H.
  rewrite <- (firstn_skipn k t) in H.
  apply Forall_app in H; destruct H as [_ H].
  rewrite <- (firstn_skipn n (skipn k t)) in H.
  apply Forall_app in H; destruct H as [H _]; exact H.
Qed.

End Uniform.

Lemma uniform_concat {A : Type} (b m d : nat) (x : Tensor3 A) :
  has_shape3 b m d x ->
  Forall (fun r => length r = d) (concat x) /\ length (concat x) = (b * m)%nat.
Proof.
  intros [[Hb Hm] Hd]; split.
  - clear Hb Hm; induction Hd as [|s x Hs Hd IH]; simpl; [constructor|].
    apply Forall_app; split; assumption.
  - rewrite (length_concat_uniform m) by assumption.
    rewrite Hb; reflexivity.
Qed.

Lemma nth_rows {A : Type} (d r i : nat) (flat : list A) :
  (i < r)%nat ->
  nth i (Reshape.rows d flat r) [] = firstn d (skipn (i * d) flat).
Proof.
  intros Hi; unfold Reshape.rows.
  set (f := fun i => firstn d (skipn (i * d) flat)).
  rewrite (nth_indep _ [] (f 0%nat))
    by (rewrite length_map, length_seq; exact Hi).
  rewrite map_nth, seq_nth by exact Hi; reflexivity.
Qed.

Lemma nth_rows_entry {A : Type} (dflt : A) (m r i j : nat) (l : list A) :
  (i < r)%nat -> (j < m)%nat ->
  nth j (nth i (Reshape.rows m l r) []) dflt = nth (i * m + j) l dflt.
Proof.
  intros Hi Hj.
  rewrite nth_rows by exact Hi.
  rewrite nth_firstn.
  destruct (Nat.ltb_spec j m); [|lia].
  apply nth_skipn.
Qed.

(** Cutting [b] groups of [m] rows of width [d] out of the concatenation
    of [b * m] such rows groups the rows themselves. *)
Lemma reshape3_concat {A : Type} (b m d : nat) (embs : Tensor2 A) :
  has_shape (b * m) d embs ->
  Reshape.reshape3 b m d (concat embs) = Ok (Reshape.rows m embs b).
Proof.
  intros [Hlen Hd].
  unfold Reshape.reshape3.
  rewrite (length_concat_uniform d) by exact Hd.
  rewrite Hlen, Nat.eqb_refl; f_equal.
  unfold Reshape.rows at 2.
  apply map_ext_in; intros i Hi; apply in_seq in Hi.
  replace (i * (m * d))%nat with (i * m * d)%nat by lia.
  rewrite (skipn_concat_uniform d) by exact Hd.
  assert (Hs : Forall (fun r => length r = d) (skipn (i * m) embs)).
  { rewrite <- (firstn_all (skipn (i * m) embs)).
    apply uniform_firstn_skipn; exact Hd. }
  rewrite (firstn_concat_uniform d) by exact Hs.
  assert (Hl : length (firstn m (skipn (i * m) embs)) = m).
  { rewrite length_firstn, length_skipn, Hlen. nia. }
  rewrite <- Hl at 3.
  apply rows_concat_uniform, uniform_firstn_skipn, Hd.
Qed.

Lemma reshape2_flatten {A : Type} (b m d : nat) (x : Tensor3 A) :
  has_shape3 b m d x -> (0 < d)%nat ->
  Reshape.reshape2 d (Reshape.flatten3 x) = Ok (concat x).
Proof.
  intros Hx Hd.
  destruct (uniform_concat b m d x Hx) as [Hu Hl].
  unfold Reshape.reshape2, Reshape.flatten3.
  rewrite (length_concat_uniform d) by exact Hu.
  rewrite Nat.Div0.mod_mul, Nat.div_mul by lia.
  destruct (Nat.eqb_spec d 0); [lia|]; simpl.
  rewrite rows_concat_uniform by exact Hu; reflexivity.
Qed.

Lemma nth_concat_row_major {A : Type} (b m : nat) (x : Tensor2 (list A))
  (i j : nat) :
  has_shape b m x -> (i < b)%nat -> (j < m)%nat ->
  nth (i * m + j) (concat x) [] = at2 [] x (i, j).
Proof.
  intros [Hb Hm] Hi Hj; unfold at2; simpl.
  rewrite <- (rows_concat_uniform m x Hm) at 2.
  rewrite Hb, nth_rows_entry by assumption; reflexivity.
Qed.

Lemma has_shape_rows {A : Type} (b m : nat) (l : list A) :
  length l = (b * m)%nat -> has_shape b m (Reshape.rows m l b).
Proof.
  intros Hl; split.
  - unfold Reshape.rows; rewrite length_map, length_seq; reflexivity.
  - apply Forall_forall; intros r Hr.
    unfold Reshape.rows in Hr; apply in_map_iff in Hr.
    destruct Hr as (i & <- & Hi); apply in_seq in Hi.
    rewrite length_firstn, length_skipn, Hl; nia.
Qed.

Lemma shapes_nonempty {A : Type} (b m d : nat) (x : Tensor3 A) :
  has_shape3 b m d x -> (0 < b)%nat -> (0 < m)%nat ->
  TF.shape1 x = m /\ Reshape.last_dim3 x = d.
Proof.
  intros [[Hb Hm] Hd] Pb Pm.
  destruct x as [|s x]; [simpl in Hb; lia|].
  inversion Hm as [|? ? Hs _]; inversion Hd as [|? ? Hds _]; subst.
  split; [reflexivity|].
  destruct s as [|r s]; [simpl in Pm; lia|].
  inversion Hds; subst; reflexivity.
Qed.

(** What [build_network] computes once both reshapes succeed. *)
Lemma build_network_reshaped {Tok : Type} (layers : Layers Tok)
  (hparams : HParams) (self : Self Tok) (b m d e : nat) :
  let it := iterator self in
  let embs :=
    utterance_encoder layers (cls self) hparams (input it)
                      (input_uttr_length it) (concat (input it)) in
  let utter := Reshape.rows m embs b in
  let sess := session_encoder layers hparams (input_sess_length it) utter in
  let logits :=
    output_layer layers hparams
      (if connect_inp_to_out hparams
       then Reshape.concat_last utter sess else sess) in
  has_shape3 b m d (input it) ->
  (0 < b)%nat -> (0 < m)%nat -> (0 < d)%nat ->
  batch_size self = b ->
  has_shape (b * m) e embs ->
  Reshape.reshape3 (batch_size self) (TF.shape1 (input it)) (TF.shape1 embs)
                   (concat embs) = Ok utter
  /\ build_network layers hparams self
     = if ModeKeys_eqb (mode self) INFER then Ok ((logits, None), self)
       else r <- compute_loss self logits ;;
            Ok ((logits, Some (fst r)), snd r).
Proof.
  intros it embs utter sess logits Hx Pb Pm Pd Hbs He.
  destruct (shapes_nonempty b m d (input it) Hx Pb Pm) as [E1 E2].
  assert (Ee : TF.shape1 embs = e).
  { destruct He as [Hlen Hf].
    destruct embs as [|r embs']; [simpl in Hlen; nia|].
    inversion Hf; subst; reflexivity. }
  assert (E3 : Reshape.reshape3 (batch_size self) (TF.shape1 (input it))
                 (TF.shape1 embs) (concat embs) = Ok utter)
    by (rewrite E1, Ee, Hbs; apply reshape3_concat, He).
  split; [exact E3|].
  unfold build_network; fold it.
  rewrite E2, (reshape2_flatten b m d (input it) Hx Pd); cbn [bind].
  fold embs; rewrite E3; cbn [bind].
  reflexivity.
Qed.

Lemma rows_map_concat {A B : Type} (f : A -> B) (b m : nat) (x : Tensor2 A) :
  has_shape b m x ->
  Reshape.rows m (map f (concat x)) b = map (map f) x.
Proof.
  intros [Hb Hm].
  rewrite concat_map, <- Hb, <- (length_map (map f) x).
  apply rows_concat_uniform.
  rewrite Forall_map; revert Hm; apply Forall_impl.
  intros r Hr; rewrite length_map; exact Hr.
Qed.

(** C8. On a batch of shape [b, m, d] with [batch_size = b],
    [build_network] hands the utterance encoder the flattened batch, in
    which the utterance at position [j] of session [i] is row
    [i * m + j]. When the encoder returns [b * m] rows, [build_network]
    reshapes them to the [b, m, e] tensor whose entry (i, j) is row
    [i * m + j] of the encoder output, and computes the logits from what
    the session encoder makes of that tensor. So an encoder that embeds
    the utterances one by one has the embedding of utterance (i, j) put
    at position (i, j); and reshaping the flattened batch back to
    [b, m, d] restores it. *)
Theorem reshape_row_major_round_trip {Tok : Type} (layers : Layers Tok)
  (hparams : HParams) (self : Self Tok) (b m d e : nat) :
  let it := iterator self in
  let x := input it in
  let embs :=
    utterance_encoder layers (cls self) hparams x (input_uttr_length it)
                      (concat x) in
  has_shape3 b m d x ->
  (0 < b)%nat -> (0 < m)%nat -> (0 < d)%nat ->
  batch_size self = b ->
  has_shape (b * m) e embs ->
  Reshape.reshape2 (Reshape.last_dim3 x) (Reshape.flatten3 x) = Ok (concat x)
  /\ (forall i j, (i < b)%nat -> (j < m)%nat ->
                  nth (i * m + j) (concat x) [] = at2 [] x (i, j))
  /\ (exists y,
        Reshape.reshape3 (batch_size self) (TF.shape1 x) (TF.shape1 embs)
                         (concat embs) = Ok y
        /\ has_shape b m y
        /\ (forall i j, (i < b)%nat -> (j < m)%nat ->
                        at2 [] y (i, j) = nth (i * m + j) embs [])
        /\ (forall f, embs = map f (concat x) -> y = map (map f) x)
        /\ let sess :=
             session_encoder layers hparams (input_sess_length it) y in
           let logits :=
             output_layer layers hparams
               (if connect_inp_to_out hparams
                then Reshape.concat_last y sess else sess) in
           build_network layers hparams self
           = if ModeKeys_eqb (mode self) INFER
             then Ok ((logits, None), self)
             else r <- compute_loss self logits ;;
                  Ok ((logits, Some (fst r)), snd r))
  /\ Reshape.reshape3 b (TF.shape1 x) d (concat (concat x)) = Ok x.
Proof.
  intros it x embs Hx Pb Pm Pd Hbs He.
  destruct (shapes_nonempty b m d x Hx Pb Pm) as [E1 E2].
  destruct (uniform_concat b m d x Hx) as [Hu Hl].
  destruct (build_network_reshaped layers hparams self b m d e
              Hx Pb Pm Pd Hbs He) as [E3 E4].
  fold it in E3, E4; fold x in E3, E4; fold embs in E3, E4.
  split; [rewrite E2; apply (reshape2_flatten b m d x Hx Pd)|].
  split; [intros i j; apply nth_concat_row_major, Hx|].
  split.
  - exists (Reshape.rows m embs b).
    split; [exact E3|].
    split; [apply has_shape_rows, He|].
    split; [intros i j Hi Hj; unfold at2; simpl;
            apply nth_rows_entry; assumption|].
    split; [|exact E4].
    intros f Ef; rewrite Ef; apply rows_map_concat, Hx.
  - rewrite E1, (reshape3_concat b m d (concat x)) by (split; assumption).
    f_equal.
    destruct Hx as [[Hb Hm] _].
    rewrite <- Hb; apply rows_concat_uniform, Hm.
Qed.

Lemma reshape_row_major_round_trip_scenario_A :
  let self := scenario_A H_RNN_RNN INFER in
  let x := input (iterator self) in
  Reshape.reshape2 (Reshape.last_dim3 x) (Reshape.flatten3 x)
  = Ok [[1; 2]; [3; 4]; [0; 0]; [5; 6]; [7; 8]; [9; 1]]%Z
  /\ nth (1 * 3 + 2) (concat x) [] = [9; 1]%Z
  /\ build_network example_layers example_hparams self
     = Ok ((output_layer example_layers example_hparams
              (session_encoder example_layers example_hparams
                 (input_sess_length (iterator self))
                 (map (map (fun _ : list Z => [0])) x)),
            None), self)
  /\ Reshape.reshape3 2 (TF.shape1 x) 2 (concat (concat x)) = Ok x.
Proof.
  intros self x.
  destruct (reshape_row_major_round_trip example_layers example_hparams
              self 2 3 2 1 ltac:(shape_tac) ltac:(lia) ltac:(lia) ltac:(lia)
              eq_refl ltac:(shape_tac))
    as (E1 & E2 & (y & _ & _ & _ & Ef & Eb) & E4).
  split; [exact E1|].
  split; [rewrite E2 by lia; reflexivity|].
  split; [|exact E4].
  rewrite Eb, (Ef (fun _ => [0]) eq_refl); reflexivity.
Defined.

(** ** C4: what is exposed in INFER mode *)

(** In INFER mode [build_network] never computes a loss and leaves the
    object as it found it. *)
Lemma build_network_infer {Tok : Type} (layers : Layers Tok)
  (hparams : HParams) (self self' : Self Tok) (logits : Tensor3 R)
  (loss : option Scalar) :
  mode self = INFER ->
  build_network layers hparams self = Ok ((logits, loss), self') ->
  loss = None /\ self' = self.
Proof.
  intros Hm; unfold build_network; rewrite Hm; simpl.
  destruct (Reshape.reshape2 _ _) as [ri|e]; simpl; [|discriminate].
  destruct (Reshape.reshape3 _ _ _ _) as [re|e]; simpl; [|discriminate].
  intros H; injection H as _ <- <-; split; reflexivity.
Qed.

(** Outside INFER mode, building the chain-structured model binds
    [self.transition_params]. *)
Lemma build_network_crf_binds_transitions {Tok : Type} (layers : Layers Tok)
  (hparams : HParams) (self self' : Self Tok) (logits : Tensor3 R)
  (loss : option Scalar) :
  mode self <> INFER -> cls self = H_RNN_RNN_CRF ->
  build_network layers hparams self = Ok ((logits, loss), self') ->
  self' = set_transition_params self (transitions self)
  /\ exists v, loss = Some v.
Proof.
  intros Hm Hc; unfold build_network.
  destruct (Reshape.reshape2 _ _) as [ri|e]; simpl; [|discriminate].
  destruct (Reshape.reshape3 _ _ _ _) as [re|e]; simpl; [|discriminate].
  destruct (mode self); simpl; try contradiction;
    unfold compute_loss; rewrite Hc;
    unfold H_RNN_RNN_CRF.compute_loss;
    destruct (CRF.crf_log_likelihood _ _ _ _); simpl;
    try discriminate;
    intros H; injection H as _ <- <-; split; eauto.
Qed.

(** C4. In INFER mode [build_network], when it returns, returns no loss
    and leaves the object unchanged. On an object of class
    [H_RNN_RNN_CRF] whose [transition_params] attribute was not bound
    before, [compute_probabilities] is a no-op and [compute_labels]
    raises [AttributeError] once the logits are stored: only
    [compute_loss], which INFER mode skips, binds that attribute. *)
Theorem infer_crf_compute_labels_raises {Tok : Type} (layers : Layers Tok)
  (hparams : HParams) (self self' : Self Tok) (logits : Tensor3 R)
  (loss : option Scalar) :
  mode self = INFER ->
  cls self = H_RNN_RNN_CRF ->
  attr_transition_params self = None ->
  build_network layers hparams self = Ok ((logits, loss), self') ->
  loss = None
  /\ compute_probabilities self' logits = NoOp
  /\ compute_labels (set_logits self' logits) logits = Raise AttributeError.
Proof.
  intros Hm Hc Ht Hb.
  destruct (build_network_infer layers hparams self self' logits loss Hm Hb)
    as [-> ->].
  split; [reflexivity|].
  unfold compute_probabilities, compute_labels, H_RNN_RNN_CRF.compute_labels.
  simpl; rewrite Hc, Ht; split; reflexivity.
Qed.

Lemma infer_crf_compute_labels_raises_scenario_A :
  let self := scenario_A H_RNN_RNN_CRF INFER in
  let logits := map (map (fun _ : list R => [0; 0; 0; 0])) scenario_A_logits in
  build_network example_layers example_hparams self
  = Ok ((logits, None), self)
  /\ compute_labels (set_logits self logits) logits = Raise AttributeError.
Proof.
  intros self logits.
  assert (Hb : build_network example_layers example_hparams self
               = Ok ((logits, None), self)) by reflexivity.
  split; [exact Hb|].
  exact (proj2 (proj2 (infer_crf_compute_labels_raises
                         example_layers example_hparams self self logits None
                         eq_refl eq_refl eq_refl Hb))).
Defined.

(** The independent-softmax classes keep both accessors in every mode. *)
Lemma softmax_accessors_defined {Tok : Type} (self : Self Tok)
  (logits : Tensor3 R) :
  cls self <> H_RNN_RNN_CRF ->
  compute_labels self logits = Ok (HModel.compute_labels logits)
  /\ compute_probabilities self logits
     = Probabilities (TF.softmax logits).
Proof.
  intros Hc; unfold compute_labels, compute_probabilities.
  destruct (cls self); try contradiction; split; reflexivity.
Qed.

(** ** Masked sums and prefixes *)

Lemma reduce_sum_app (l l' : list R) :
  TF.reduce_sum (l ++ l') = TF.reduce_sum l + TF.reduce_sum l'.
Proof.
  unfold TF.reduce_sum.
  induction l as [|x l IH]; simpl; [lra|].
  rewrite IH; lra.
Qed.

(** A sum masked by a sequence mask is the sum of the unmasked prefix. *)
Lemma masked_sum_from (n : Z) (u : list R) :
  forall s M, (length u <= M)%nat ->
    TF.reduce_sum
      (TF.map2 Rmult u
         (map TF.cast_float (map (fun j => (Z.of_nat j <? n)%Z) (seq s M))))
    = TF.reduce_sum (firstn (Z.to_nat n - s) u).
Proof.
  induction u as [|x u IH]; intros s M HM.
  - rewrite firstn_nil; reflexivity.
  - destruct M as [|M]; [simpl in HM; lia|].
    simpl in HM; simpl seq; simpl map; simpl TF.map2.
    simpl TF.reduce_sum at 1.
    fold (TF.reduce_sum
            (TF.map2 Rmult u
               (map TF.cast_float
                    (map (fun j => (Z.of_nat j <? n)%Z) (seq (S s) M))))).
    rewrite (IH (S s) M) by lia.
    destruct (Z.ltb_spec (Z.of_nat s) n) as [H|H]; unfold TF.cast_float.
    + replace (Z.to_nat n - s)%nat with (S (Z.to_nat n - S s)) by lia.
      simpl; lra.
    + replace (Z.to_nat n - s)%nat with 0%nat by lia.
      replace (Z.to_nat n - S s)%nat with 0%nat by lia.
      simpl; lra.
Qed.

Lemma firstn_map2 {A B C : Type} (f : A -> B -> C) (k : nat)
  (l : list A) (l' : list B) :
  firstn k (TF.map2 f l l') = TF.map2 f (firstn k l) (firstn k l').
Proof.
  revert l l'; induction k as [|k IH]; intros [|a l] [|b l']; simpl;
    try reflexivity.
  rewrite IH; reflexivity.
Qed.

(** [map2] stops at the shorter list. *)
Lemma map2_firstn_l {A B C : Type} (f : A -> B -> C) (k : nat)
  (l : list A) (l' : list B) :
  (length l' <= k)%nat -> TF.map2 f (firstn k l) l' = TF.map2 f l l'.
Proof.
  revert l l'; induction k as [|k IH]; intros [|a l] [|b l'] H; simpl in *;
    try reflexivity; try lia.
  rewrite IH by lia; reflexivity.
Qed.

Lemma firstn_tl {A : Type} (k : nat) (l : list A) :
  firstn (k - 1) (tl l) = tl (firstn k l).
Proof.
  destruct k as [|k]; [reflexivity|].
  destruct l as [|a l]; simpl; rewrite ?firstn_nil, ?Nat.sub_0_r; reflexivity.
Qed.

Lemma length_tl {A : Type} (l : list A) : length (tl l) = (length l - 1)%nat.
Proof. destruct l; simpl; lia. Qed.

Lemma crf_unary_score_prefix (tags : list Z) (n : Z) (inputs : Tensor2 R) :
  unary_score tags n inputs
  = TF.reduce_sum (TF.map2 entry (firstn (Z.to_nat n) inputs)
                                     (firstn (Z.to_nat n) tags)).
Proof.
  unfold unary_score, TF.sequence_mask_row.
  rewrite masked_sum_from by (rewrite map2_length; lia).
  rewrite Nat.sub_0_r, firstn_map2; reflexivity.
Qed.

Lemma crf_binary_score_prefix (tags : list Z) (n : Z) (T : Tensor2 R) :
  binary_score tags n T
  = TF.reduce_sum
      (TF.map2 (entry2 T) (firstn (Z.to_nat n) tags)
                               (tl (firstn (Z.to_nat n) tags))).
Proof.
  unfold binary_score, TF.sequence_mask_row.
  rewrite !skipn_map.
  replace (skipn 1 (seq 0 (length tags))) with (seq 1 (length tags - 1)).
  2:{ destruct tags; simpl; rewrite ?Nat.sub_0_r; reflexivity. }
  rewrite masked_sum_from by (rewrite map2_length, !length_firstn; lia).
  change (skipn 1 tags) with (tl tags).
  rewrite <- (firstn_tl (Z.to_nat n)).
  set (k := (Z.to_nat n - 1)%nat).
  set (X := firstn k (tl tags)).
  assert (HX : (length X <= k)%nat /\ (length X <= length tags - 1)%nat).
  { unfold X; rewrite length_firstn, length_tl; lia. }
  rewrite firstn_map2.
  rewrite (firstn_all2 (n := (length tags - 1)%nat) (tl tags))
    by (rewrite length_tl; lia).
  fold X.
  rewrite !map2_firstn_l by lia.
  reflexivity.
Qed.

(** The sequence score reads the score vectors and the tags of the valid
    prefix only. *)
Lemma crf_sequence_score_prefix (inputs : Tensor2 R) (tags : list Z) (n : Z)
  (T : Tensor2 R) :
  sequence_score inputs tags n T
  = path_score T (firstn (Z.to_nat n) inputs) (firstn (Z.to_nat n) tags).
Proof.
  unfold sequence_score, path_score.
  rewrite crf_unary_score_prefix, crf_binary_score_prefix; reflexivity.
Qed.

(** [dynamic_rnn] runs the cell over the first [k] inputs and pads the
    outputs with zeros. *)
Lemma dynamic_rnn_scan {X S Y : Type} (cell : X -> S -> Y * S) (z : Y)
  (l : list X) :
  forall k s,
    CRF.dynamic_rnn cell z l k s
    = (fst (scan cell (firstn k l) s) ++ repeat z (length l - k),
       snd (scan cell (firstn k l) s)).
Proof.
  induction l as [|x l IH]; intros k s.
  - rewrite firstn_nil; reflexivity.
  - destruct k as [|k]; simpl.
    + rewrite (IH 0%nat s); simpl; rewrite Nat.sub_0_r; reflexivity.
    + destruct (cell x s) as [y s1].
      rewrite (IH k s1).
      destruct (scan cell (firstn k l) s1) as [ys s']; reflexivity.
Qed.

Lemma crf_log_norm_prefix (inputs inputs' : Tensor2 R) (n : Z)
  (T : Tensor2 R) :
  firstn (Z.to_nat n) inputs = firstn (Z.to_nat n) inputs' ->
  CRF.crf_log_norm inputs n T = CRF.crf_log_norm inputs' n T.
Proof.
  intros H; unfold CRF.crf_log_norm.
  destruct (Z.leb_spec n 0) as [Hn|Hn].
  - destruct inputs as [|a l], inputs' as [|a' l']; try reflexivity;
      rewrite !dynamic_rnn_scan; reflexivity.
  - replace (Z.to_nat n) with (S (Z.to_nat (Z.max 0 (n - 1)))) in H by lia.
    destruct inputs as [|a l], inputs' as [|a' l']; try discriminate;
      [reflexivity|].
    simpl in H; injection H as -> H.
    rewrite !dynamic_rnn_scan, H; reflexivity.
Qed.

Lemma crf_log_likelihood_row_prefix (T : Tensor2 R)
  (inputs inputs' : Tensor2 R) (tags tags' : list Z) (n : Z) :
  firstn (Z.to_nat n) inputs = firstn (Z.to_nat n) inputs' ->
  firstn (Z.to_nat n) tags = firstn (Z.to_nat n) tags' ->
  log_likelihood T inputs tags n
  = log_likelihood T inputs' tags' n.
Proof.
  intros Hi Ht; unfold log_likelihood.
  rewrite !crf_sequence_score_prefix, (crf_log_norm_prefix _ _ _ _ Hi).
  rewrite Hi, Ht; reflexivity.
Qed.

(** A session of length 0 or less has log-likelihood 0. *)
Lemma crf_log_likelihood_row_empty (T : Tensor2 R) (inputs : Tensor2 R)
  (tags : list Z) (n : Z) :
  (n <= 0)%Z -> log_likelihood T inputs tags n = 0.
Proof.
  intros Hn; unfold log_likelihood.
  rewrite crf_sequence_score_prefix.
  replace (Z.to_nat n) with 0%nat by lia.
  unfold path_score, CRF.crf_log_norm; simpl.
  destruct (Z.leb_spec n 0); [|lia].
  destruct inputs as [|a l]; [|rewrite dynamic_rnn_scan]; simpl; lra.
Qed.

Lemma firstn_agree {A : Type} (d : A) (m : nat) (n : Z) (r r' : list A) :
  length r = m -> length r' = m ->
  (forall j, (j < m)%nat -> (Z.of_nat j < n)%Z -> nth j r d = nth j r' d) ->
  firstn (Z.to_nat n) r = firstn (Z.to_nat n) r'.
Proof.
  intros Hr Hr' H.
  apply (nth_ext _ _ d d); [rewrite !length_firstn; lia|].
  intros j Hj; rewrite length_firstn in Hj.
  rewrite !nth_firstn.
  destruct (Nat.ltb_spec j (Z.to_nat n)); [|reflexivity].
  apply H; lia.
Qed.

(** Tensors that agree on the valid positions have rows with equal valid
    prefixes. *)
Lemma agree_on_valid_prefix {A : Type} (d : A) (lens : list Z) (b m : nat)
  (t t' : Tensor2 A) (i : nat) :
  has_shape b m t -> has_shape b m t' ->
  agree_on_valid d lens b m t t' -> (i < b)%nat ->
  firstn (Z.to_nat (nth i lens 0%Z)) (nth i t [])
  = firstn (Z.to_nat (nth i lens 0%Z)) (nth i t' []).
Proof.
  intros Ht Ht' Ha Hi.
  apply (firstn_agree d m).
  - apply (has_shape_nth b m t i Ht Hi).
  - apply (has_shape_nth b m t' i Ht' Hi).
  - intros j Hj Hn; apply (Ha i j Hi Hj).
    unfold valid; apply Z.ltb_lt, Hn.
Qed.

(** ** The scores of the chain, over the batch *)

Lemma nth_map_seq {B : Type} (f : nat -> B) (d : B) (n k : nat) :
  (k < n)%nat -> nth k (map f (seq 0 n)) d = f k.
Proof.
  intros Hk.
  rewrite (nth_indep _ d (f 0%nat)) by (rewrite length_map, length_seq; lia).
  rewrite map_nth, seq_nth by lia; reflexivity.
Qed.

Lemma mapM_Ok_nth {A B : Type} (f : A -> result B) (da : A) (db : B)
  (l : list A) (l' : list B) :
  length l = length l' ->
  (forall k, (k < length l)%nat -> f (nth k l da) = Ok (nth k l' db)) ->
  mapM f l = Ok l'.
Proof.
  revert l'; induction l as [|a l IH]; intros [|b l'] Hlen H;
    simpl in Hlen; try lia; [reflexivity|].
  pose proof (H 0%nat ltac:(simpl; lia)) as H0; simpl in H0.
  simpl; rewrite H0; simpl.
  rewrite (IH l'); [reflexivity|lia|].
  intros k Hk; apply (H (S k)); simpl; lia.
Qed.

Lemma list_eq_map_seq {A : Type} (d : A) (f : nat -> A) (b : nat)
  (l : list A) :
  length l = b -> (forall i, (i < b)%nat -> nth i l d = f i) ->
  l = map f (seq 0 b).
Proof.
  intros Hlen H; apply (nth_ext _ _ d d).
  - rewrite length_map, length_seq; exact Hlen.
  - intros i Hi; rewrite nth_map_seq by lia; apply H; lia.
Qed.

Lemma map2_map_map {A B C D : Type} (f : B -> C -> D) (g : A -> B)
  (h : A -> C) (l : list A) :
  TF.map2 f (map g l) (map h l) = map (fun x => f (g x) (h x)) l.
Proof. induction l as [|a l IH]; simpl; [|rewrite IH]; reflexivity. Qed.

Lemma gather_all_Ok (params : list R) (indices : Tensor2 Z)
  (values : Tensor2 R) (b m : nat) :
  has_shape b m indices -> has_shape b m values ->
  (forall i j, (i < b)%nat -> (j < m)%nat ->
               TF.gather params (at2 0%Z indices (i, j))
               = Ok (at2 0 values (i, j))) ->
  CRF.gather_all params indices = Ok values.
Proof.
  intros Hi Hv H; unfold CRF.gather_all.
  apply (mapM_Ok_nth _ [] []); [destruct Hi, Hv; tlia|].
  intros i Hlt; rewrite (proj1 Hi) in Hlt.
  apply (mapM_Ok_nth _ 0%Z 0).
  - rewrite (has_shape_nth b m indices i Hi Hlt),
      (has_shape_nth b m values i Hv Hlt); reflexivity.
  - intros j Hj; rewrite (has_shape_nth b m indices i Hi Hlt) in Hj.
    apply (H i j Hlt Hj).
Qed.

(** Entry [t] of position (i, j) in the flattened tensor. *)
Lemma flatten3_nth (b m o : nat) (x : Tensor3 R) (i j t : nat) :
  has_shape3 b m o x -> (i < b)%nat -> (j < m)%nat -> (t < o)%nat ->
  nth ((i * m + j) * o + t) (Reshape.flatten3 x) 0
  = nth t (at2 [] x (i, j)) 0.
Proof.
  intros Hx Hi Hj Ht.
  destruct (uniform_concat b m o x Hx) as [Hu Hl].
  unfold Reshape.flatten3.
  rewrite <- (nth_concat_row_major b m x i j (proj1 Hx) Hi Hj).
  rewrite <- (rows_concat_uniform o (concat x) Hu) at 2.
  rewrite nth_rows_entry; [reflexivity| |exact Ht].
  rewrite Hl; nia.
Qed.

Lemma entry_nth (l : list R) (t : Z) :
  (0 <= t)%Z -> entry l t = nth (Z.to_nat t) l 0.
Proof.
  intros H; unfold entry; destruct (Z.ltb_spec t 0); [lia|reflexivity].
Qed.

Lemma tags_in_range_at (o b m : nat) (tags : Tensor2 Z) (i j : nat) :
  has_shape b m tags -> tags_in_range o tags ->
  (i < b)%nat -> (j < m)%nat ->
  (0 <= at2 0%Z tags (i, j) < Z.of_nat o)%Z.
Proof.
  intros Hs Hr Hi Hj; unfold at2; simpl.
  unfold tags_in_range in Hr; rewrite Forall_forall in Hr.
  assert (Hin : In (nth i tags []) tags)
    by (apply nth_In; rewrite (proj1 Hs); exact Hi).
  specialize (Hr _ Hin); rewrite Forall_forall in Hr.
  apply Hr, nth_In.
  rewrite (has_shape_nth b m tags i Hs Hi); exact Hj.
Qed.

Lemma at2_row_length {A : Type} (b m o : nat) (t : Tensor3 A) (i j : nat) :
  has_shape3 b m o t -> (i < b)%nat -> (j < m)%nat ->
  length (at2 [] t (i, j)) = o.
Proof.
  intros [Hs Ho3] Hi Hj; unfold at2; simpl.
  rewrite Forall_forall in Ho3.
  assert (Hin : In (nth i t []) t) by (apply nth_In; destruct Hs; tlia).
  specialize (Ho3 _ Hin); rewrite Forall_forall in Ho3.
  apply Ho3, nth_In.
  rewrite (has_shape_nth b m t i Hs Hi); exact Hj.
Qed.

Lemma crf_log_likelihood_nth (logits : Tensor3 R) (target_output : Tensor2 Z)
  (lens : list Z) (T : Tensor2 R) (b i : nat) :
  length logits = b -> length target_output = b -> length lens = b ->
  (i < b)%nat ->
  nth i (log_likelihoods logits target_output lens T) 0
  = log_likelihood T (nth i logits []) (nth i target_output [])
                               (nth i lens 0%Z).
Proof.
  intros Hl Ht Hn Hi; unfold log_likelihoods.
  rewrite (map2_nth (A := Tensor2 R * list Z) _ ([], []) 0%Z 0)
    by (rewrite ?length_combine; lia).
  rewrite combine_nth by lia; reflexivity.
Qed.

Lemma crf_log_likelihood_length (logits : Tensor3 R)
  (target_output : Tensor2 Z) (lens : list Z) (T : Tensor2 R) (b : nat) :
  length logits = b -> length target_output = b -> length lens = b ->
  length (log_likelihoods logits target_output lens T) = b.
Proof.
  intros Hl Ht Hn; unfold log_likelihoods.
  rewrite map2_length, length_combine; lia.
Qed.

Section BatchScores.

Variables (b m o : nat) (inputs : Tensor3 R) (tags : Tensor2 Z)
  (lens : list Z) (T : Tensor2 R).

Hypothesis Hx : has_shape3 b m o inputs.
Hypothesis Ht : has_shape b m tags.
Hypothesis Hn : length lens = b.
Hypothesis Hr : tags_in_range o tags.

Lemma shape1_of_shape {A : Type} (t : Tensor2 A) :
  has_shape b m t -> (0 < b)%nat -> TF.shape1 t = m.
Proof.
  intros [Hb Hm] Pb; destruct t as [|r t]; [simpl in Hb; lia|].
  inversion Hm; subst; reflexivity.
Qed.

Lemma masks_nth (k i : nat) (d : list R) :
  (i < b)%nat ->
  nth i (map (map TF.cast_float) (TF.sequence_mask lens k)) d
  = map TF.cast_float (TF.sequence_mask_row k (nth i lens 0%Z)).
Proof.
  intros Hi; unfold TF.sequence_mask.
  rewrite map_map.
  rewrite (nth_indep _ d
             (map TF.cast_float (TF.sequence_mask_row k 0%Z)))
    by (rewrite length_map; lia).
  rewrite (map_nth (fun n => map TF.cast_float (TF.sequence_mask_row k n)));
    reflexivity.
Qed.

Lemma crf_unary_score_values :
  CRF.crf_unary_score tags lens inputs
  = Ok (map (fun i => unary_score (nth i tags []) (nth i lens 0%Z)
                                  (nth i inputs []))
            (seq 0 b)).
Proof.
  unfold CRF.crf_unary_score.
  destruct (Nat.eq_dec b 0) as [Eb|Nb].
  { destruct Hx as [[Hb _] _]; rewrite Eb in *.
    destruct inputs; [|discriminate]; reflexivity. }
  assert (Pb : (0 < b)%nat) by lia.
  rewrite (proj1 (proj1 Hx)), (shape1_of_shape inputs (proj1 Hx) Pb),
    (shape1_of_shape tags Ht Pb).
  set (offsets := map _ (seq 0 b)).
  assert (Ho : has_shape b m offsets).
  { split; [unfold offsets; rewrite length_map, length_seq; reflexivity|].
    unfold offsets; rewrite Forall_map, Forall_forall; intros i _.
    rewrite length_map, length_seq; reflexivity. }
  rewrite (gather_all_Ok _ _ (TF.map2 (TF.map2 entry) inputs tags) b m).
  - cbn [bind]; f_equal.
    apply (list_eq_map_seq 0).
    + rewrite length_map, map2_length, map2_length, length_map.
      unfold TF.sequence_mask; rewrite length_map.
      destruct Hx as [[Hb _] _], Ht as [Hb' _]; tlia.
    + intros i Hi.
      assert (Hlen : length (TF.map2 (TF.map2 Rmult)
                               (TF.map2 (TF.map2 entry) inputs tags)
                               (map (map TF.cast_float)
                                    (TF.sequence_mask lens m))) = b).
      { rewrite !map2_length, length_map.
        unfold TF.sequence_mask; rewrite length_map.
        destruct Hx as [[Hb _] _], Ht as [Hb' _]; tlia. }
      rewrite (nth_indep _ 0 (TF.reduce_sum []))
        by (rewrite length_map, Hlen; exact Hi).
      rewrite map_nth.
      rewrite (map2_nth _ [] [] []);
        [|rewrite map2_length; destruct Hx as [[Hb _] _], Ht as [Hb' _];
          tlia
         |rewrite length_map; unfold TF.sequence_mask;
          rewrite length_map; lia].
      rewrite (map2_nth _ [] [] [])
        by (destruct Hx as [[Hb _] _], Ht as [Hb' _]; tlia).
      rewrite masks_nth by exact Hi.
      unfold unary_score.
      rewrite (has_shape_nth b m tags i Ht Hi); reflexivity.
  - apply has_shape_map2; assumption.
  - apply has_shape_map2; [exact (proj1 Hx)|exact Ht].
  - intros i j Hi Hj.
    rewrite (at2_map2 Z.add 0%Z 0%Z 0%Z b m) by assumption.
    rewrite (at2_map2 entry [] 0%Z 0 b m)
      by (try exact (proj1 Hx); assumption).
    pose proof (tags_in_range_at o b m tags i j Ht Hr Hi Hj) as Hrange.
    set (t := at2 0%Z tags (i, j)) in *.
    assert (Eo : at2 0%Z offsets (i, j)
                 = Z.of_nat (i * m * o + j * o)).
    { destruct (shapes_nonempty b m o inputs Hx Pb ltac:(lia)) as [_ E2].
      unfold at2, offsets; simpl.
      rewrite (nth_map_seq _ [] b i Hi), (nth_map_seq _ 0%Z m j Hj), E2.
      reflexivity. }
    rewrite Eo.
    destruct (uniform_concat b m o inputs Hx) as [Hu Hl].
    assert (Lf : length (Reshape.flatten3 inputs) = (b * m * o)%nat).
    { unfold Reshape.flatten3.
      rewrite (length_concat_uniform o) by exact Hu.
      rewrite Hl; reflexivity. }
    unfold TF.gather; rewrite Lf.
    assert (Ei : (Z.of_nat (i * m * o + j * o) + t
                  = Z.of_nat ((i * m + j) * o + Z.to_nat t))%Z).
    { rewrite (Nat2Z.inj_add ((i * m + j) * o)), Z2Nat.id by lia.
      do 2 f_equal; ring. }
    rewrite Ei.
    destruct (Z.leb_spec 0 (Z.of_nat ((i * m + j) * o + Z.to_nat t)));
      [|lia].
    assert (Hlt : ((i * m + j) * o + Z.to_nat t < b * m * o)%nat).
    { assert (H1 : (i * m + j + 1 <= b * m)%nat) by nia.
      assert (H2 : ((i * m + j + 1) * o <= b * m * o)%nat)
        by (apply Nat.mul_le_mono_r; exact H1).
      assert (H3 : (Z.to_nat t < o)%nat) by lia.
      lia. }
    destruct (Z.ltb_spec (Z.of_nat ((i * m + j) * o + Z.to_nat t))
                         (Z.of_nat (b * m * o))); [|lia].
    cbn [andb]; rewrite Nat2Z.id.
    rewrite (flatten3_nth b m o inputs i j (Z.to_nat t) Hx Hi Hj)
      by lia.
    rewrite entry_nth by lia; reflexivity.
Qed.


Hypothesis HT : has_shape o o T.

Lemma concat_nth_uniform (Y : Tensor2 R) (r t : nat) :
  Forall (fun row => length row = o) Y ->
  (r < length Y)%nat -> (t < o)%nat ->
  nth (r * o + t) (concat Y) 0 = nth t (nth r Y []) 0.
Proof.
  intros Hu Hlt Hto.
  rewrite <- (rows_concat_uniform o Y Hu) at 2.
  rewrite nth_rows_entry by assumption; reflexivity.
Qed.

Lemma gather_transition (s e : Z) :
  (0 <= s < Z.of_nat o)%Z -> (0 <= e < Z.of_nat o)%Z ->
  TF.gather (concat T) (s * Z.of_nat (length T) + e) = Ok (entry2 T s e).
Proof.
  intros Hs He.
  destruct HT as [HTb HTm].
  assert (Lc : length (concat T) = (o * o)%nat)
    by (rewrite (length_concat_uniform o) by exact HTm;
        rewrite HTb; reflexivity).
  assert (Ei : (s * Z.of_nat (length T) + e
                = Z.of_nat (Z.to_nat s * o + Z.to_nat e))%Z).
  { rewrite HTb, Nat2Z.inj_add, Nat2Z.inj_mul, !Z2Nat.id by lia.
    reflexivity. }
  assert (Hlt : (Z.to_nat s * o + Z.to_nat e < o * o)%nat).
  { assert (H1 : (Z.to_nat s + 1 <= o)%nat) by lia.
    assert (H2 : ((Z.to_nat s + 1) * o <= o * o)%nat)
      by (apply Nat.mul_le_mono_r; exact H1).
    assert (H3 : (Z.to_nat e < o)%nat) by lia.
    lia. }
  unfold TF.gather; rewrite Ei, Lc.
  destruct (Z.leb_spec 0 (Z.of_nat (Z.to_nat s * o + Z.to_nat e))); [|lia].
  destruct (Z.ltb_spec (Z.of_nat (Z.to_nat s * o + Z.to_nat e))
                       (Z.of_nat (o * o))); [|lia].
  cbn [andb]; rewrite Nat2Z.id.
  rewrite concat_nth_uniform by (try exact HTm; lia).
  unfold entry2.
  destruct (Z.ltb_spec s 0); [lia|].
  rewrite entry_nth by lia; reflexivity.
Qed.

Lemma has_shape_map_rows {A : Type} (g : list A -> list A) (k : nat)
  (t : Tensor2 A) :
  has_shape b m t -> (forall r, length r = m -> length (g r) = k) ->
  has_shape b k (map g t).
Proof.
  intros [Hb Hm] Hg; split; [rewrite length_map; exact Hb|].
  rewrite Forall_map; revert Hm; apply Forall_impl; exact Hg.
Qed.

Lemma nth_map_rows {A : Type} (g : list A -> list A) (t : Tensor2 A)
  (i : nat) :
  (i < length t)%nat -> nth i (map g t) [] = g (nth i t []).
Proof.
  intros Hi.
  rewrite (nth_indep _ [] (g [])) by (rewrite length_map; exact Hi).
  apply map_nth.
Qed.

Lemma crf_binary_score_values :
  CRF.crf_binary_score tags lens T
  = Ok (map (fun i => binary_score (nth i tags []) (nth i lens 0%Z) T)
            (seq 0 b)).
Proof.
  unfold CRF.crf_binary_score.
  destruct (Nat.eq_dec b 0) as [Eb|Nb].
  { destruct Ht as [Hb _]; rewrite Eb in *.
    destruct tags; [|discriminate]; reflexivity. }
  assert (Pb : (0 < b)%nat) by lia.
  rewrite (shape1_of_shape tags Ht Pb).
  set (k := (m - 1)%nat).
  set (starts := map (firstn k) tags).
  set (ends := map (fun r => firstn k (skipn 1 r)) tags).
  assert (Hs : has_shape b k starts).
  { apply has_shape_map_rows; [exact Ht|].
    intros r Hlen; rewrite length_firstn; lia. }
  assert (He : has_shape b k ends).
  { apply has_shape_map_rows; [exact Ht|].
    intros r Hlen; rewrite length_firstn, length_skipn; lia. }
  rewrite (gather_all_Ok _ _ (TF.map2 (TF.map2 (entry2 T)) starts ends) b k).
  - cbn [bind]; f_equal.
    assert (Hlen : length (TF.map2 (TF.map2 Rmult)
                             (TF.map2 (TF.map2 (entry2 T)) starts ends)
                             (map (skipn 1)
                                (map (map TF.cast_float)
                                     (TF.sequence_mask lens m)))) = b).
    { rewrite !map2_length, !length_map.
      unfold TF.sequence_mask; rewrite length_map.
      destruct Hs as [Hb _], He as [Hb' _]; tlia. }
    apply (list_eq_map_seq 0); [rewrite length_map; exact Hlen|].
    intros i Hi.
    rewrite (nth_indep _ 0 (TF.reduce_sum []))
      by (rewrite length_map, Hlen; exact Hi).
    rewrite map_nth.
    rewrite (map2_nth _ [] [] []);
      [|rewrite map2_length; destruct Hs as [Hb _], He as [Hb' _]; tlia
       |rewrite !length_map; unfold TF.sequence_mask;
        rewrite length_map; lia].
    rewrite (map2_nth _ [] [] [])
      by (destruct Hs as [Hb _], He as [Hb' _]; tlia).
    rewrite nth_map_rows
      by (rewrite length_map; unfold TF.sequence_mask;
          rewrite length_map; lia).
    rewrite masks_nth by exact Hi.
    unfold starts, ends.
    rewrite !nth_map_rows by (rewrite (proj1 Ht); exact Hi).
    unfold binary_score.
    rewrite (has_shape_nth b m tags i Ht Hi); reflexivity.
  - apply has_shape_map2; assumption.
  - apply has_shape_map2; assumption.
  - intros i j Hi Hj.
    rewrite (at2_map2 _ 0%Z 0%Z 0%Z b k) by assumption.
    rewrite (at2_map2 (entry2 T) 0%Z 0%Z 0 b k) by assumption.
    apply gather_transition.
    + unfold at2, starts; cbn [fst snd].
      rewrite nth_map_rows by (rewrite (proj1 Ht); exact Hi).
      rewrite nth_firstn.
      destruct (Nat.ltb_spec j k); [|lia].
      apply (tags_in_range_at o b m tags i j Ht Hr Hi); lia.
    + unfold at2, ends; cbn [fst snd].
      rewrite nth_map_rows by (rewrite (proj1 Ht); exact Hi).
      rewrite nth_firstn.
      destruct (Nat.ltb_spec j k); [|lia].
      rewrite nth_skipn.
      apply (tags_in_range_at o b m tags i (1 + j) Ht Hr Hi); lia.
Qed.

Lemma single_position_score (row : list R) (t n : Z) :
  sequence_score [row] [t] n T
  = if (n <=? 0)%Z then 0 else entry row t.
Proof.
  unfold sequence_score, unary_score, binary_score, TF.sequence_mask_row.
  simpl.
  destruct (Z.ltb_spec 0 n), (Z.leb_spec n 0); try lia; simpl; lra.
Qed.

Lemma crf_sequence_score_values :
  CRF.crf_sequence_score inputs tags lens T
  = Ok (map (fun i => sequence_score (nth i inputs []) (nth i tags [])
                                     (nth i lens 0%Z) T)
            (seq 0 b)).
Proof.
  unfold CRF.crf_sequence_score.
  destruct (Nat.eqb_spec (TF.shape1 inputs) 1) as [E1|N1].
  - assert (Pb : (0 < b)%nat).
    { destruct Hx as [[Hb _] _].
      destruct inputs; [discriminate|simpl in Hb; lia]. }
    assert (Em : m = 1%nat)
      by (rewrite <- E1; symmetry;
          apply (shape1_of_shape inputs (proj1 Hx) Pb)).
    assert (Lx := proj1 (proj1 Hx)); assert (Lt := proj1 Ht).
    rewrite (mapM_Ok_nth _ ([], []) 0 _
               (map (fun i => entry (hd [] (nth i inputs []))
                                    (hd 0%Z (nth i tags []))) (seq 0 b))).
    + cbn [bind]; f_equal.
      apply (list_eq_map_seq 0).
      * rewrite map2_length, length_map, length_seq; lia.
      * intros i Hi.
        rewrite (map2_nth _ 0%Z 0 0)
          by (rewrite ?length_map, ?length_seq; lia).
        rewrite nth_map_seq by exact Hi.
        pose proof (has_shape_nth b m inputs i (proj1 Hx) Hi) as Li.
        pose proof (has_shape_nth b m tags i Ht Hi) as Lti.
        rewrite Em in Li, Lti.
        destruct (nth i inputs []) as [|row [|? ?]]; try discriminate.
        destruct (nth i tags []) as [|t [|? ?]]; try discriminate.
        rewrite single_position_score; reflexivity.
    + rewrite length_combine, length_map, length_seq; tlia.
    + intros i Hi; rewrite length_combine in Hi.
      assert (Hib : (i < b)%nat) by tlia.
      rewrite combine_nth by tlia.
      rewrite nth_map_seq by exact Hib; cbn [fst snd].
      pose proof (has_shape_nth b m inputs i (proj1 Hx) Hib) as Li.
      pose proof (has_shape_nth b m tags i Ht Hib) as Lti.
      pose proof (tags_in_range_at o b m tags i 0 Ht Hr Hib ltac:(lia))
        as Hrange.
      pose proof (at2_row_length b m o inputs i 0 Hx Hib ltac:(lia)) as Lo.
      unfold at2 in Hrange, Lo; cbn [fst snd] in Hrange, Lo.
      rewrite Em in Li, Lti.
      destruct (nth i inputs []) as [|row [|? ?]]; try discriminate.
      destruct (nth i tags []) as [|t [|? ?]]; try discriminate.
      simpl in *.
      rewrite gather_entry; unfold is_class; rewrite Lo.
      destruct (Z.leb_spec 0 t), (Z.ltb_spec t (Z.of_nat o)); try lia.
      reflexivity.
  - rewrite crf_unary_score_values, crf_binary_score_values; cbn [bind].
    rewrite map2_map_map; reflexivity.
Qed.

Lemma crf_log_likelihood_values :
  CRF.crf_log_likelihood inputs tags lens T
  = Ok (log_likelihoods inputs tags lens T).
Proof.
  unfold CRF.crf_log_likelihood.
  rewrite crf_sequence_score_values; cbn [bind]; f_equal.
  assert (Lx := proj1 (proj1 Hx)); assert (Lt := proj1 Ht).
  rewrite (list_eq_map_seq 0
             (fun i => CRF.crf_log_norm (nth i inputs []) (nth i lens 0%Z) T)
             b (TF.map2 _ inputs lens)).
  - rewrite map2_map_map.
    symmetry; apply (list_eq_map_seq 0).
    + apply crf_log_likelihood_length; assumption.
    + intros i Hi.
      rewrite (crf_log_likelihood_nth _ _ _ _ b) by assumption.
      reflexivity.
  - rewrite map2_length; tlia.
  - intros i Hi; rewrite (map2_nth _ [] 0%Z 0) by tlia; reflexivity.
Qed.

End BatchScores.

(** ** C2: the loss and what the padding holds *)

Lemma row_labels_in_range (o : nat) (labels : list Z) (rows : Tensor2 R) :
  Forall (fun t => (0 <= t < Z.of_nat o)%Z) labels ->
  Forall (fun r => length r = o) rows ->
  forallb (fun q => is_class (snd q) (fst q)) (combine labels rows) = true.
Proof.
  intros Hl; revert rows; induction Hl as [|t labels Ht Hl IH];
    intros rows Hr; [reflexivity|].
  destruct Hr as [|r rows Hlen Hr]; [reflexivity|].
  simpl; rewrite (IH rows Hr), andb_true_r.
  unfold is_class; rewrite Hlen.
  destruct (Z.leb_spec 0 t), (Z.ltb_spec t (Z.of_nat o));
    try lia; try reflexivity.
Qed.

(** Labels that are all classes pass the range check of the
    cross-entropy kernel. *)
Lemma labels_in_range_of_tags (b m o : nat) (labels : Tensor2 Z)
  (logits : Tensor3 R) :
  has_shape3 b m o logits -> tags_in_range o labels ->
  labels_in_range labels logits = true.
Proof.
  intros [_ Ho] Hr; unfold labels_in_range.
  revert logits Ho; induction Hr as [|ls labels Hls Hr IH];
    intros logits Ho; [reflexivity|].
  destruct Ho as [|rows logits Hrows Ho]; [reflexivity|].
  simpl; rewrite (IH logits Ho), andb_true_r.
  apply (row_labels_in_range o); assumption.
Qed.

(** The loss of either strategy on a batch whose labels are all classes:
    it does not raise, and its value is the masked mean of the
    cross-entropies, or the mean of the negated log-likelihoods. *)
Lemma compute_loss_value {Tok : Type} (self : Self Tok)
  (logits : Tensor3 R) (b m o : nat) :
  let lens := input_sess_length (iterator self) in
  let labels := target (iterator self) in
  has_shape b m labels ->
  has_shape3 b m o logits ->
  length lens = b ->
  tags_in_range o labels ->
  (cls self = H_RNN_RNN_CRF -> has_shape o o (transitions self)) ->
  compute_loss self logits
  = Ok (match cls self with
        | H_RNN_RNN_CRF =>
            (TF.reduce_mean
               (map Ropp (log_likelihoods logits labels lens
                                          (transitions self))),
             set_transition_params self (transitions self))
        | _ =>
            (TF.reduce_mean
               (map (crossent_at logits labels) (valid_positions lens b m)),
             self)
        end).
Proof.
  intros lens labels Ht Hl Hn Hr HT.
  assert (Hsoft : HModel.compute_loss self logits
                  = Ok (TF.reduce_mean
                          (map (crossent_at logits labels)
                               (valid_positions lens b m)))).
  { rewrite (compute_loss_reduce_mean self logits b m Ht (proj1 Hl) Hn).
    fold labels.
    rewrite (labels_in_range_of_tags b m o labels logits Hl Hr).
    reflexivity. }
  unfold compute_loss.
  destruct (cls self); try (rewrite Hsoft; reflexivity).
  unfold H_RNN_RNN_CRF.compute_loss; fold labels; fold lens.
  rewrite (crf_log_likelihood_values b m o logits labels lens
             (transitions self) Hl Ht Hn Hr (HT eq_refl)).
  reflexivity.
Qed.

Lemma crf_log_likelihood_agree (logits logits' : Tensor3 R)
  (target_output target_output' : Tensor2 Z) (lens : list Z) (T : Tensor2 R)
  (b m : nat) :
  length lens = b ->
  has_shape b m target_output -> has_shape b m target_output' ->
  has_shape b m logits -> has_shape b m logits' ->
  agree_on_valid 0%Z lens b m target_output target_output' ->
  agree_on_valid [] lens b m logits logits' ->
  log_likelihoods logits target_output lens T
  = log_likelihoods logits' target_output' lens T.
Proof.
  intros Hn Ht Ht' Hl Hl' At Al.
  assert (Lt := proj1 Ht); assert (Lt' := proj1 Ht').
  assert (Ll := proj1 Hl); assert (Ll' := proj1 Hl').
  apply (nth_ext _ _ 0 0).
  - rewrite !(crf_log_likelihood_length _ _ _ _ b); auto.
  - intros i Hi.
    rewrite (crf_log_likelihood_length _ _ _ _ b) in Hi by auto.
    rewrite !(crf_log_likelihood_nth _ _ _ _ b) by auto.
    apply crf_log_likelihood_row_prefix.
    + apply (agree_on_valid_prefix [] lens b m); assumption.
    + apply (agree_on_valid_prefix 0%Z lens b m); assumption.
Qed.

Lemma compute_loss_padding_agree {Tok : Type} (self self' : Self Tok)
  (logits logits' : Tensor3 R) (b m o : nat) :
  let lens := input_sess_length (iterator self) in
  cls self' = cls self ->
  transitions self' = transitions self ->
  input_sess_length (iterator self') = lens ->
  length lens = b ->
  has_shape b m (target (iterator self)) ->
  has_shape b m (target (iterator self')) ->
  has_shape3 b m o logits ->
  has_shape3 b m o logits' ->
  (cls self = H_RNN_RNN_CRF -> has_shape o o (transitions self)) ->
  tags_in_range o (target (iterator self)) ->
  tags_in_range o (target (iterator self')) ->
  agree_on_valid 0%Z lens b m
                 (target (iterator self)) (target (iterator self')) ->
  agree_on_valid [] lens b m logits logits' ->
  exists loss s s',
    compute_loss self logits = Ok (loss, s)
    /\ compute_loss self' logits' = Ok (loss, s').
Proof.
  intros lens Hc HT Hlens Hn Ht Ht' Hl Hl' Ho Hr Hr' At Al.
  rewrite (compute_loss_value self logits b m o Ht Hl Hn Hr Ho).
  rewrite (compute_loss_value self' logits' b m o Ht' Hl')
    by (rewrite ?Hlens, ?Hc, ?HT; assumption).
  rewrite Hc, Hlens, HT; fold lens.
  destruct (cls self).
  4:{ rewrite (crf_log_likelihood_agree logits logits' _ _ lens
                 (transitions self) b m Hn Ht Ht' (proj1 Hl) (proj1 Hl')
                 At Al).
      do 3 eexists; split; reflexivity. }
  all: replace (map (crossent_at logits' (target (iterator self')))
                    (valid_positions lens b m))
         with (map (crossent_at logits (target (iterator self)))
                   (valid_positions lens b m));
    [do 3 eexists; split; reflexivity|].
  all: apply map_ext_in; intros [i j] Hp.
  all: apply valid_positions_In in Hp; destruct Hp as (Hi & Hj & Hv).
  all: unfold crossent_at.
  all: rewrite (At i j Hi Hj Hv), (Al i j Hi Hj Hv); reflexivity.
Qed.

(** *** From the batch to the logits *)





Ltac range_tac :=
  repeat constructor; lia.





(** Through [build_network]: two objects whose labels are all classes
    and that differ only in the targets of padding positions get the
    same logits and the same loss, whatever the layers are. *)
Lemma build_network_label_padding {Tok : Type} (layers : Layers Tok)
  (hparams : HParams) (self self' s1 : Self Tok) (logits : Tensor3 R)
  (loss : option Scalar) (b m o : nat) :
  let lens := input_sess_length (iterator self) in
  cls self' = cls self ->
  mode self' = mode self ->
  batch_size self' = batch_size self ->
  transitions self' = transitions self ->
  input (iterator self') = input (iterator self) ->
  input_uttr_length (iterator self') = input_uttr_length (iterator self) ->
  input_sess_length (iterator self') = lens ->
  length lens = b ->
  has_shape b m (target (iterator self)) ->
  has_shape b m (target (iterator self')) ->
  (cls self = H_RNN_RNN_CRF -> has_shape o o (transitions self)) ->
  tags_in_range o (target (iterator self)) ->
  tags_in_range o (target (iterator self')) ->
  agree_on_valid 0%Z lens b m
                 (target (iterator self)) (target (iterator self')) ->
  build_network layers hparams self = Ok ((logits, loss), s1) ->
  has_shape3 b m o logits ->
  exists s1', build_network layers hparams self' = Ok ((logits, loss), s1').
Proof.
  intros lens Hc Hmd Hbs HT Hin Hul Hlens Hn Ht Ht' Ho Hr Hr' At Hb Hl.
  unfold build_network in *.
  subst lens; rewrite Hc, Hmd, Hbs, Hin, Hul, Hlens.
  destruct (Reshape.reshape2 _ _) as [ri|e]; simpl in *; [|discriminate].
  destruct (Reshape.reshape3 _ _ _ _) as [re|e]; simpl in *; [|discriminate].
  destruct (ModeKeys_eqb (mode self) INFER).
  - injection Hb as <- <- _; exists self'; reflexivity.
  - match type of Hb with
    | context [compute_loss self ?L] => set (lg := L) in *
    end.
    destruct (compute_loss self lg) as [[v s2]|e] eqn:E1;
      simpl in Hb; [|discriminate].
    injection Hb as El <- _.
    rewrite <- El in Hl.
    destruct (compute_loss_padding_agree self self' lg lg b m o
                Hc HT Hlens Hn Ht Ht' Hl Hl Ho Hr Hr' At
                (fun i j _ _ _ => eq_refl)) as (v' & s & s' & E & E').
    rewrite E1 in E; injection E as <- <-.
    rewrite E'; simpl.
    exists s'; rewrite El; reflexivity.
Qed.

(** ** C3: a session of length 0 *)

Lemma skipn_map2 {A B C : Type} (f : A -> B -> C) (k : nat)
  (l : list A) (l' : list B) :
  skipn k (TF.map2 f l l') = TF.map2 f (skipn k l) (skipn k l').
Proof.
  revert l l'; induction k as [|k IH]; intros [|a l] [|b l']; simpl;
    try reflexivity.
  - destruct (skipn k l); reflexivity.
  - apply IH.
Qed.

Lemma map2_app {A B C : Type} (f : A -> B -> C) (a c : list A)
  (a' c' : list B) :
  length a = length a' ->
  TF.map2 f (a ++ c) (a' ++ c') = TF.map2 f a a' ++ TF.map2 f c c'.
Proof.
  revert a'; induction a as [|x a IH]; intros [|x' a'] H; simpl in *;
    try discriminate; [reflexivity|].
  rewrite IH by lia; reflexivity.
Qed.

Lemma remove_nth_map {A B : Type} (f : A -> B) (k : nat) (l : list A) :
  remove_nth k (map f l) = map f (remove_nth k l).
Proof.
  unfold remove_nth; rewrite map_app, firstn_map, skipn_map; reflexivity.
Qed.

Lemma remove_nth_map2 {A B C : Type} (f : A -> B -> C) (k : nat)
  (l : list A) (l' : list B) :
  length l = length l' ->
  remove_nth k (TF.map2 f l l')
  = TF.map2 f (remove_nth k l) (remove_nth k l').
Proof.
  intros H; unfold remove_nth.
  rewrite firstn_map2, skipn_map2, map2_app; [reflexivity|].
  rewrite !length_firstn; lia.
Qed.

Lemma combine_map2 {A B : Type} (l : list A) (l' : list B) :
  combine l l' = TF.map2 pair l l'.
Proof.
  revert l'; induction l as [|a l IH]; intros [|b l']; simpl;
    try reflexivity.
  rewrite IH; reflexivity.
Qed.

Lemma length_remove_nth {A : Type} (k : nat) (l : list A) :
  (k < length l)%nat -> length (remove_nth k l) = (length l - 1)%nat.
Proof.
  intros H; unfold remove_nth.
  rewrite length_app, length_firstn, length_skipn; lia.
Qed.

Lemma split_nth {A : Type} (d : A) (k : nat) (l : list A) :
  (k < length l)%nat -> l = firstn k l ++ nth k l d :: skipn (S k) l.
Proof.
  revert l; induction k as [|k IH]; intros [|a l] H; simpl in *; try lia.
  - reflexivity.
  - f_equal; apply IH; lia.
Qed.

Lemma concat_remove_nth {A : Type} (k : nat) (L : list (list A)) :
  nth k L [] = [] -> concat (remove_nth k L) = concat L.
Proof.
  intros H; unfold remove_nth.
  destruct (Nat.lt_ge_cases k (length L)) as [Hk|Hk].
  - rewrite (split_nth [] k L Hk) at 3.
    rewrite H, !concat_app; reflexivity.
  - rewrite firstn_all2, skipn_all2, app_nil_r by lia; reflexivity.
Qed.

Lemma reduce_sum_remove_nth (k : nat) (l : list R) :
  (k < length l)%nat ->
  TF.reduce_sum l = TF.reduce_sum (remove_nth k l) + nth k l 0.
Proof.
  intros Hk; unfold remove_nth.
  rewrite (split_nth 0 k l Hk) at 1.
  rewrite !reduce_sum_app; simpl; lra.
Qed.

Lemma boolean_mask_concat {A : Type} (t : Tensor2 A) (mask : Tensor2 bool) :
  TF.boolean_mask t mask = concat (TF.map2 TF.mask_row t mask).
Proof.
  revert mask; induction t as [|r t IH]; intros [|m mask]; simpl;
    try reflexivity.
  rewrite IH; reflexivity.
Qed.

Lemma mask_row_all_false {A : Type} (row : list A) (f : nat -> bool)
  (l : list nat) :
  (forall j, f j = false) -> TF.mask_row row (map f l) = [].
Proof.
  intros Hf; revert l; induction row as [|x row IH]; intros [|j l]; simpl;
    try reflexivity.
  rewrite Hf; apply IH.
Qed.

Lemma has_shape_remove_nth {A : Type} (b m k : nat) (t : Tensor2 A) :
  has_shape b m t -> (k < b)%nat -> has_shape (b - 1) m (remove_nth k t).
Proof.
  intros [Hb Hm] Hk; split.
  - rewrite length_remove_nth; lia.
  - unfold remove_nth; apply Forall_app; split.
    + rewrite <- (firstn_skipn k t) in Hm.
      apply Forall_app in Hm; tauto.
    + rewrite <- (firstn_skipn (S k) t) in Hm.
      apply Forall_app in Hm; tauto.
Qed.

(** Dropping a session of length 0 does not change the masked
    cross-entropies. *)
Lemma crossent_masked_drop (logits : Tensor3 R) (target_output : Tensor2 Z)
  (lens : list Z) (m k : nat) :
  length logits = length target_output ->
  length lens = length target_output ->
  nth k lens 0%Z = 0%Z ->
  TF.boolean_mask
    (crossents
       (remove_nth k target_output) (remove_nth k logits))
    (TF.sequence_mask (remove_nth k lens) m)
  = TF.boolean_mask
      (crossents target_output logits)
      (TF.sequence_mask lens m).
Proof.
  intros Hl Hn Hk.
  unfold crossents, TF.sequence_mask.
  rewrite <- remove_nth_map2, <- remove_nth_map by lia.
  rewrite !boolean_mask_concat.
  rewrite <- remove_nth_map2
    by (rewrite map2_length, length_map; lia).
  apply concat_remove_nth.
  destruct (Nat.lt_ge_cases k (length target_output)) as [Hlt|Hge].
  - rewrite (map2_nth TF.mask_row [] [] [])
      by (rewrite ?map2_length, ?length_map; lia).
    rewrite (nth_indep _ [] (TF.sequence_mask_row m 0%Z))
      by (rewrite length_map; lia).
    rewrite map_nth, Hk.
    apply mask_row_all_false; intros j.
    apply Z.ltb_ge; lia.
  - apply nth_overflow.
    rewrite !map2_length, length_map; lia.
Qed.

Lemma Forall_remove_nth {A : Type} (P : A -> Prop) (k : nat) (l : list A) :
  Forall P l -> Forall P (remove_nth k l).
Proof.
  intros H; unfold remove_nth.
  rewrite <- (firstn_skipn k l) in H.
  apply Forall_app in H; destruct H as [H1 H2].
  apply Forall_app; split; [exact H1|].
  replace (skipn (S k) l) with (skipn 1 (skipn k l))
    by (rewrite skipn_skipn; f_equal; lia).
  destruct (skipn k l) as [|x t]; [constructor|].
  inversion H2; assumption.
Qed.

Lemma has_shape3_remove_nth {A : Type} (b m o k : nat) (t : Tensor3 A) :
  has_shape3 b m o t -> (k < b)%nat ->
  has_shape3 (b - 1) m o (remove_nth k t).
Proof.
  intros [Hs Ho] Hk; split.
  - apply has_shape_remove_nth; assumption.
  - apply Forall_remove_nth, Ho.
Qed.

Lemma softmax_loss_drop {Tok : Type} (self : Self Tok) (logits : Tensor3 R)
  (b m o k : nat) :
  let lens := input_sess_length (iterator self) in
  let labels := target (iterator self) in
  has_shape b m labels ->
  has_shape3 b m o logits ->
  length lens = b ->
  tags_in_range o labels ->
  (k < b)%nat ->
  nth k lens 0%Z = 0%Z ->
  let loss :=
    TF.reduce_mean
      (map (crossent_at logits labels) (valid_positions lens b m)) in
  HModel.compute_loss self logits = Ok loss
  /\ HModel.compute_loss (drop_session k self) (remove_nth k logits)
     = Ok loss.
Proof.
  intros lens labels Ht Hl Hn Hr Hk H0 loss.
  subst loss labels lens.
  assert (E : HModel.compute_loss self logits
              = Ok (TF.reduce_mean
                      (map (crossent_at logits (target (iterator self)))
                           (valid_positions
                              (input_sess_length (iterator self)) b m)))).
  { rewrite (compute_loss_reduce_mean self logits b m Ht (proj1 Hl) Hn).
    rewrite (labels_in_range_of_tags b m o _ logits Hl Hr).
    reflexivity. }
  split; [exact E|].
  rewrite <- E.
  unfold HModel.compute_loss.
  cbn [drop_session drop_session_batch iterator target input_sess_length].
  rewrite !sparse_softmax_cross_entropy_spec.
  rewrite (labels_in_range_of_tags b m o _ logits Hl Hr).
  rewrite (labels_in_range_of_tags (b - 1) m o _ (remove_nth k logits)
             (has_shape3_remove_nth b m o k logits Hl Hk)
             (Forall_remove_nth _ k _ Hr)).
  cbn [bind].
  rewrite !truth_cast_mask.
  rewrite (shape1_has_shape b m (target (iterator self)) Ht _ Hn).
  rewrite (shape1_has_shape (b - 1) m (remove_nth k (target (iterator self)))
             (has_shape_remove_nth b m k _ Ht Hk))
    by (rewrite length_remove_nth; lia).
  rewrite crossent_masked_drop
    by (destruct Ht, Hl as [[? ?] ?]; congruence).
  reflexivity.
Qed.

(** The chain-structured loss with and without a session of length 0:
    the same sum of negative log-likelihoods, divided by [b] with the
    session and by [b - 1] without it. *)
Lemma crf_loss_drop {Tok : Type} (self : Self Tok) (logits : Tensor3 R)
  (b m o k : nat) :
  let lens := input_sess_length (iterator self) in
  let labels := target (iterator self) in
  has_shape b m labels ->
  has_shape3 b m o logits ->
  length lens = b ->
  tags_in_range o labels ->
  has_shape o o (transitions self) ->
  (k < b)%nat ->
  nth k lens 0%Z = 0%Z ->
  let self0 := drop_session k self in
  let nll :=
    map Ropp (log_likelihoods
                (remove_nth k logits) (target (iterator self0))
                (input_sess_length (iterator self0)) (transitions self)) in
  nth k (log_likelihoods logits labels lens (transitions self)) 0 = 0
  /\ H_RNN_RNN_CRF.compute_loss self logits
     = Ok (Val (TF.reduce_sum nll / INR b),
           set_transition_params self (transitions self))
  /\ H_RNN_RNN_CRF.compute_loss self0 (remove_nth k logits)
     = Ok (TF.reduce_mean nll,
           set_transition_params self0 (transitions self))
  /\ length nll = (b - 1)%nat.
Proof.
  intros lens labels Hts Hls Hn Hr HT Hk H0 self0 nll.
  assert (Ht := proj1 Hts); assert (Hl := proj1 (proj1 Hls)).
  set (ll := log_likelihoods logits labels lens (transitions self)).
  assert (Hlen : length ll = b)
    by (apply crf_log_likelihood_length; assumption).
  assert (Hz : nth k ll 0 = 0).
  { unfold ll; rewrite (crf_log_likelihood_nth _ _ _ _ b) by assumption.
    apply crf_log_likelihood_row_empty; fold lens; lia. }
  assert (Hnll : nll = remove_nth k (map Ropp ll)).
  { unfold nll, ll, log_likelihoods; simpl.
    rewrite !combine_map2.
    rewrite remove_nth_map, !remove_nth_map2
      by (rewrite ?map2_length; subst lens labels; lia).
    reflexivity. }
  split; [exact Hz|].
  split; [|split].
  - unfold H_RNN_RNN_CRF.compute_loss; fold labels; fold lens.
    rewrite (crf_log_likelihood_values b m o logits labels lens
               (transitions self) Hls Hts Hn Hr HT).
    cbn [bind]; fold ll.
    rewrite Hnll.
    assert (Hs : TF.reduce_sum (map Ropp ll)
                 = TF.reduce_sum (remove_nth k (map Ropp ll))).
    { rewrite (reduce_sum_remove_nth k (map Ropp ll))
        by (rewrite length_map; lia).
      rewrite (nth_indep _ 0 (- 0)) by (rewrite length_map; lia).
      rewrite map_nth, Hz; lra. }
    rewrite <- Hs.
    destruct ll as [|x ll']; [simpl in Hlen; lia|].
    simpl; rewrite length_map; simpl in Hlen; rewrite <- Hlen.
    reflexivity.
  - unfold H_RNN_RNN_CRF.compute_loss.
    rewrite (crf_log_likelihood_values (b - 1) m o (remove_nth k logits)
               (target (iterator self0)) (input_sess_length (iterator self0))
               (transitions self0)).
    + reflexivity.
    + apply has_shape3_remove_nth; assumption.
    + apply has_shape_remove_nth; assumption.
    + simpl; rewrite length_remove_nth; fold lens; lia.
    + apply Forall_remove_nth, Hr.
    + exact HT.
  - rewrite Hnll, length_remove_nth, length_map by (rewrite length_map; lia).
    lia.
Qed.

(** C3, amended. Let session [k] of a batch of [b] sessions, whose labels
    are all classes, have length 0. For the independent-softmax loss the
    session is ignored: the loss equals the loss of the batch without it,
    and it is a real value (the masked count is not zero) as soon as the
    batch has a valid position. For the chain-structured loss, with its
    square matrix of transition scores, the session has log-likelihood 0
    and so adds nothing to the summed negative log-likelihood, but the
    mean is taken over all [b] sessions: the loss is that sum divided by
    [b], against the same sum divided by [b - 1] without the session.
    Neither raises. *)
Theorem zero_length_session_loss {Tok : Type} (self : Self Tok)
  (logits : Tensor3 R) (b m o k : nat) :
  let lens := input_sess_length (iterator self) in
  has_shape b m (target (iterator self)) ->
  has_shape3 b m o logits ->
  length lens = b ->
  tags_in_range o (target (iterator self)) ->
  (k < b)%nat ->
  nth k lens 0%Z = 0%Z ->
  let self0 := drop_session k self in
  let logits0 := remove_nth k logits in
  let nll :=
    map Ropp (log_likelihoods
                logits0 (target (iterator self0))
                (input_sess_length (iterator self0)) (transitions self)) in
  (exists loss,
     HModel.compute_loss self logits = Ok loss
     /\ HModel.compute_loss self0 logits0 = Ok loss
     /\ (valid_positions lens b m <> [] -> exists v, loss = Val v))
  /\ (has_shape o o (transitions self) ->
      nth k (log_likelihoods logits (target (iterator self)) lens
               (transitions self)) 0 = 0
      /\ H_RNN_RNN_CRF.compute_loss self logits
         = Ok (Val (TF.reduce_sum nll / INR b),
               set_transition_params self (transitions self))
      /\ H_RNN_RNN_CRF.compute_loss self0 logits0
         = Ok (TF.reduce_mean nll,
               set_transition_params self0 (transitions self))
      /\ length nll = (b - 1)%nat).
Proof.
  intros lens Ht Hl Hn Hr Hk H0 self0 logits0 nll.
  split.
  - destruct (softmax_loss_drop self logits b m o k Ht Hl Hn Hr Hk H0)
      as [E1 E2].
    eexists; split; [exact E1|].
    split; [exact E2|].
    intros Hv; eexists; apply reduce_mean_nonempty, Hv.
  - intros HT; apply (crf_loss_drop self logits b m o k); assumption.
Qed.

Lemma empty_session_first_row :
  log_likelihood [[0; 0]; [0; 0]] [[0; 0]] [0%Z] 1 = - ln 2.
Proof.
  unfold log_likelihood, sequence_score,
    unary_score, binary_score, CRF.crf_log_norm,
    TF.reduce_logsumexp, entry, TF.cast_float.
  simpl.
  rewrite exp_0.
  replace (1 + (1 + 0)) with 2 by lra.
  lra.
Qed.

Lemma ln_2_pos : 0 < ln 2.
Proof.
  rewrite <- ln_1; apply ln_increasing; lra.
Qed.

(** C3 as stated fails for the chain-structured loss: on a batch of one
    session of length 1 and one of length 0, the loss is [ln 2 / 2], and
    without the empty session it is [ln 2]. *)
Lemma zero_length_session_crf_loss_differs :
  let self := empty_session_model H_RNN_RNN_CRF in
  let self0 := drop_session 1 self in
  nth 1 (input_sess_length (iterator self)) 0%Z = 0%Z
  /\ compute_loss self empty_session_logits
     = Ok (Val (ln 2 / 2), set_transition_params self (transitions self))
  /\ compute_loss self0 (remove_nth 1 empty_session_logits)
     = Ok (Val (ln 2), set_transition_params self0 (transitions self))
  /\ Val (ln 2 / 2) <> Val (ln 2).
Proof.
  intros self self0.
  split; [reflexivity|].
  split; [|split].
  - rewrite (compute_loss_value self empty_session_logits 2 1 2);
      try shape_tac; try range_tac; try (intros _; shape_tac).
    cbn [cls self empty_session_model].
    do 2 f_equal.
    unfold log_likelihoods; simpl.
    rewrite empty_session_first_row.
    rewrite crf_log_likelihood_row_empty by lia.
    f_equal; lra.
  - rewrite (compute_loss_value self0 (remove_nth 1 empty_session_logits)
               1 1 2);
      try shape_tac; try range_tac; try (intros _; shape_tac).
    cbn [cls self0 self drop_session empty_session_model].
    do 2 f_equal.
    unfold log_likelihoods; simpl.
    rewrite empty_session_first_row.
    f_equal; lra.
  - intros H; injection H as H.
    pose proof ln_2_pos; lra.
Qed.

Lemma zero_length_session_loss_example :
  let self := empty_session_model H_RNN_RNN in
  (exists loss,
     HModel.compute_loss self empty_session_logits = Ok loss
     /\ HModel.compute_loss (drop_session 1 self)
                            (remove_nth 1 empty_session_logits) = Ok loss
     /\ exists v, loss = Val v)
  /\ H_RNN_RNN_CRF.compute_loss self empty_session_logits
     = Ok (Val (TF.reduce_sum
                  (map Ropp (log_likelihoods
                               [[[0; 0]]] [[0%Z]] [1%Z] (transitions self)))
                / INR 2),
           set_transition_params self (transitions self)).
Proof.
  intros self.
  assert (Ht : has_shape 2 1 (target (iterator self))) by shape_tac.
  assert (Hl : has_shape3 2 1 2 empty_session_logits) by shape_tac.
  assert (Hr : tags_in_range 2 (target (iterator self))) by range_tac.
  assert (HT : has_shape 2 2 (transitions self)) by shape_tac.
  destruct (zero_length_session_loss self empty_session_logits 2 1 2 1
              Ht Hl eq_refl Hr)
    as [(loss & E1 & E2 & E3) H];
    [lia|reflexivity|].
  destruct (H HT) as (_ & E4 & _).
  split; [|exact E4].
  exists loss; split; [exact E1|].
  split; [exact E2|apply E3; discriminate].
Defined.

(** ** C6: the chain-structured decoding finds a best path *)

Lemma argmax_from_spec (l : list R) :
  forall pre best bv,
    (best < length pre)%nat ->
    nth best pre 0 = bv ->
    (forall a, (a < length pre)%nat -> nth a pre 0 <= bv) ->
    let r := TF.argmax_from best bv (length pre) l in
    (r < length (pre ++ l))%nat
    /\ (forall a, (a < length (pre ++ l))%nat ->
                  nth a (pre ++ l) 0 <= nth r (pre ++ l) 0)
    /\ fold_left Rmax l bv = nth r (pre ++ l) 0.
Proof.
  induction l as [|x l IH]; intros pre best bv Hb Hv Hmax; simpl.
  - rewrite app_nil_r; repeat split; try assumption.
    + intros a Ha; rewrite Hv; apply Hmax, Ha.
    + symmetry; exact Hv.
  - assert (Hlen : length (pre ++ [x]) = S (length pre))
      by (rewrite length_app; simpl; lia).
    assert (Hx : nth (length pre) (pre ++ [x]) 0 = x)
      by (apply nth_middle).
    assert (Hpre : forall a, (a < length pre)%nat ->
                             nth a (pre ++ [x]) 0 = nth a pre 0)
      by (intros a Ha; apply app_nth1, Ha).
    replace (pre ++ x :: l) with ((pre ++ [x]) ++ l)
      by (rewrite <- app_assoc; reflexivity).
    rewrite <- Hlen.
    destruct (Rlt_dec bv x) as [C|C].
    + replace (Rmax bv x) with x by (rewrite Rmax_right; lra).
      apply IH; [lia|exact Hx|].
      intros a Ha.
      destruct (Nat.eq_dec a (length pre)) as [->|Hne]; [rewrite Hx; lra|].
      rewrite Hpre by lia.
      assert (nth a pre 0 <= bv) by (apply Hmax; lia); lra.
    + replace (Rmax bv x) with bv by (rewrite Rmax_left; lra).
      apply IH; [lia|rewrite Hpre; assumption|].
      intros a Ha.
      destruct (Nat.eq_dec a (length pre)) as [->|Hne]; [rewrite Hx; lra|].
      rewrite Hpre by lia; apply Hmax; lia.
Qed.

(** [tf.argmax] points at an entry that is maximal, the one that
    [tf.reduce_max] returns. *)
Lemma argmax_spec (l : list R) :
  l <> [] ->
  (TF.argmax l < length l)%nat
  /\ (forall a, (a < length l)%nat -> nth a l 0 <= nth (TF.argmax l) l 0)
  /\ TF.reduce_max l = nth (TF.argmax l) l 0.
Proof.
  destruct l as [|x l]; [contradiction|]; intros _.
  apply (argmax_from_spec l [x] 0%nat x); simpl; try lia; try reflexivity.
  intros a Ha; destruct a; [lra|lia].
Qed.





Section Viterbi.

Variable T : Tensor2 R.
Variable o : nat.
Hypothesis o_pos : (0 < o)%nat.




End Viterbi.



















(** The decoding is a search over whole paths: with a penalty on staying
    in class 0, the decoded path of a session whose every position
    prefers class 0 leaves class 0, while the arg-max per position does
    not. *)
Lemma crf_decode_not_per_position :
  CRF.crf_decode_row [[-10; 0]; [0; 0]] [[1; 0]; [1; 0]] 2 = [1; 0]%Z
  /\ map (fun row => Z.of_nat (TF.argmax row)) [[1; 0]; [1; 0]] = [0; 0]%Z.
Proof.
  unfold CRF.crf_decode_row, CRF.CrfDecodeForwardRnnCell,
    CRF.CrfDecodeBackwardRnnCell, CRF.transition_scores, CRF.reverse_sequence,
    TF.reduce_max, TF.argmax, Rmax.
  simpl.
  repeat match goal with
         | |- context [Rle_dec ?a ?b] => destruct (Rle_dec a b); try lra
         end.
  repeat match goal with
         | |- context [Rlt_dec ?a ?b] => destruct (Rlt_dec a b); try lra
         end.
  split; reflexivity.
Qed.

(** ** C9: the arg-max of the softmax and the arg-max of the logits *)

(** *** Rounding to float32 *)

Lemma rne_bounds (x : R) :
  (Zfloor x <= Float32.rne x <= Zfloor x + 1)%Z.
Proof.
  unfold Float32.rne.
  repeat destruct (Rlt_dec _ _); try destruct (Z.even _); lia.
Qed.

Lemma rne_IZR (n : Z) : Float32.rne (IZR n) = n.
Proof.
  unfold Float32.rne; rewrite ZfloorZ.
  replace (IZR n - IZR n) with 0 by ring.
  destruct (Rlt_dec 0 (1 / 2)); [reflexivity|lra].
Qed.

Lemma rne_near (n : Z) (x : R) :
  IZR n - 1 / 2 < x < IZR n + 1 / 2 -> Float32.rne x = n.
Proof.
  intros [H1 H2]; unfold Float32.rne.
  destruct (Rle_lt_dec (IZR n) x) as [Hn|Hn].
  - rewrite (Zfloor_eq n x) by lra.
    destruct (Rlt_dec (x - IZR n) (1 / 2)); [reflexivity|lra].
  - rewrite (Zfloor_eq (n - 1) x) by (rewrite minus_IZR; lra).
    rewrite minus_IZR.
    repeat destruct (Rlt_dec _ _); try lra; lia.
Qed.

Lemma rne_le (x y : R) : x <= y -> (Float32.rne x <= Float32.rne y)%Z.
Proof.
  intros H.
  pose proof (Zfloor_le x y H) as Hf.
  pose proof (rne_bounds x) as Bx; pose proof (rne_bounds y) as By.
  destruct (Z.eq_dec (Zfloor x) (Zfloor y)) as [E|E]; [|lia].
  unfold Float32.rne in *; rewrite E in *.
  repeat destruct (Rlt_dec _ _);
    try destruct (Z.even (Zfloor y)); try lia; lra.
Qed.

Lemma rne_opp (x : R) : Float32.rne (- x) = (- Float32.rne x)%Z.
Proof.
  pose proof (Zfloor_bound x) as [B1 B2].
  destruct (Req_dec x (IZR (Zfloor x))) as [E|E].
  - rewrite E, <- opp_IZR, !rne_IZR; reflexivity.
  - assert (Ef : Zfloor (- x) = (- Zfloor x - 1)%Z).
    { apply Zfloor_eq; rewrite minus_IZR, opp_IZR; lra. }
    unfold Float32.rne; rewrite Ef, minus_IZR, opp_IZR.
    replace (Z.even (- Zfloor x - 1)) with (negb (Z.even (Zfloor x))).
    2:{ replace (- Zfloor x - 1)%Z with (- (Zfloor x + 1))%Z by lia.
        rewrite Z.even_opp, Z.even_add; simpl.
        destruct (Z.even (Zfloor x)); reflexivity. }
    repeat destruct (Rlt_dec _ _);
      try lra; try destruct (Z.even (Zfloor x)); simpl; lia.
Qed.

Lemma pow2_pos (k : Z) : 0 < powerRZ 2 k.
Proof. apply powerRZ_lt; lra. Qed.

Lemma pow2_add (a b : Z) : powerRZ 2 (a + b) = powerRZ 2 a * powerRZ 2 b.
Proof. apply powerRZ_add; lra. Qed.

Lemma pow2_exp (k : Z) : powerRZ 2 k = exp (IZR k * ln 2).
Proof. rewrite powerRZ_Rpower by lra; reflexivity. Qed.

Lemma pow2_le (a b : Z) : (a <= b)%Z -> powerRZ 2 a <= powerRZ 2 b.
Proof.
  intros H; rewrite !pow2_exp.
  destruct (Z.eq_dec a b) as [->|N]; [lra|].
  left; apply exp_increasing.
  apply Rmult_lt_compat_r; [apply ln_2_pos|apply IZR_lt; lia].
Qed.

(** The binade of a positive number. *)
Lemma log2_floor_bounds (x : R) :
  0 < x ->
  let k := Zfloor (ln x / ln 2) in
  powerRZ 2 k <= x < powerRZ 2 (k + 1).
Proof.
  intros Hx k.
  pose proof (Zfloor_bound (ln x / ln 2)) as [B1 B2]; fold k in B1, B2.
  pose proof ln_2_pos as L.
  rewrite !pow2_exp, plus_IZR.
  assert (E : ln x = ln x / ln 2 * ln 2) by (field; lra).
  assert (Ex : exp (ln x) = x) by (apply exp_ln, Hx).
  split.
  - rewrite <- Ex at 1.
    destruct B1 as [B1|B1].
    + left; apply exp_increasing; rewrite E.
      apply Rmult_lt_compat_r; assumption.
    + rewrite B1, <- E; lra.
  - rewrite <- Ex at 1.
    apply exp_increasing; rewrite E.
    apply Rmult_lt_compat_r; assumption.
Qed.

Lemma log2_floor_unique (x : R) (k : Z) :
  powerRZ 2 k <= x < powerRZ 2 (k + 1) -> Zfloor (ln x / ln 2) = k.
Proof.
  intros [H1 H2].
  assert (Hx : 0 < x) by (pose proof (pow2_pos k); lra).
  pose proof ln_2_pos as L.
  apply Zfloor_eq.
  rewrite !pow2_exp in *.
  rewrite <- plus_IZR.
  split.
  - apply Rmult_le_reg_r with (ln 2); [exact L|].
    replace (ln x / ln 2 * ln 2) with (ln x) by (field; lra).
    destruct H1 as [H1|H1].
    + left; apply exp_lt_inv; rewrite exp_ln; assumption.
    + rewrite <- H1, ln_exp; lra.
  - apply Rmult_lt_reg_r with (ln 2); [exact L|].
    replace (ln x / ln 2 * ln 2) with (ln x) by (field; lra).
    apply exp_lt_inv; rewrite exp_ln; assumption.
Qed.

Lemma exponent_at (x : R) (k : Z) :
  (-126 <= k)%Z -> powerRZ 2 k <= Rabs x < powerRZ 2 (k + 1) ->
  Float32.exponent x = k.
Proof.
  intros Hk H; unfold Float32.exponent.
  rewrite (log2_floor_unique _ k H); lia.
Qed.

Lemma exponent_opp (x : R) : Float32.exponent (- x) = Float32.exponent x.
Proof. unfold Float32.exponent; rewrite Rabs_Ropp; reflexivity. Qed.

Lemma ulp_pos (x : R) : 0 < Float32.ulp x.
Proof. apply pow2_pos. Qed.

Lemma round_opp (x : R) : Float32.round (- x) = - Float32.round x.
Proof.
  unfold Float32.round, Float32.ulp; rewrite exponent_opp.
  replace (- x / powerRZ 2 (Float32.exponent x - 23))
    with (- (x / powerRZ 2 (Float32.exponent x - 23)))
    by (field; apply Rgt_not_eq, pow2_pos).
  rewrite rne_opp, opp_IZR; ring.
Qed.

Lemma round_0 : Float32.round 0 = 0.
Proof.
  unfold Float32.round.
  replace (0 / Float32.ulp 0) with (IZR 0)
    by (unfold Rdiv; rewrite Rmult_0_l; reflexivity).
  rewrite rne_IZR; ring.
Qed.

Lemma round_nonneg (x : R) : 0 <= x -> 0 <= Float32.round x.
Proof.
  intros H; unfold Float32.round.
  pose proof (ulp_pos x) as U.
  apply Rmult_le_pos; [|lra].
  apply IZR_le; rewrite <- (rne_IZR 0); apply rne_le.
  apply Rmult_le_pos; [exact H|left; apply Rinv_0_lt_compat, U].
Qed.

(** The binade of a positive number, with subnormals. *)
Lemma exponent_bounds (x : R) :
  0 < x ->
  let e := Float32.exponent x in
  x < powerRZ 2 (e + 1) /\ ((-126 < e)%Z -> powerRZ 2 e <= x).
Proof.
  intros Hx e; subst e; unfold Float32.exponent.
  rewrite (Rabs_pos_eq x) by lra.
  destruct (log2_floor_bounds x Hx) as [B1 B2].
  set (k := Zfloor (ln x / ln 2)) in *.
  split.
  - apply Rlt_le_trans with (1 := B2), pow2_le; lia.
  - intros H; replace (Z.max k (-126)) with k by lia; exact B1.
Qed.

Lemma exponent_le (x y : R) :
  0 < x -> x <= y -> (Float32.exponent x <= Float32.exponent y)%Z.
Proof.
  intros Hx Hxy; unfold Float32.exponent.
  rewrite !Rabs_pos_eq by lra.
  apply Z.max_le_compat_r, Zfloor_le.
  pose proof ln_2_pos as L.
  apply Rmult_le_compat_r; [left; apply Rinv_0_lt_compat, L|].
  destruct Hxy as [Hxy| ->]; [left; apply ln_increasing; assumption|lra].
Qed.

Lemma rne_le_Z (x : R) (n : Z) : x <= IZR n -> (Float32.rne x <= n)%Z.
Proof. intros H; rewrite <- (rne_IZR n); apply rne_le, H. Qed.

Lemma rne_ge_Z (x : R) (n : Z) : IZR n <= x -> (n <= Float32.rne x)%Z.
Proof. intros H; rewrite <- (rne_IZR n); apply rne_le, H. Qed.

Lemma pow2_IZR (n : Z) : (0 <= n)%Z -> powerRZ 2 n = IZR (2 ^ n).
Proof.
  intros H; rewrite <- (Z2Nat.id n H).
  rewrite <- pow_powerRZ, <- pow_IZR; reflexivity.
Qed.

Lemma round_le_pos (x y : R) :
  0 < x -> x <= y -> Float32.round x <= Float32.round y.
Proof.
  intros Hx Hxy.
  pose proof (exponent_le x y Hx Hxy) as He.
  destruct (exponent_bounds x Hx) as [Bx _].
  destruct (exponent_bounds y ltac:(lra)) as [_ By].
  unfold Float32.round, Float32.ulp.
  set (ex := Float32.exponent x) in *; set (ey := Float32.exponent y) in *.
  pose proof (pow2_pos (ex - 23)) as Ux; pose proof (pow2_pos (ey - 23)) as Uy.
  destruct (Z.eq_dec ex ey) as [E|E].
  - rewrite E in *.
    apply Rmult_le_compat_r; [lra|].
    apply IZR_le, rne_le.
    apply Rmult_le_compat_r; [left; apply Rinv_0_lt_compat, Uy|exact Hxy].
  - assert (Hlt : (ex < ey)%Z) by lia.
    assert (H126 : (-126 <= ex)%Z) by (unfold ex, Float32.exponent; lia).
    apply Rle_trans with (powerRZ 2 (ex + 1)).
    + replace (ex + 1)%Z with (24 + (ex - 23))%Z by lia.
      rewrite pow2_add.
      apply Rmult_le_compat_r; [lra|].
      rewrite (pow2_IZR 24) by lia.
      apply IZR_le, rne_le_Z.
      rewrite <- (pow2_IZR 24) by lia.
      apply Rmult_le_reg_r with (powerRZ 2 (ex - 23)); [exact Ux|].
      unfold Rdiv; rewrite Rmult_assoc, Rinv_l, Rmult_1_r by lra.
      rewrite <- pow2_add.
      replace (24 + (ex - 23))%Z with (ex + 1)%Z by lia; lra.
    + apply Rle_trans with (powerRZ 2 ey); [apply pow2_le; lia|].
      replace ey with (23 + (ey - 23))%Z at 1 by lia.
      rewrite pow2_add.
      apply Rmult_le_compat_r; [lra|].
      rewrite (pow2_IZR 23) by lia.
      apply IZR_le, rne_ge_Z.
      rewrite <- (pow2_IZR 23) by lia.
      apply Rmult_le_reg_r with (powerRZ 2 (ey - 23)); [exact Uy|].
      unfold Rdiv; rewrite Rmult_assoc, Rinv_l, Rmult_1_r by lra.
      rewrite <- pow2_add.
      replace (23 + (ey - 23))%Z with ey by lia.
      apply By; lia.
Qed.

(** Rounding is monotone. *)
Lemma round_le (x y : R) : x <= y -> Float32.round x <= Float32.round y.
Proof.
  intros H.
  destruct (Rlt_le_dec 0 x) as [Hx|Hx].
  - apply round_le_pos; assumption.
  - destruct (Rle_lt_dec 0 y) as [Hy|Hy].
    + apply Rle_trans with 0; [|apply round_nonneg, Hy].
      apply Ropp_le_cancel; rewrite <- round_opp, Ropp_0.
      apply round_nonneg; lra.
    + apply Ropp_le_cancel; rewrite <- !round_opp.
      apply round_le_pos; lra.
Qed.

(** In the binade of exponent [k], rounding is to a multiple of
    [2 ^ (k - 23)]. *)
Lemma round_at (x : R) (k : Z) :
  (-126 <= k)%Z -> powerRZ 2 k <= Rabs x < powerRZ 2 (k + 1) ->
  Float32.round x
  = IZR (Float32.rne (x / powerRZ 2 (k - 23))) * powerRZ 2 (k - 23).
Proof.
  intros Hk H; unfold Float32.round, Float32.ulp.
  rewrite (exponent_at x k Hk H); reflexivity.
Qed.

Lemma round_exact (m k : Z) :
  (-126 <= k)%Z ->
  powerRZ 2 k <= Rabs (IZR m * powerRZ 2 (k - 23)) < powerRZ 2 (k + 1) ->
  Float32.round (IZR m * powerRZ 2 (k - 23)) = IZR m * powerRZ 2 (k - 23).
Proof.
  intros Hk H; rewrite (round_at _ k Hk H).
  pose proof (pow2_pos (k - 23)) as U.
  replace (IZR m * powerRZ 2 (k - 23) / powerRZ 2 (k - 23)) with (IZR m)
    by (field; lra).
  rewrite rne_IZR; reflexivity.
Qed.

Lemma round_1 : Float32.round 1 = 1.
Proof.
  replace 1 with (IZR (2 ^ 23) * powerRZ 2 (0 - 23)) at 1 2.
  2:{ simpl; lra. }
  apply round_exact; [lia|].
  replace (IZR (2 ^ 23) * powerRZ 2 (0 - 23)) with 1 by (simpl; lra).
  rewrite Rabs_R1; simpl; lra.
Qed.

Lemma pow2_lt (a b : Z) : (a < b)%Z -> powerRZ 2 a < powerRZ 2 b.
Proof.
  intros H; rewrite !pow2_exp.
  apply exp_increasing.
  apply Rmult_lt_compat_r; [apply ln_2_pos|apply IZR_lt; lia].
Qed.

(** A number with a mantissa of 24 bits is rounded to itself. *)
Lemma round_dyadic (x : R) (mant k : Z) :
  (-126 <= k)%Z ->
  x = IZR mant * powerRZ 2 (k - 23) ->
  powerRZ 2 k <= Rabs x < powerRZ 2 (k + 1) ->
  Float32.round x = x.
Proof.
  intros Hk -> H; apply round_exact; assumption.
Qed.

Lemma round_2 : Float32.round 2 = 2.
Proof.
  apply (round_dyadic 2 (2 ^ 23) 1); [lia|simpl; lra|].
  rewrite Rabs_pos_eq by lra; simpl; lra.
Qed.

Lemma round_half : Float32.round (1 / 2) = 1 / 2.
Proof.
  apply (round_dyadic (1 / 2) (2 ^ 23) (-1)); [lia|simpl; lra|].
  rewrite Rabs_pos_eq by lra; simpl; lra.
Qed.

Lemma round_3_2 : Float32.round (3 / 2) = 3 / 2.
Proof.
  apply (round_dyadic (3 / 2) (3 * 2 ^ 22) 0); [lia|simpl; lra|].
  rewrite Rabs_pos_eq by lra; simpl; lra.
Qed.

Lemma round_5_8 : Float32.round (5 / 8) = 5 / 8.
Proof.
  apply (round_dyadic (5 / 8) (5 * 2 ^ 21) (-1)); [lia|simpl; lra|].
  rewrite Rabs_pos_eq by lra; simpl; lra.
Qed.

Lemma round_pow2 (k : Z) :
  (-126 <= k)%Z -> Float32.round (powerRZ 2 k) = powerRZ 2 k.
Proof.
  intros Hk.
  apply (round_dyadic _ (2 ^ 23) k Hk).
  - rewrite <- (pow2_IZR 23) by lia.
    rewrite <- pow2_add; f_equal; lia.
  - rewrite Rabs_pos_eq by (left; apply pow2_pos).
    split; [lra|apply pow2_lt; lia].
Qed.

(** The exponential of a small negative number is rounded to 1. *)
Lemma round_exp_small (t : R) :
  0 <= t <= powerRZ 2 (-26) -> Float32.round (exp (- t)) = 1.
Proof.
  intros [H0 Ht].
  assert (E26 : powerRZ 2 (-26) = / 67108864) by (simpl; lra).
  rewrite E26 in Ht.
  pose proof (exp_ineq1_le (- t)) as Hlo.
  assert (Hhi : exp (- t) <= 1).
  { rewrite <- exp_0.
    destruct H0 as [H0|<-]; [left; apply exp_increasing; lra|].
    rewrite Ropp_0; lra. }
  destruct Hhi as [Hhi|Heq]; [|rewrite Heq; apply round_1].
  rewrite (round_at _ (-1)); [|lia|].
  - assert (E24 : powerRZ 2 (-1 - 23) = / 16777216) by (simpl; lra).
    rewrite E24.
    rewrite (rne_near 16777216); [lra|].
    unfold Rdiv; rewrite Rinv_inv; lra.
  - rewrite Rabs_pos_eq by lra.
    simpl; lra.
Qed.

(** *** The softmax kernel keeps the order of the scores, weakly *)

Lemma fold_round_nonneg (l : list R) (s : R) :
  Forall (fun x => 0 <= x) l -> 0 <= s ->
  0 <= fold_left (fun s x => Float32.round (s + x)) l s.
Proof.
  intros Hl; revert s; induction Hl as [|x l Hx Hl IH]; intros s Hs;
    [exact Hs|].
  simpl; apply IH, round_nonneg; lra.
Qed.

(** The probabilities are the rounded products of the rounded
    exponentials of the shifted scores with one factor that is not
    negative. *)
Lemma softmax_row_form (row : list R) :
  exists c,
    0 <= c
    /\ TF.softmax_row row
       = map (fun x =>
                Float32.round
                  (Float32.round
                     (exp (Float32.round (x - TF.reduce_max row))) * c))
             row.
Proof.
  unfold TF.softmax_row; rewrite !map_map.
  eexists; split; [|reflexivity].
  apply round_nonneg.
  match goal with
  | |- 0 <= 1 / ?s =>
      assert (Hs : 0 <= s);
      [|destruct Hs as [Hs| <-];
        [left; apply Rdiv_lt_0_compat; lra
        |unfold Rdiv; rewrite Rinv_0; lra]]
  end.
  apply fold_round_nonneg; [|lra].
  rewrite Forall_map, Forall_forall; intros x _.
  apply round_nonneg; left; apply exp_pos.
Qed.

Lemma softmax_row_length (row : list R) :
  length (TF.softmax_row row) = length row.
Proof.
  unfold TF.softmax_row; rewrite !length_map; reflexivity.
Qed.

Lemma softmax_row_monotone (row : list R) (a b : nat) :
  (a < length row)%nat -> (b < length row)%nat ->
  nth a row 0 <= nth b row 0 ->
  nth a (TF.softmax_row row) 0 <= nth b (TF.softmax_row row) 0.
Proof.
  intros Ha Hb Hab.
  destruct (softmax_row_form row) as (c & Hc & ->).
  set (g := fun x => Float32.round
                       (Float32.round
                          (exp (Float32.round (x - TF.reduce_max row))) * c)).
  rewrite !(nth_indep (map g row) 0 (g 0)) by (rewrite length_map; lia).
  rewrite !map_nth; unfold g.
  apply round_le, Rmult_le_compat_r; [exact Hc|].
  apply round_le.
  assert (H : Float32.round (nth a row 0 - TF.reduce_max row)
              <= Float32.round (nth b row 0 - TF.reduce_max row))
    by (apply round_le; lra).
  destruct H as [H| ->]; [left; apply exp_increasing, H|lra].
Qed.

(** *** What the decoded label is *)

Lemma argmax_from_first (l : list R) :
  forall pre best bv,
    (best < length pre)%nat ->
    nth best pre 0 = bv ->
    (forall a, (a < length pre)%nat -> nth a pre 0 <= bv) ->
    (forall a, (a < best)%nat -> nth a pre 0 < bv) ->
    let r := TF.argmax_from best bv (length pre) l in
    forall a, (a < r)%nat -> nth a (pre ++ l) 0 < nth r (pre ++ l) 0.
Proof.
  induction l as [|x l IH]; intros pre best bv Hb Hv Hmax Hfirst; simpl.
  - rewrite app_nil_r, Hv; exact Hfirst.
  - assert (Hlen : length (pre ++ [x]) = S (length pre))
      by (rewrite length_app; simpl; lia).
    assert (Hx : nth (length pre) (pre ++ [x]) 0 = x)
      by (apply nth_middle).
    assert (Hpre : forall a, (a < length pre)%nat ->
                             nth a (pre ++ [x]) 0 = nth a pre 0)
      by (intros a Ha; apply app_nth1, Ha).
    replace (pre ++ x :: l) with ((pre ++ [x]) ++ l)
      by (rewrite <- app_assoc; reflexivity).
    rewrite <- Hlen.
    destruct (Rlt_dec bv x) as [C|C].
    + apply IH; [lia|exact Hx| |].
      * intros a Ha.
        destruct (Nat.eq_dec a (length pre)) as [->|Hne];
          [rewrite Hx; lra|].
        rewrite Hpre by lia.
        assert (nth a pre 0 <= bv) by (apply Hmax; lia); lra.
      * intros a Ha; rewrite Hpre by lia.
        assert (nth a pre 0 <= bv) by (apply Hmax; lia); lra.
    + apply IH; [lia|rewrite Hpre; assumption| |].
      * intros a Ha.
        destruct (Nat.eq_dec a (length pre)) as [->|Hne];
          [rewrite Hx; lra|].
        rewrite Hpre by lia; apply Hmax; lia.
      * intros a Ha; rewrite Hpre by lia; apply Hfirst, Ha.
Qed.

Lemma argmax_first (l : list R) (a : nat) :
  (a < TF.argmax l)%nat -> nth a l 0 < nth (TF.argmax l) l 0.
Proof.
  destruct l as [|x l]; [simpl; lia|].
  apply (argmax_from_first l [x] 0%nat x); simpl; try lia; try reflexivity.
  intros c Hc; destruct c; [lra|lia].
Qed.

(** C9, amended. On logits of shape [b, m, o] with at least one class,
    the label that [HModel.compute_labels] decodes at a position is the
    first class whose float32 softmax probability is maximal. Every
    class before it has a smaller probability and a smaller logit; a
    class with a larger logit has exactly the same probability, the
    softmax having rounded the difference away. The label is the arg-max
    of the logits of the position when the softmax keeps the strict
    order of these logits. *)
Theorem compute_labels_argmax_softmax (logits : Tensor3 R) (b m o : nat) :
  has_shape3 b m o logits ->
  (0 < o)%nat ->
  has_shape b m (HModel.compute_labels logits)
  /\ forall i j, (i < b)%nat -> (j < m)%nat ->
       let row := at2 [] logits (i, j) in
       let p := TF.softmax_row row in
       exists k,
         at2 0%Z (HModel.compute_labels logits) (i, j) = Z.of_nat k
         /\ (k < o)%nat
         /\ (forall a, (a < o)%nat -> nth a p 0 <= nth k p 0)
         /\ (forall a, (a < k)%nat ->
                       nth a p 0 < nth k p 0 /\ nth a row 0 < nth k row 0)
         /\ (forall a, (a < o)%nat -> nth k row 0 < nth a row 0 ->
                       nth a p 0 = nth k p 0)
         /\ ((forall a c, (a < o)%nat -> (c < o)%nat ->
                          nth a row 0 < nth c row 0 ->
                          nth a p 0 < nth c p 0) ->
             k = TF.argmax row).
Proof.
  intros Hl Po.
  unfold HModel.compute_labels, HModel.compute_probabilities, TF.softmax.
  rewrite map_map.
  rewrite (map_ext _ (map (fun row => Z.of_nat (TF.argmax (TF.softmax_row row)))))
    by (intros s; apply map_map).
  split; [apply has_shape_map_map, Hl|].
  intros i j Hi Hj.
  rewrite (map_map_nth _ [] 0%Z b m logits i j (proj1 Hl) Hi Hj).
  set (row := at2 [] logits (i, j)).
  set (p := TF.softmax_row row).
  assert (Lr : length row = o) by (apply (at2_row_length b m o); assumption).
  assert (Lp : length p = o) by (unfold p; rewrite softmax_row_length; exact Lr).
  assert (Np : p <> []) by (destruct p; [simpl in Lp; lia|discriminate]).
  destruct (argmax_spec p Np) as (Hk & Hmax & _).
  exists (TF.argmax p).
  split; [reflexivity|].
  split; [lia|].
  split; [intros a Ha; apply Hmax; lia|].
  split.
  { intros a Ha.
    pose proof (argmax_first p a Ha) as Hlt.
    split; [exact Hlt|].
    destruct (Rlt_le_dec (nth a row 0) (nth (TF.argmax p) row 0)) as [H|H];
      [exact H|].
    pose proof (softmax_row_monotone row (TF.argmax p) a
                  ltac:(lia) ltac:(lia) H) as Hm.
    fold p in Hm; lra. }
  split.
  { intros a Ha Hlt.
    pose proof (softmax_row_monotone row (TF.argmax p) a
                  ltac:(lia) ltac:(lia) ltac:(lra)) as Hm.
    fold p in Hm.
    pose proof (Hmax a ltac:(lia)); lra. }
  intros Hstrict.
  symmetry; apply argmax_same_order.
  split; [lia|].
  intros a c Ha Hc; rewrite Lr in Ha, Hc.
  split; [apply Hstrict; assumption|].
  intros Hlt.
  destruct (Rlt_le_dec (nth a row 0) (nth c row 0)) as [H|H]; [exact H|].
  pose proof (softmax_row_monotone row c a ltac:(lia) ltac:(lia) H) as Hm.
  fold p in Hm; lra.
Qed.

Lemma compute_labels_argmax_softmax_scenario_A :
  has_shape 2 3 (HModel.compute_labels scenario_A_logits)
  /\ exists k,
       at2 0%Z (HModel.compute_labels scenario_A_logits) (0, 1)%nat
       = Z.of_nat k
       /\ (k < 4)%nat.
Proof.
  destruct (compute_labels_argmax_softmax scenario_A_logits 2 3 4
              ltac:(shape_tac) ltac:(lia)) as [Hs H].
  split; [exact Hs|].
  destruct (H 0%nat 1%nat ltac:(lia) ltac:(lia)) as (k & E & Hk & _).
  exists k; split; assumption.
Defined.

(** The softmax of the scores 0 and [2 ^ -34]: both probabilities are
    1/2. *)
Lemma softmax_row_collision :
  TF.softmax_row [0; powerRZ 2 (-34)] = [1 / 2; 1 / 2].
Proof.
  pose proof (pow2_pos (-34)) as Pp.
  unfold TF.softmax_row, TF.reduce_max; cbn [fold_left map].
  rewrite Rmax_right by lra.
  replace (0 - powerRZ 2 (-34)) with (- powerRZ 2 (-34)) by ring.
  replace (powerRZ 2 (-34) - powerRZ 2 (-34)) with 0 by ring.
  rewrite round_opp, round_pow2, round_0, exp_0, round_1 by lia.
  rewrite round_exp_small by (split; [lra|apply pow2_le; lia]).
  rewrite Rplus_0_l, round_1.
  replace (1 + 1) with 2 by ring.
  rewrite round_2, round_half, Rmult_1_l, round_half.
  reflexivity.
Qed.

(** The softmax of the scores 0 and 1 separates them. *)
Lemma softmax_row_separation :
  exists p0 p1,
    TF.softmax_row [0; 1] = [p0; p1] /\ p0 <= 1 / 2 /\ 5 / 8 <= p1.
Proof.
  unfold TF.softmax_row, TF.reduce_max; cbn [fold_left map].
  rewrite Rmax_right by lra.
  replace (0 - 1) with (Ropp 1) by ring.
  replace (1 - 1) with 0 by ring.
  rewrite round_opp, round_1, round_0, exp_0, round_1, Rplus_0_l.
  set (a := Float32.round (exp (Ropp 1))).
  assert (Ha : 0 <= a <= 1 / 2).
  { split; [apply round_nonneg; left; apply exp_pos|].
    rewrite <- round_half; apply round_le.
    rewrite exp_Ropp.
    pose proof (exp_ineq1_le 1) as H.
    apply Rle_trans with (/ 2); [|lra].
    apply Rinv_le_contravar; lra. }
  set (a' := Float32.round a).
  assert (Ha' : 0 <= a' <= 1 / 2).
  { split; [apply round_nonneg; lra|].
    rewrite <- round_half; apply round_le; lra. }
  set (s := Float32.round (a' + 1)).
  assert (Hs : 1 <= s <= 3 / 2).
  { split; [rewrite <- round_1|rewrite <- round_3_2];
      apply round_le; lra. }
  set (c := Float32.round (1 / s)).
  assert (Hc : 5 / 8 <= c <= 1).
  { split; [rewrite <- round_5_8|rewrite <- round_1]; apply round_le.
    - apply Rle_trans with (1 / (3 / 2)); [lra|].
      unfold Rdiv; rewrite !Rmult_1_l.
      apply Rinv_le_contravar; lra.
    - unfold Rdiv; rewrite Rmult_1_l, <- Rinv_1.
      apply Rinv_le_contravar; lra. }
  do 2 eexists; split; [reflexivity|].
  split.
  - rewrite <- round_half; apply round_le.
    apply Rle_trans with (1 / 2 * c); [|lra].
    apply Rmult_le_compat_r; lra.
  - rewrite <- round_5_8; apply round_le; lra.
Qed.

(** C9 as stated fails in float32: the scores 0 and [2 ^ -34] have
    their maximum at class 1 and decode to class 0, while the scores 0
    and 1, which order the two classes in the same way, decode to
    class 1. *)
Lemma compute_labels_not_argmax_logits :
  let row := [0; powerRZ 2 (-34)] in
  TF.argmax row = 1%nat
  /\ HModel.compute_labels [[row]] = [[0%Z]]
  /\ same_order row [0; 1]
  /\ HModel.compute_labels [[[0; 1]]] = [[1%Z]].
Proof.
  intros row; pose proof (pow2_pos (-34)) as Pp.
  split; [|split; [|split]].
  - unfold row, TF.argmax, TF.argmax_from.
    destruct (Rlt_dec 0 (powerRZ 2 (-34))); [reflexivity|lra].
  - unfold HModel.compute_labels, HModel.compute_probabilities, TF.softmax.
    cbn [map]; unfold row; rewrite softmax_row_collision.
    unfold TF.argmax, TF.argmax_from.
    destruct (Rlt_dec (1 / 2) (1 / 2)); [lra|reflexivity].
  - split; [reflexivity|].
    intros a c Ha Hc; simpl in Ha, Hc.
    destruct a as [|[|a]]; try lia; destruct c as [|[|c]]; try lia;
      unfold row; simpl; lra.
  - unfold HModel.compute_labels, HModel.compute_probabilities, TF.softmax.
    cbn [map].
    destruct softmax_row_separation as (p0 & p1 & -> & H0 & H1).
    unfold TF.argmax, TF.argmax_from.
    destruct (Rlt_dec p0 p1); [reflexivity|lra].
Qed.

(** * Further properties of the model *)

(** ** Sign and definedness of the independent-softmax loss *)

Lemma exp_le_reduce_sum (l : list R) (x : R) :
  In x l -> exp x <= TF.reduce_sum (map exp l).
Proof.
  induction l as [|y l IH]; intros H; [contradiction|].
  simpl; destruct H as [->|H].
  - pose proof (reduce_sum_exp_nonneg l); lra.
  - specialize (IH H); pose proof (exp_pos y); lra.
Qed.

Lemma logsumexp_ge (l : list R) (a : nat) :
  (a < length l)%nat -> nth a l 0 <= TF.reduce_logsumexp l.
Proof.
  intros Ha; unfold TF.reduce_logsumexp.
  pose proof (exp_le_reduce_sum l _ (nth_In l 0 Ha)) as Hle.
  pose proof (exp_pos (nth a l 0)) as Hp.
  rewrite <- (ln_exp (nth a l 0)) at 1.
  destruct Hle as [Hlt|Heq].
  - left; apply ln_increasing; assumption.
  - right; rewrite Heq; reflexivity.
Qed.

Lemma crossent_row_nonneg (label : Z) (row : list R) :
  (0 <= label < Z.of_nat (length row))%Z -> 0 <= crossent label row.
Proof.
  intros H; unfold crossent, entry.
  destruct (Z.ltb_spec label 0); [lia|].
  pose proof (logsumexp_ge row (Z.to_nat label) ltac:(lia)); lra.
Qed.

Lemma reduce_sum_nonneg (l : list R) :
  Forall (fun x => 0 <= x) l -> 0 <= TF.reduce_sum l.
Proof.
  unfold TF.reduce_sum.
  induction 1 as [|x l Hx _ IH]; simpl; lra.
Qed.

Lemma reduce_mean_nonneg (l : list R) (v : R) :
  Forall (fun x => 0 <= x) l -> TF.reduce_mean l = Val v -> 0 <= v.
Proof.
  intros Hl; destruct l as [|x l]; [discriminate|].
  unfold TF.reduce_mean; intros E; injection E as <-.
  pose proof (reduce_sum_nonneg _ Hl).
  assert (0 < INR (length (x :: l))) by (apply lt_0_INR; simpl; lia).
  apply Rmult_le_pos; [assumption|].
  left; apply Rinv_0_lt_compat; assumption.
Qed.

(** When the range check of the kernel passes, every label of the grid
    is a class of the scores of its position. *)
Lemma labels_in_range_at (b m : nat) (labels : Tensor2 Z)
  (logits : Tensor3 R) (i j : nat) :
  has_shape b m labels -> has_shape b m logits ->
  labels_in_range labels logits = true ->
  (i < b)%nat -> (j < m)%nat ->
  is_class (at2 [] logits (i, j)) (at2 0%Z labels (i, j)) = true.
Proof.
  intros Hs Hl H Hi Hj; unfold labels_in_range in H.
  rewrite forallb_forall in H.
  assert (Hin : In (nth i labels [], nth i logits [])
                   (combine labels logits)).
  { rewrite <- (combine_nth labels logits i [] [])
      by (destruct Hs, Hl; tlia).
    apply nth_In; rewrite length_combine; destruct Hs, Hl; tlia. }
  specialize (H _ Hin); cbn [fst snd] in H.
  rewrite forallb_forall in H.
  pose proof (has_shape_nth b m labels i Hs Hi) as L1.
  pose proof (has_shape_nth b m logits i Hl Hi) as L2.
  assert (Hin' : In (nth j (nth i labels []) 0%Z, nth j (nth i logits []) [])
                    (combine (nth i labels []) (nth i logits []))).
  { rewrite <- (combine_nth _ _ j 0%Z []) by lia.
    apply nth_In; rewrite length_combine; lia. }
  exact (H _ Hin').
Qed.

(** [HModel.compute_loss] raises exactly when some label of the grid,
    in the padding or not, is no class of the scores of its position.
    When it returns, the loss is NaN exactly when the batch has no valid
    position (the mean of nothing), and otherwise a real number that is
    not negative. *)
Theorem compute_loss_nonneg_or_nan {Tok : Type} (self : Self Tok)
  (logits : Tensor3 R) (b m : nat) :
  let lens := input_sess_length (iterator self) in
  let labels := target (iterator self) in
  has_shape b m labels ->
  has_shape b m logits ->
  length lens = b ->
  (HModel.compute_loss self logits = Raise InvalidArgumentError
   <-> labels_in_range labels logits = false)
  /\ (forall e, HModel.compute_loss self logits = Raise e ->
                e = InvalidArgumentError)
  /\ (HModel.compute_loss self logits = Ok NaN
      <-> labels_in_range labels logits = true
          /\ valid_positions lens b m = [])
  /\ forall v, HModel.compute_loss self logits = Ok (Val v) -> 0 <= v.
Proof.
  intros lens labels Ht Hl Hn.
  rewrite (compute_loss_reduce_mean self logits b m Ht Hl Hn).
  fold lens; fold labels.
  destruct (labels_in_range labels logits) eqn:Hr.
  - split; [split; discriminate|].
    split; [discriminate|].
    split.
    + destruct (valid_positions lens b m) as [|p ps]; simpl; split.
      * intros _; split; reflexivity.
      * intros _; reflexivity.
      * discriminate.
      * intros [_ H]; discriminate.
    + intros v E; injection E as E; revert E.
      apply reduce_mean_nonneg.
      rewrite Forall_map; apply Forall_forall; intros [i j] Hp.
      apply valid_positions_In in Hp; destruct Hp as (Hi & Hj & Hv).
      unfold crossent_at; apply crossent_row_nonneg.
      pose proof (labels_in_range_at b m labels logits i j Ht Hl Hr Hi Hj)
        as Hc.
      unfold is_class in Hc; apply andb_prop in Hc; destruct Hc as [H1 H2].
      apply Z.leb_le in H1; apply Z.ltb_lt in H2; lia.
  - split; [split; reflexivity|].
    split; [intros e E; injection E as <-; reflexivity|].
    split; [split; [discriminate|intros [E _]; discriminate]|].
    discriminate.
Qed.

Lemma compute_loss_nonneg_or_nan_scenario_A :
  (exists loss,
     HModel.compute_loss (scenario_A H_RNN_RNN TRAIN) scenario_A_logits
     = Ok loss /\ loss <> NaN)
  /\ (forall v,
        HModel.compute_loss (scenario_A H_RNN_RNN TRAIN) scenario_A_logits
        = Ok (Val v) -> 0 <= v).
Proof.
  destruct (compute_loss_nonneg_or_nan (scenario_A H_RNN_RNN TRAIN)
              scenario_A_logits 2 3 ltac:(shape_tac) ltac:(shape_tac)
              eq_refl) as (_ & _ & Hn & Hv).
  split; [|exact Hv].
  eexists; split; [reflexivity|].
  intros E.
  assert (E' : HModel.compute_loss (scenario_A H_RNN_RNN TRAIN)
                 scenario_A_logits = Ok NaN)
    by (rewrite <- E; reflexivity).
  apply Hn in E'; destruct E' as [_ E']; discriminate.
Defined.

(** ** Range of the accuracy *)

Lemma filter_length_le {A : Type} (f : A -> bool) (l : list A) :
  (length (filter f l) <= length l)%nat.
Proof.
  induction l as [|x l IH]; simpl; [lia|].
  destruct (f x); simpl; lia.
Qed.

Lemma filter_length_all {A : Type} (f : A -> bool) (l : list A) :
  length (filter f l) = length l <-> forall x, In x l -> f x = true.
Proof.
  induction l as [|x l IH]; simpl; [tauto|].
  pose proof (filter_length_le f l) as Hle.
  destruct (f x) eqn:E; simpl; split.
  - intros H y [<-|Hy]; [exact E|].
    apply IH; [lia|exact Hy].
  - intros H; f_equal; apply IH; auto.
  - intros H; lia.
  - intros H; specialize (H x (or_introl eq_refl)); congruence.
Qed.

Lemma fraction_bounds (c n : nat) (v : R) :
  (c <= n)%nat -> fraction c n = Val v ->
  0 <= v <= 1 /\ (v = 1 <-> c = n).
Proof.
  intros Hc E; destruct n as [|n]; [discriminate|].
  assert (Ev : v = INR c / INR (S n))
    by (unfold fraction in E; congruence).
  clear E; subst v.
  assert (Hn : 0 < INR (S n)) by (apply lt_0_INR; lia).
  pose proof (pos_INR c) as Hc0.
  pose proof (le_INR _ _ Hc) as Hle.
  assert (Hdiv : forall x, x / INR (S n) * INR (S n) = x)
    by (intros x; unfold Rdiv; rewrite Rmult_assoc, Rinv_l; lra).
  repeat split.
  - apply Rmult_le_pos; [lra|left; apply Rinv_0_lt_compat, Hn].
  - apply (Rmult_le_reg_r (INR (S n))); [exact Hn|rewrite Hdiv; lra].
  - intros H; apply INR_eq.
    rewrite <- (Hdiv (INR c)), H; lra.
  - intros ->; unfold Rdiv; apply Rinv_r; lra.
Qed.

(** The accuracy of [HModel.compute_accuracy] is NaN exactly when the
    batch has no valid position; otherwise it lies between 0 and 1, and
    it is 1 exactly when the predicted label equals the target at every
    valid position. *)
Theorem compute_accuracy_range {Tok : Type} (self : Self Tok)
  (labels : Tensor2 Z) (b m : nat) :
  let lens := input_sess_length (iterator self) in
  let ps := valid_positions lens b m in
  has_shape b m (target (iterator self)) ->
  has_shape b m labels ->
  length lens = b ->
  (HModel.compute_accuracy self labels = NaN <-> ps = [])
  /\ forall v, HModel.compute_accuracy self labels = Val v ->
       0 <= v <= 1
       /\ (v = 1 <->
           forall p, In p ps ->
                     correct_at labels (target (iterator self)) p = true).
Proof.
  intros lens ps Ht Hl Hn.
  rewrite (compute_accuracy_fraction self labels b m Ht Hl Hn).
  fold lens; fold ps; split.
  - destruct ps as [|p ps']; simpl; split; intros H;
      try reflexivity; discriminate.
  - intros v Hv.
    destruct (fraction_bounds _ _ v (filter_length_le _ ps) Hv) as [Hb He].
    split; [exact Hb|].
    rewrite He; apply filter_length_all.
Qed.

Lemma compute_accuracy_range_scenario_A :
  HModel.compute_accuracy (scenario_A H_RNN_RNN EVAL) scenario_A_labels
  <> NaN
  /\ (forall v,
        HModel.compute_accuracy (scenario_A H_RNN_RNN EVAL) scenario_A_labels
        = Val v -> 0 <= v <= 1).
Proof.
  destruct (compute_accuracy_range (scenario_A H_RNN_RNN EVAL)
              scenario_A_labels 2 3 ltac:(shape_tac) ltac:(shape_tac)
              eq_refl) as [Hn Hv].
  split; [intros E; apply Hn in E; discriminate|].
  intros v E; exact (proj1 (Hv v E)).
Defined.

(** ** What [build_network] builds *)

(** On a batch of shape [b, m, d] with [batch_size = b], and an utterance
    encoder that returns one row per flattened utterance, [build_network]
    computes: the utterance encoder runs on the flattened batch, the
    session encoder receives at position (i, j) the embedding of
    flattened row [i * m + j], the output layer receives the session
    outputs (after the utterance embeddings when [connect_inp_to_out] is
    set), and the loss is that of [compute_loss] on the logits unless the
    mode is INFER; an exception of [compute_loss] is the exception of
    [build_network]. *)
Theorem build_network_returns {Tok : Type} (layers : Layers Tok)
  (hparams : HParams) (self : Self Tok) (b m d e : nat) :
  let it := iterator self in
  let embs :=
    utterance_encoder layers (cls self) hparams (input it)
                      (input_uttr_length it) (concat (input it)) in
  let utter := Reshape.rows m embs b in
  let sess := session_encoder layers hparams (input_sess_length it) utter in
  let logits :=
    output_layer layers hparams
      (if connect_inp_to_out hparams
       then Reshape.concat_last utter sess else sess) in
  has_shape3 b m d (input it) ->
  (0 < b)%nat -> (0 < m)%nat -> (0 < d)%nat ->
  batch_size self = b ->
  has_shape (b * m) e embs ->
  build_network layers hparams self
  = (if ModeKeys_eqb (mode self) INFER then Ok ((logits, None), self)
     else r <- compute_loss self logits ;;
          Ok ((logits, Some (fst r)), snd r))
  /\ forall i j, (i < b)%nat -> (j < m)%nat ->
       at2 [] utter (i, j) = nth (i * m + j) embs [].
Proof.
  intros it embs utter sess logits Hx Pb Pm Pd Hbs He.
  split.
  - exact (proj2 (build_network_reshaped layers hparams self b m d e
                    Hx Pb Pm Pd Hbs He)).
  - intros i j Hi Hj; unfold at2, utter; simpl.
    apply nth_rows_entry; assumption.
Qed.

Lemma build_network_returns_scenario_A :
  let self := scenario_A H_RNN_RNN TRAIN in
  exists logits,
    build_network example_layers example_hparams self
    = (r <- compute_loss self logits ;;
       Ok ((logits, Some (fst r)), snd r)).
Proof.
  intros self.
  destruct (build_network_returns example_layers example_hparams self
              2 3 2 1 ltac:(shape_tac) ltac:(lia) ltac:(lia) ltac:(lia)
              eq_refl ltac:(shape_tac)) as [E _].
  eexists; exact E.
Defined.

(** ** The chain-structured class after a TRAIN or EVAL build *)

(** When building a chain-structured model outside INFER mode returns,
    it returns the loss of [H_RNN_RNN_CRF.compute_loss] and
    [self.transition_params] is bound to the transition variable; from
    then on [_get_trans_params] returns that variable, and
    [compute_labels], once the logits are stored, returns the decode of
    these logits under that variable. *)
Theorem crf_build_then_decode {Tok : Type} (layers : Layers Tok)
  (hparams : HParams) (self self' : Self Tok) (logits arg : Tensor3 R)
  (loss : option Scalar) :
  mode self <> INFER ->
  cls self = H_RNN_RNN_CRF ->
  build_network layers hparams self = Ok ((logits, loss), self') ->
  attr_transition_params self' = Some (transitions self)
  /\ (exists v, loss = Some v
                /\ H_RNN_RNN_CRF.compute_loss self logits = Ok (v, self'))
  /\ H_RNN_RNN_CRF._get_trans_params self' = Ok (transitions self)
  /\ compute_labels (set_logits self' logits) arg
     = Ok (CRF.crf_decode logits (transitions self)
                          (input_sess_length (iterator self))).
Proof.
  intros Hm Hc; unfold build_network.
  destruct (Reshape.reshape2 _ _) as [ri|e]; simpl; [|discriminate].
  destruct (Reshape.reshape3 _ _ _ _) as [re|e]; simpl; [|discriminate].
  destruct (mode self); simpl; try contradiction;
    unfold compute_loss; rewrite Hc;
    destruct (H_RNN_RNN_CRF.compute_loss self _) as [[v s]|e] eqn:E;
    simpl; try discriminate;
    intros H; injection H as <- <- <-;
    pose proof E as E';
    unfold H_RNN_RNN_CRF.compute_loss in E';
    destruct (CRF.crf_log_likelihood _ _ _ _); simpl in E';
    try discriminate;
    injection E' as _ <-;
    (split; [reflexivity|]);
    (split; [eexists; split; [reflexivity|exact E]|]);
    (split; [reflexivity|]);
    unfold compute_labels; simpl; rewrite Hc; reflexivity.
Qed.

Lemma crf_build_then_decode_scenario_A :
  let self := scenario_A H_RNN_RNN_CRF EVAL in
  let logits := map (map (fun _ : list R => [0; 0; 0; 0])) scenario_A_logits in
  exists loss self',
    build_network example_layers example_hparams self
    = Ok ((logits, loss), self')
    /\ compute_labels (set_logits self' logits) []
       = Ok (CRF.crf_decode logits (transitions self)
                            (input_sess_length (iterator self))).
Proof.
  intros self logits.
  assert (E : exists loss self',
             build_network example_layers example_hparams self
             = Ok ((logits, loss), self'))
    by (do 2 eexists; reflexivity).
  destruct E as (loss & self' & E).
  exists loss, self'; split; [exact E|].
  exact (proj2 (proj2 (proj2
           (crf_build_then_decode example_layers example_hparams self self'
              logits [] loss ltac:(discriminate) eq_refl E)))).
Defined.

(** * Properties of the entry point and of the evaluation *)

(** ** [str.split] *)

Lemma split_nonempty (sep : Ascii.ascii) (s : string) :
  Py.split sep s <> [].
Proof.
  destruct s as [|c s]; simpl; [discriminate|].
  destruct (Ascii.eqb c sep); [discriminate|].
  destruct (Py.split sep s); discriminate.
Qed.

Lemma join_cons (sep : Ascii.ascii) (h : string) (l : list string) :
  l <> [] ->
  Py.join sep (h :: l) = (h ++ String sep (Py.join sep l))%string.
Proof. destruct l; [congruence|reflexivity]. Qed.

Lemma join_split (sep : Ascii.ascii) (s : string) :
  Py.join sep (Py.split sep s) = s.
Proof.
  induction s as [|c s IH]; [reflexivity|].
  simpl Py.split.
  destruct (Ascii.eqb_spec c sep) as [->|Hc].
  - rewrite join_cons by apply split_nonempty.
    simpl; rewrite IH; reflexivity.
  - pose proof (split_nonempty sep s) as Hn.
    destruct (Py.split sep s) as [|h t]; [congruence|].
    destruct t as [|h' t].
    + simpl in *; rewrite IH; reflexivity.
    + rewrite join_cons by discriminate.
      rewrite join_cons in IH by discriminate.
      cbn [String.append]; rewrite IH; reflexivity.
Qed.

Lemma split_no_sep (sep : Ascii.ascii) (s : string) :
  Forall (fun piece => Py.contains sep piece = false) (Py.split sep s).
Proof.
  induction s as [|c s IH]; simpl.
  - constructor; [reflexivity|constructor].
  - destruct (Ascii.eqb_spec c sep) as [->|Hc].
    + constructor; [reflexivity|exact IH].
    + destruct (Py.split sep s) as [|h t].
      * constructor; [|constructor]; simpl.
        destruct (Ascii.eqb_spec c sep); [contradiction|reflexivity].
      * inversion IH; subst; constructor; [|assumption]; simpl.
        destruct (Ascii.eqb_spec c sep); [contradiction|assumption].
Qed.

Lemma length_split (sep : Ascii.ascii) (s : string) :
  length (Py.split sep s) = S (Py.count sep s).
Proof.
  induction s as [|c s IH]; [reflexivity|]; simpl.
  destruct (Ascii.eqb c sep); simpl; [rewrite IH; reflexivity|].
  destruct (Py.split sep s); simpl in *; [discriminate|exact IH].
Qed.

Lemma split_no_sep_string (sep : Ascii.ascii) (s : string) :
  Py.contains sep s = false -> Py.split sep s = [s].
Proof.
  induction s as [|c s IH]; [reflexivity|]; simpl.
  destruct (Ascii.eqb c sep); simpl; [discriminate|].
  intros H; rewrite (IH H); reflexivity.
Qed.

Lemma split_app (sep : Ascii.ascii) (s t : string) :
  Py.contains sep s = false ->
  Py.split sep (s ++ String sep t) = s :: Py.split sep t.
Proof.
  induction s as [|c s IH]; simpl.
  - intros _; rewrite Ascii.eqb_refl; reflexivity.
  - destruct (Ascii.eqb c sep); simpl; [discriminate|].
    intros H; rewrite (IH H); reflexivity.
Qed.

Lemma split_join (sep : Ascii.ascii) (l : list string) :
  l <> [] ->
  Forall (fun piece => Py.contains sep piece = false) l ->
  Py.split sep (Py.join sep l) = l.
Proof.
  induction l as [|h l IH]; [congruence|].
  intros _ Hf; inversion Hf as [|? ? Hh Hl]; subst.
  destruct l as [|h' l].
  - simpl; apply split_no_sep_string; assumption.
  - rewrite join_cons by discriminate.
    rewrite split_app by assumption.
    rewrite IH by (discriminate || assumption); reflexivity.
Qed.

(** The first piece of a split is the longest prefix without the
    separator. *)
Lemma split_hd (sep : Ascii.ascii) (s : string) :
  let stem := hd EmptyString (Py.split sep s) in
  Py.contains sep stem = false
  /\ (s = stem \/ exists rest, s = (stem ++ String sep rest)%string).
Proof.
  intros stem; split.
  - pose proof (split_no_sep sep s) as Hf; subst stem.
    destruct (Py.split sep s); [reflexivity|].
    inversion Hf; assumption.
  - pose proof (join_split sep s) as Hj; subst stem.
    pose proof (split_nonempty sep s) as Hn.
    destruct (Py.split sep s) as [|h t]; [congruence|].
    destruct t as [|h' t]; [left; symmetry; exact Hj|].
    right; exists (Py.join sep (h' :: t)).
    rewrite join_cons in Hj by discriminate; symmetry; exact Hj.
Qed.

(** ** [extend_hparams] *)

Lemma mapM_Forall2 {A B : Type} (f : A -> result B) (l : list A)
  (l' : list B) :
  mapM f l = Ok l' -> Forall2 (fun a b => f a = Ok b) l l'.
Proof.
  revert l'; induction l as [|a l IH]; simpl; intros l' H.
  - injection H as <-; constructor.
  - destruct (f a) as [b|e] eqn:Ea; simpl in H; [|discriminate].
    destruct (mapM f l) as [bs|e]; simpl in H; [|discriminate].
    injection H as <-; constructor; [assumption|apply IH; reflexivity].
Qed.

Lemma mapM_length {A B : Type} (f : A -> result B) (l : list A)
  (l' : list B) :
  mapM f l = Ok l' -> length l' = length l.
Proof.
  intros H; symmetry; exact (Forall2_length (mapM_Forall2 f l l' H)).
Qed.

Lemma mapM_raises {A B : Type} (f : A -> result B) (l : list A) (a : A)
  (e : Error) :
  In a l -> f a = Raise e -> exists e', mapM f l = Raise e'.
Proof.
  intros Hin Ha; induction l as [|a' l IH]; [contradiction|]; simpl.
  destruct Hin as [->|Hin].
  - rewrite Ha; eexists; reflexivity.
  - destruct (f a'); simpl; [|eexists; reflexivity].
    destruct (IH Hin) as [e' ->]; eexists; reflexivity.
Qed.

Lemma extend_hparams_inv (env : Main.Env) (hparams : Main.Default)
  (h' : Main.Extended) :
  Main.extend_hparams env hparams = Ok h' ->
  Main.raw h' = hparams
  /\ match Main.ext_input_emb_weights h' with
     | Some w =>
         exists file,
           Main.input_emb_file hparams = Some file
           /\ Py.truthy (Some file) = true
           /\ Main.loadtxt env file = Ok w
     | None => Py.truthy (Main.input_emb_file hparams) = false
     end
  /\ Main.ext_input_emb_size h'
     = match Main.ext_input_emb_weights h' with
       | Some w => Z.of_nat (TF.shape1 w)
       | None => Main.input_emb_size hparams
       end
  /\ Main.ext_input_emb_pretrain h'
     = match Main.input_emb_file hparams with
       | Some _ => true
       | None => false
       end
  /\ match Main.vocab_path hparams with
     | Some path =>
         exists size path',
           Main.check_vocab env path (Main.out_dir hparams)
                            (Main.unk hparams) (Main.pad hparams)
           = Ok (size, path')
           /\ Main.ext_vocab_size h' = Some size
           /\ Main.ext_vocab_path h' = Some path'
     | None => Main.ext_vocab_size h' = None /\ Main.ext_vocab_path h' = None
     end
  /\ mapM (Main.int env) (Py.split Py.comma (Main.uttr_units hparams))
     = Ok (Main.ext_uttr_units h')
  /\ mapM (Main.int env) (Py.split Py.comma (Main.sess_units hparams))
     = Ok (Main.ext_sess_units h')
  /\ mapM (Main.float env)
       (Py.split Py.comma (Main.uttr_hid_to_out_dropout hparams))
     = Ok (Main.ext_uttr_hid_to_out_dropout h')
  /\ mapM (Main.float env)
       (Py.split Py.comma (Main.sess_hid_to_out_dropout hparams))
     = Ok (Main.ext_sess_hid_to_out_dropout h')
  /\ Main.ext_uttr_activation h'
     = Py.split Py.comma (Main.uttr_activation hparams)
  /\ Main.ext_sess_activation h'
     = Py.split Py.comma (Main.sess_activation hparams)
  /\ mapM (Main.int env) (Py.split Py.comma (Main.filter_sizes hparams))
     = Ok (Main.ext_filter_sizes h').
Proof.
  unfold Main.extend_hparams; intros H.
  destruct (Main.input_emb_file hparams) as [[|c s]|] eqn:Ef; simpl in H.
  3: idtac.
  all: try (destruct (Main.loadtxt env (String c s)) as [w|e] eqn:El;
            simpl in H; [|discriminate]).
  all: destruct (Main.vocab_path hparams) as [path|] eqn:Ev; simpl in H.
  all: try (destruct (Main.check_vocab env path _ _ _) as [[size path']|e]
              eqn:Ec; simpl in H; [|discriminate]).
  all: destruct (mapM (Main.int env)
                   (Py.split Py.comma (Main.uttr_units hparams)))
         as [uu|e] eqn:E1; simpl in H; [|discriminate].
  all: destruct (mapM (Main.int env)
                   (Py.split Py.comma (Main.sess_units hparams)))
         as [su|e] eqn:E2; simpl in H; [|discriminate].
  all: destruct (mapM (Main.float env)
                   (Py.split Py.comma (Main.uttr_hid_to_out_dropout hparams)))
         as [ud|e] eqn:E3; simpl in H; [|discriminate].
  all: destruct (mapM (Main.float env)
                   (Py.split Py.comma (Main.sess_hid_to_out_dropout hparams)))
         as [sd|e] eqn:E4; simpl in H; [|discriminate].
  all: destruct (mapM (Main.int env)
                   (Py.split Py.comma (Main.filter_sizes hparams)))
         as [fs|e] eqn:E5; simpl in H; [|discriminate].
  all: injection H as <-; simpl; repeat split; try reflexivity.
  all: try (exists size, path'; repeat split; reflexivity).
  all: exists (String c s); repeat split; assumption.
Qed.

(** [extend_hparams] turns every comma-separated hyper-parameter into a
    list with one entry more than the string has commas, so never into an
    empty list; the activation names are the pieces of the string, and
    joining them with commas gives the string back. The hyper-parameters
    that are not assigned stay as they are. *)
Theorem extend_hparams_list_lengths (env : Main.Env)
  (hparams : Main.Default) (h' : Main.Extended) :
  Main.extend_hparams env hparams = Ok h' ->
  let commas := Py.count Py.comma in
  Main.raw h' = hparams
  /\ length (Main.ext_uttr_units h') = S (commas (Main.uttr_units hparams))
  /\ length (Main.ext_sess_units h') = S (commas (Main.sess_units hparams))
  /\ length (Main.ext_uttr_hid_to_out_dropout h')
     = S (commas (Main.uttr_hid_to_out_dropout hparams))
  /\ length (Main.ext_sess_hid_to_out_dropout h')
     = S (commas (Main.sess_hid_to_out_dropout hparams))
  /\ length (Main.ext_filter_sizes h')
     = S (commas (Main.filter_sizes hparams))
  /\ length (Main.ext_uttr_activation h')
     = S (commas (Main.uttr_activation hparams))
  /\ length (Main.ext_sess_activation h')
     = S (commas (Main.sess_activation hparams))
  /\ Py.join Py.comma (Main.ext_uttr_activation h')
     = Main.uttr_activation hparams
  /\ Py.join Py.comma (Main.ext_sess_activation h')
     = Main.sess_activation hparams
  /\ Forall (fun name => Py.contains Py.comma name = false)
            (Main.ext_uttr_activation h' ++ Main.ext_sess_activation h').
Proof.
  intros H commas.
  destruct (extend_hparams_inv env hparams h' H)
    as (Hr & _ & _ & _ & _ & E1 & E2 & E3 & E4 & E5 & E6 & E7).
  subst commas.
  rewrite (mapM_length _ _ _ E1), (mapM_length _ _ _ E2),
    (mapM_length _ _ _ E3), (mapM_length _ _ _ E4), (mapM_length _ _ _ E7),
    E5, E6, !length_split, !join_split.
  repeat split; try reflexivity; try assumption.
  apply Forall_app; split; apply split_no_sep.
Qed.

Lemma extend_hparams_list_lengths_example :
  exists h',
    Main.extend_hparams example_env example_default = Ok h'
    /\ length (Main.ext_uttr_units h') = 2%nat
    /\ Main.ext_uttr_activation h' = ["relu"; "tanh"]%string.
Proof.
  eexists; split; [reflexivity|].
  pose proof (extend_hparams_list_lengths example_env example_default _
                eq_refl) as H.
  split; [exact (proj1 (proj2 H))|reflexivity].
Defined.

(** When [int] rejects the empty string, a units or filter-sizes string
    with an empty piece (the empty string, a leading, trailing or doubled
    comma) makes [extend_hparams] raise. *)
Theorem extend_hparams_empty_piece_raises (env : Main.Env)
  (hparams : Main.Default) (e0 : Error) :
  Main.int env "" = Raise e0 ->
  In ""%string (Py.split Py.comma (Main.uttr_units hparams))
  \/ In ""%string (Py.split Py.comma (Main.sess_units hparams))
  \/ In ""%string (Py.split Py.comma (Main.filter_sizes hparams)) ->
  exists e, Main.extend_hparams env hparams = Raise e.
Proof.
  intros Hint Hin.
  destruct (Main.extend_hparams env hparams) as [h'|e] eqn:E;
    [exfalso|eexists; reflexivity].
  destruct (extend_hparams_inv env hparams h' E)
    as (_ & _ & _ & _ & _ & E1 & E2 & _ & _ & _ & _ & E7).
  destruct Hin as [Hin|[Hin|Hin]];
    destruct (mapM_raises _ _ _ _ Hin Hint) as [e' He'];
    congruence.
Qed.

Lemma extend_hparams_empty_piece_raises_example :
  exists e,
    Main.extend_hparams example_env
      (example_default_at None None "ffn" "32,64," None None None)
    = Raise e.
Proof.
  apply (extend_hparams_empty_piece_raises example_env _ ValueError).
  - reflexivity.
  - left; simpl; auto.
Defined.

(** After [extend_hparams], [input_emb_pretrain] says whether an
    embedding file name was given, while the weights are loaded only for
    a non-empty name: for the empty name the flag is set, no weights are
    loaded and the embedding size stays the given one. With weights the
    embedding size is their width. *)
Theorem extend_hparams_pretrain_flag (env : Main.Env)
  (hparams : Main.Default) (h' : Main.Extended) :
  Main.extend_hparams env hparams = Ok h' ->
  (Main.ext_input_emb_pretrain h' = true
   <-> Main.input_emb_file hparams <> None)
  /\ (Main.ext_input_emb_weights h' <> None
      <-> exists c s, Main.input_emb_file hparams = Some (String c s))
  /\ (forall w, Main.ext_input_emb_weights h' = Some w ->
                Main.ext_input_emb_size h' = Z.of_nat (TF.shape1 w))
  /\ (Main.input_emb_file hparams = Some ""%string ->
      Main.ext_input_emb_pretrain h' = true
      /\ Main.ext_input_emb_weights h' = None
      /\ Main.ext_input_emb_size h' = Main.input_emb_size hparams).
Proof.
  intros H.
  destruct (extend_hparams_inv env hparams h' H)
    as (_ & Hw & Hs & Hp & _).
  rewrite Hp, Hs.
  destruct (Main.ext_input_emb_weights h') as [w|].
  - destruct Hw as (file & Ef & Ht & _).
    rewrite Ef; destruct file as [|c s]; [discriminate|].
    repeat split; try discriminate; try congruence;
      try (intros _; exists c, s; reflexivity).
  - destruct (Main.input_emb_file hparams) as [[|c s]|];
      try discriminate; repeat split; try discriminate; try congruence;
      try (intros (c & s & E); discriminate).
Qed.

Lemma extend_hparams_pretrain_flag_example :
  exists h',
    Main.extend_hparams example_env
      (example_default_at (Some ""%string) None "ffn" "32" None None None)
    = Ok h'
    /\ Main.ext_input_emb_pretrain h' = true
    /\ Main.ext_input_emb_weights h' = None
    /\ Main.ext_input_emb_size h' = 32%Z.
Proof.
  eexists; split; [reflexivity|].
  exact (proj2 (proj2 (proj2
           (extend_hparams_pretrain_flag example_env
              (example_default_at (Some ""%string) None "ffn" "32"
                                  None None None) _ eq_refl))) eq_refl).
Defined.

(** ** [process_or_load_hparams] *)

Lemma check_extended_raises_iff (h : Main.Extended) :
  Main.check_extended h = Raise ValueError
  <-> (Main.model_architecture (Main.raw h) = "h-rnn-rnn"%string
       \/ Main.model_architecture (Main.raw h) = "h-cnn-rnn"%string)
      /\ Main.ext_vocab_path h = None.
Proof.
  unfold Main.check_extended, check_hparams, checked_view; simpl.
  destruct (String.eqb_spec (Main.model_architecture (Main.raw h))
                            "h-rnn-rnn") as [E1|E1];
    destruct (String.eqb_spec (Main.model_architecture (Main.raw h))
                              "h-cnn-rnn") as [E2|E2];
    destruct (Main.ext_vocab_path h); simpl;
    split; try discriminate; try tauto; try (intros [[?|?] ?]; congruence).
Qed.

Lemma check_extended_cases (h : Main.Extended) :
  Main.check_extended h = Raise ValueError \/ Main.check_extended h = Ok tt.
Proof.
  unfold Main.check_extended, check_hparams, checked_view; simpl.
  destruct (_ || _)%bool; [|right; reflexivity].
  destruct (Main.ext_vocab_path h); [right|left]; reflexivity.
Qed.

(** When the hyper-parameters file is parsed and [extend_hparams]
    succeeds, [process_or_load_hparams] raises [ValueError], saving and
    printing nothing, exactly when the architecture is "h-rnn-rnn" or
    "h-cnn-rnn" and no vocabulary path is given; otherwise it saves the
    extended hyper-parameters to [out_dir], prints them and returns
    them. *)
Theorem process_or_load_hparams_checks_vocab (env : Main.Env)
  (out_dir : option string) (default_hparams hparams : Main.Default)
  (hparams_path : option string) (h' : Main.Extended) :
  Main.maybe_parse_standard_hparams env default_hparams hparams_path
  = Ok hparams ->
  Main.extend_hparams env hparams = Ok h' ->
  let missing :=
    (Main.model_architecture hparams = "h-rnn-rnn"%string
     \/ Main.model_architecture hparams = "h-cnn-rnn"%string)
    /\ Main.vocab_path hparams = None in
  let r :=
    Main.process_or_load_hparams env out_dir default_hparams hparams_path in
  (missing /\ r = (Raise ValueError, []))
  \/ (~ missing
      /\ r = (Ok h', [Main.save_hparams out_dir h'; Main.print_hparams h'])).
Proof.
  intros Hp He missing r; subst r missing.
  unfold Main.process_or_load_hparams; rewrite Hp; simpl; rewrite He; simpl.
  destruct (extend_hparams_inv env hparams h' He)
    as (Hr & _ & _ & _ & Hv & _).
  pose proof (check_extended_raises_iff h') as Hc.
  rewrite Hr in Hc.
  assert (Hn : Main.ext_vocab_path h' = None <-> Main.vocab_path hparams = None).
  { destruct (Main.vocab_path hparams) as [path|].
    - destruct Hv as (size & path' & _ & _ & ->); split; discriminate.
    - destruct Hv as [_ ->]; tauto. }
  destruct (check_extended_cases h') as [E|E]; rewrite E; simpl.
  - left; split; [|reflexivity].
    apply Hc in E; tauto.
  - right; split; [|reflexivity].
    intros Hm; assert (Main.check_extended h' = Raise ValueError)
      by (apply Hc; tauto); congruence.
Qed.

Lemma process_or_load_hparams_checks_vocab_example :
  Main.process_or_load_hparams example_env (Some "out"%string)
    (example_default_at None None "h-cnn-rnn" "32" None None None) None
  = (Raise ValueError, []).
Proof.
  destruct (process_or_load_hparams_checks_vocab example_env
              (Some "out"%string)
              (example_default_at None None "h-cnn-rnn" "32" None None None)
              _ None _ eq_refl eq_refl) as [[_ E]|[N _]].
  - exact E.
  - exfalso; apply N; split; [right|]; reflexivity.
Defined.

(** ** [run_main] *)



(** When [out_dir] is [None], its default, [run_main] raises
    [TypeError] before doing anything. When [out_dir] is given, the
    hyper-parameters are parsed and extended without an exception, and
    the parsed ones name the architecture "h-rnn-rnn" or "h-cnn-rnn"
    and have no vocabulary path, [run_main] stops in the check of the
    hyper-parameters: it raises [ValueError] after creating the output
    directory if it did not exist, and does nothing else, whatever
    [train_fn] and [evaluation_fn] are. *)
Theorem run_main_missing_vocab (env : Main.Env)
  (default_hparams : Main.Default)
  (train_fn : Main.Extended -> result unit)
  (evaluation_fn : Main.Extended -> option string -> result unit) :
  (Main.out_dir default_hparams = None ->
   Main.run_main env default_hparams train_fn evaluation_fn
   = (Raise TypeError, []))
  /\ (forall out_dir hparams h',
        Main.out_dir default_hparams = Some out_dir ->
        Main.maybe_parse_standard_hparams env default_hparams
          (Main.hparams_path default_hparams) = Ok hparams ->
        Main.extend_hparams env hparams = Ok h' ->
        Main.model_architecture hparams = "h-rnn-rnn"%string
        \/ Main.model_architecture hparams = "h-cnn-rnn"%string ->
        Main.vocab_path hparams = None ->
        Main.run_main env default_hparams train_fn evaluation_fn
        = (Raise ValueError,
           if Main.Exists env out_dir then []
           else [Main.MakeDirs out_dir])).
Proof.
  split.
  { intros Ho; unfold Main.run_main; rewrite Ho; reflexivity. }
  intros out_dir hparams h' Ho Hp He Ha Hv.
  unfold Main.run_main, Main.process_or_load_hparams.
  rewrite Ho, Hp; simpl; rewrite He; simpl.
  destruct (extend_hparams_inv env hparams h' He)
    as (Hr & _ & _ & _ & Hv' & _).
  rewrite Hv in Hv'; destruct Hv' as [_ Hv'].
  assert (E : Main.check_extended h' = Raise ValueError)
    by (apply check_extended_raises_iff; rewrite Hr; tauto).
  rewrite E; simpl.
  destruct (Main.Exists env _); reflexivity.
Qed.

Lemma run_main_missing_vocab_example :
  Main.run_main example_env
    (example_default_at None None "h-rnn-rnn" "32" None None None)
    (fun _ => Ok tt) (fun _ _ => Ok tt)
  = (Raise ValueError, [Main.MakeDirs "out"]).
Proof.
  apply (proj2 (run_main_missing_vocab example_env
                  (example_default_at None None "h-rnn-rnn" "32"
                                      None None None)
                  (fun _ => Ok tt) (fun _ _ => Ok tt))
           "out"%string _ _ eq_refl eq_refl eq_refl);
    [left|]; reflexivity.
Defined.

(** ** [evaluate] *)

(** One step of a run: the next call that [evaluate] makes returns or
    raises, and a branch is taken. *)
Ltac run_step :=
  match goal with
  | |- context [match ?x with Ok _ => _ | Raise _ => _ end] =>
      lazymatch x with
      | fst _ => fail
      | match _ with Ok _ => _ | Raise _ => _ end => fail
      | _ => destruct x eqn:?
      end
  | |- context [match ?x with Some _ => _ | None => _ end] =>
      destruct x eqn:?
  | |- context [if ?b then _ else _] =>
      destruct b eqn:?
  end;
  cbn [fst snd].

Ltac run_evaluate :=
  unfold Evaluation.evaluate, Evaluation.predict,
    Evaluation.eval_and_precit, Evaluation.path_join;
  cbn [negb andb];
  unfold Evaluation.and_then, Evaluation.call, Evaluation.pure;
  cbn [fst snd];
  repeat run_step.

(** [evaluate] asks for at most one model, and for none only when the
    model class of the architecture is not found. The model asked for
    is the INFER model only when no validation target path is given and
    the architecture is neither "h-ffn-rnn" nor "ffn", and the EVAL
    model only otherwise. An input file that is fed is
    [eval_input_path]; a target file that is fed is [eval_target_path],
    it is fed to the EVAL model and only when a validation target path
    is given. When [evaluate] returns, the input file was fed, and a
    target file was fed exactly when a validation target path is
    given. *)
Theorem evaluate_feeds_target_iff (env : Evaluation.Env)
  (hparams : Main.Extended) (ckpt : option string) :
  let h := Main.raw hparams in
  let r := Evaluation.evaluate env hparams ckpt in
  let events := snd r in
  let infer :=
    Py.truthy (Main.val_target_path h) = false
    /\ Main.model_architecture h <> "h-ffn-rnn"%string
    /\ Main.model_architecture h <> "ffn"%string in
  (Evaluation.created events = []
   \/ Evaluation.created events = [INFER]
   \/ Evaluation.created events = [EVAL])
  /\ (Evaluation.created events = []
      <-> exists e,
            Evaluation.get_model_creator env (Main.model_architecture h)
            = Raise e)
  /\ (Evaluation.created events = [INFER] -> infer)
  /\ (Evaluation.created events = [EVAL] -> ~ infer)
  /\ (forall file,
        In (Evaluation.input_file_placeholder, file) (Evaluation.fed events)
        -> file = Main.eval_input_path h)
  /\ (forall file,
        In (Evaluation.output_file_placeholder, file)
           (Evaluation.fed events)
        -> file = Main.eval_target_path h
           /\ Py.truthy (Main.val_target_path h) = true
           /\ Evaluation.created events = [EVAL])
  /\ (fst r = Ok tt ->
      In (Evaluation.input_file_placeholder, Main.eval_input_path h)
         (Evaluation.fed events)
      /\ (In Evaluation.output_file_placeholder
             (map fst (Evaluation.fed events))
          <-> Py.truthy (Main.val_target_path h) = true)).
Proof.
  intros h r events infer; subst infer events r.
  unfold Evaluation.evaluate.
  fold h.
  destruct (Py.truthy (Main.val_target_path h)) eqn:Et;
    destruct (String.eqb_spec (Main.model_architecture h) "h-ffn-rnn")
      as [E1|E1];
    destruct (String.eqb_spec (Main.model_architecture h) "ffn") as [E2|E2];
    run_evaluate;
    simpl;
    repeat (first [intro|split]);
    repeat match goal with
           | H : _ /\ _ |- _ => destruct H
           | H : _ \/ _ |- _ => destruct H
           | H : exists _, _ |- _ => destruct H
           | H : False |- _ => destruct H
           end;
    try discriminate; try congruence; try tauto; eauto.
Qed.

Lemma evaluate_feeds_target_iff_example :
  let hparams :=
    example_extended
      (example_default_at None None "ffn" "32" None
                          (Some "results"%string) None) in
  let r := Evaluation.evaluate example_eval_env hparams None in
  fst r = Ok tt
  /\ Evaluation.created (snd r) = [EVAL]
  /\ In (Evaluation.input_file_placeholder, Some "eval.txt"%string)
        (Evaluation.fed (snd r))
  /\ ~ In Evaluation.output_file_placeholder
          (map fst (Evaluation.fed (snd r))).
Proof.
  intros hparams r.
  destruct (evaluate_feeds_target_iff example_eval_env hparams None)
    as (_ & _ & _ & _ & _ & _ & H).
  destruct (H eq_refl) as [Hin Hout].
  split; [reflexivity|].
  split; [reflexivity|].
  split; [exact Hin|].
  intros Hf; apply Hout in Hf; discriminate Hf.
Defined.

(** With an evaluation output folder, [evaluate] writes at most two
    files, into that folder and in this order: the text file
    [predictions_filename] and the pickle file, which is named after
    the part of [predictions_filename] before its first dot, followed by
    ".pickle". When [evaluate] returns, it asked for one model, the
    batch run of that model returned predictions, the text file was
    written exactly when they have at most two dimensions, and the
    pickle file was written as the last step. *)
Theorem evaluate_written_files (env : Evaluation.Env)
  (hparams : Main.Extended) (ckpt : option string) (folder : string) :
  let h := Main.raw hparams in
  let r := Evaluation.evaluate env hparams ckpt in
  let stem :=
    hd EmptyString (Py.split Py.dot (Main.predictions_filename h)) in
  let txt := Py.path_join folder (Main.predictions_filename h) in
  let pickle := Py.path_join folder (stem ++ ".pickle") in
  Main.eval_output_folder h = Some folder ->
  Py.contains Py.dot stem = false
  /\ (Main.predictions_filename h = stem
      \/ exists rest,
           Main.predictions_filename h = (stem ++ String Py.dot rest)%string)
  /\ (Evaluation.written (snd r) = []
      \/ Evaluation.written (snd r) = [txt]
      \/ Evaluation.written (snd r) = [pickle]
      \/ Evaluation.written (snd r) = [txt; pickle])
  /\ (fst r = Ok tt ->
      exists model ndim before,
        Evaluation.created (snd r) = [model]
        /\ (model = INFER ->
            Evaluation.run_batch_prediction env INFER = Ok ndim)
        /\ (model = EVAL ->
            Evaluation.run_batch_evaluation_and_prediction env EVAL
            = Ok ndim)
        /\ Evaluation.written (snd r)
           = (if (ndim <=? 2)%nat then [txt] else []) ++ [pickle]
        /\ snd r = before ++ [Evaluation.PickleDump pickle]).
Proof.
  intros h r stem txt pickle Hf.
  destruct (split_hd Py.dot (Main.predictions_filename h)) as [Hs1 Hs2].
  split; [exact Hs1|].
  split; [exact Hs2|].
  subst r txt pickle stem.
  unfold Evaluation.evaluate.
  fold h; rewrite Hf.
  fold (Evaluation.pickle_name (Main.predictions_filename h)).
  destruct (negb (Py.truthy (Main.val_target_path h))
            && negb (Main.model_architecture h =? "h-ffn-rnn")%string
            && negb (Main.model_architecture h =? "ffn")%string);
    run_evaluate;
    (split; [simpl; tauto|]);
    intros Hr; try discriminate Hr;
    match goal with
    | Hn : _ = Ok ?n, Hle : (?n <=? 2)%nat = _ |- exists model, _ =>
        eexists _, n; rewrite Hle
    end;
    lazymatch goal with
    | |- exists before, _ /\ _ /\ _ /\ _ /\ ?l = _ =>
        exists (removelast l)
    end;
    (split; [reflexivity|]);
    (split; [intros Hm; first [discriminate Hm|reflexivity|assumption]|]);
    (split; [intros Hm; first [discriminate Hm|reflexivity|assumption]|]);
    split; reflexivity.
Qed.

Lemma evaluate_written_files_example :
  let hparams := example_extended example_default in
  let r := Evaluation.evaluate example_eval_env hparams None in
  fst r = Ok tt
  /\ Evaluation.written (snd r)
     = ["results/predictions.v2.txt"; "results/predictions.pickle"]%string.
Proof.
  intros hparams r.
  destruct (evaluate_written_files example_eval_env hparams None
              "results" eq_refl)
    as (_ & _ & _ & H).
  destruct (H eq_refl) as (model & ndim & before & Hc & Hi & _ & Hw & _).
  injection Hc as <-.
  injection (Hi eq_refl) as <-.
  split; [reflexivity|exact Hw].
Defined.

(** ** Padding targets through [build_network] *)

Lemma build_network_label_padding_scenario_A :
  let self := scenario_A H_RNN_RNN TRAIN in
  let self' :=
    with_batch self
      {| input := input scenario_A_batch;
         input_sess_length := input_sess_length scenario_A_batch;
         input_uttr_length := input_uttr_length scenario_A_batch;
         target := [[0; 1; 2]; [2; 3; 1]]%Z |} in
  exists logits loss s1 s1',
    build_network example_layers example_hparams self
    = Ok ((logits, loss), s1)
    /\ build_network example_layers example_hparams self'
       = Ok ((logits, loss), s1').
Proof.
  intros self self'.
  assert (E : exists loss s1,
             build_network example_layers example_hparams self
             = Ok ((map (map (fun _ : list R => [0; 0; 0; 0]))
                        scenario_A_logits, loss), s1))
    by (do 2 eexists; reflexivity).
  destruct E as (loss & s1 & E).
  destruct (build_network_label_padding example_layers example_hparams
              self self' s1 _ loss 2 3 4
              eq_refl eq_refl eq_refl eq_refl eq_refl eq_refl eq_refl eq_refl
              ltac:(shape_tac) ltac:(shape_tac) ltac:(discriminate)
              ltac:(range_tac) ltac:(range_tac) ltac:(agree_tac) E
              ltac:(shape_tac)) as [s1' E'].
  eexists; exists loss, s1, s1'; split; [exact E|exact E'].
Defined.
